(** * Persistence of the MLS group state (group_state.go)

    A shallow embedding of [Group.Marshal] and [UnmarshalGroupState] and of
    the [cryptobyte] builder and reader they run on, with the properties of
    the persistence format: round trip, canonical form, rejection of
    malformed input, field coverage, ordering, optional entries of the
    private-key column, and fixed-width indices. *)

From Stdlib Require Import ZArith Lia Bool String Strings.Byte List.
Import ListNotations.
Open Scope Z_scope.

Set Implicit Arguments.

(** ** Bytes and Go's integer conversions *)

Definition bytes := list byte.

Definition byte_to_Z (b : byte) : Z := Z.of_N (Byte.to_N b).

(** Go's [byte(v)]: keep the low eight bits. *)
Definition Z_to_byte (z : Z) : byte :=
  match Byte.of_N (Z.to_N (z mod 256)) with
  | Some b => b
  | None => x00
  end.

Definition uint8 (z : Z) : Z := z mod 2 ^ 8.
Definition uint16 (z : Z) : Z := z mod 2 ^ 16.
Definition uint32 (z : Z) : Z := z mod 2 ^ 32.

(** The values a Go [uint32] can hold. *)
Definition is_uint32 (z : Z) : Prop := 0 <= z < 2 ^ 32.

(** ** Errors *)

Inductive error : Type :=
| ErrUnexpectedEOF                       (* io.ErrUnexpectedEOF *)
| ErrVarintOverflow                      (* "mls: varint exceeds 30 bits" *)
| ErrOpaqueSize                          (* opaque size exceeds uint32 *)
| ErrExcessBytes (n : nat)               (* input contains n excess bytes *)
| ErrIndexOutOfRange                     (* run-time panic of [s[i]], i >= len(s) *)
| ErrOther (msg : string)                (* an error of a component codec *)
| ErrWrap (msg : string) (e : error).    (* fmt.Errorf("msg: %w", e) *)

(** Result of an [error]-returning reader.  [OutOfFuel] stands for a loop
    that was cut before it ended. *)
Inductive outcome (A : Type) : Type :=
| Done (a : A)
| Fail (e : error)
| OutOfFuel.
Arguments Done {A} a.
Arguments Fail {A} e.
Arguments OutOfFuel {A}.

Definition bindO {A B} (m : outcome A) (k : A -> outcome B) : outcome B :=
  match m with
  | Done a => k a
  | Fail e => Fail e
  | OutOfFuel => OutOfFuel
  end.

(** [if err := m; err != nil { return fmt.Errorf("msg: %w", err) }] *)
Definition wrapO {A} (msg : string) (m : outcome A) : outcome A :=
  match m with
  | Done a => Done a
  | Fail e => Fail (ErrWrap msg e)
  | OutOfFuel => OutOfFuel
  end.

(** [if !read(...) { return io.ErrUnexpectedEOF }] *)
Definition orEOF {A} (m : option A) : outcome A :=
  match m with
  | Some a => Done a
  | None => Fail ErrUnexpectedEOF
  end.

Declare Scope outcome_scope.
Delimit Scope outcome_scope with outcome.
Notation "' p <- m ;; k" := (bindO m (fun p => k))
  (at level 61, p pattern, m at next level, right associativity) : outcome_scope.
Notation "x <- m ;; k" := (bindO m (fun x => k))
  (at level 61, m at next level, right associativity) : outcome_scope.

(** ** golang.org/x/crypto/cryptobyte

    [Builder]: the bytes written so far and the error, if one was set.  Once
    an error is set every [Add...] is a no-op. *)
Record Builder : Type := mkBuilder {
  err : option error;
  result : bytes
}.

(** [var b cryptobyte.Builder] *)
Definition newBuilder : Builder := mkBuilder None [].

Definition add (b : Builder) (bs : bytes) : Builder :=
  match err b with
  | Some _ => b
  | None => mkBuilder None (result b ++ bs)
  end.

Definition SetError (b : Builder) (e : error) : Builder :=
  mkBuilder (Some e) (result b).

Definition AddUint8 (b : Builder) (v : Z) : Builder :=
  add b [Z_to_byte v].

Definition AddUint16 (b : Builder) (v : Z) : Builder :=
  add b [Z_to_byte (Z.shiftr v 8); Z_to_byte v].

Definition AddUint32 (b : Builder) (v : Z) : Builder :=
  add b [Z_to_byte (Z.shiftr v 24); Z_to_byte (Z.shiftr v 16);
         Z_to_byte (Z.shiftr v 8); Z_to_byte v].

Definition AddBytes (b : Builder) (v : bytes) : Builder := add b v.

(** [Bytes()] returns [(nil, err)] or [(result, nil)]. *)
Definition Bytes (b : Builder) : error + bytes :=
  match err b with
  | Some e => inl e
  | None => inr (result b)
  end.

(** [String]: the bytes not yet read.  A failed read hands nothing on:
    every caller below returns at once. *)
Definition String := bytes.

(** [read(n)]: the first [n] bytes and the rest, or failure when fewer
    remain. *)
Definition read (n : nat) (s : String) : option (bytes * String) :=
  if (length s <? n)%nat then None else Some (firstn n s, skipn n s).

Definition ReadUint8 (s : String) : option (Z * String) :=
  match s with
  | b :: s' => Some (byte_to_Z b, s')
  | [] => None
  end.

Definition ReadUint32 (s : String) : option (Z * String) :=
  match s with
  | b0 :: b1 :: b2 :: b3 :: s' =>
      Some (Z.lor (Z.lor (Z.lor (Z.shiftl (byte_to_Z b0) 24)
                                (Z.shiftl (byte_to_Z b1) 16))
                         (Z.shiftl (byte_to_Z b2) 8))
                  (byte_to_Z b3), s')
  | _ => None
  end.

Definition ReadBytes (n : nat) (s : String) : option (bytes * String) :=
  read n s.

(** [CopyBytes(out)] with [len(out) = n]. *)
Definition CopyBytes (n : nat) (s : String) : option (bytes * String) :=
  read n s.

Definition Empty (s : String) : bool :=
  match s with [] => true | _ => false end.

(** ** The interfaces [marshaler] and [unmarshaler]

    A [marshal] method writes its receiver to the builder and leaves the
    receiver as it is; an [unmarshal] method fills its receiver from the
    front of the input and leaves the rest. *)
Class marshaler (T : Type) := marshal_of : T -> Builder -> Builder.
Class unmarshaler (T : Type) := unmarshal_of : String -> outcome (T * String).

(** ** Wire helpers of the codec

    The helpers that group_state.go calls ([writeVarint], [writeOpaqueVec],
    [writeVector], [writeOptional], [marshal] and their readers) live in a
    file of the package that is not part of the sources at hand. *)

(** Modelled from the spec: [writeVarint], the length prefix of every
    "length-prefixed" byte string and vector.  The prefix is the
    variable-size length of the MLS wire format: the two top bits of the
    first byte give the width (1, 2 or 4 bytes), the rest is the value in
    big-endian order; lengths of 2^30 and more cannot be written. *)
Definition writeVarint (b : Builder) (n : Z) : Builder :=
  if n <? Z.shiftl 1 6 then AddUint8 b (uint8 n)
  else if n <? Z.shiftl 1 14 then
    AddUint16 b (Z.lor (Z.shiftl 1 14) (uint16 n))
  else if n <? Z.shiftl 1 30 then
    AddUint32 b (Z.lor (Z.shiftl 2 30) n)
  else SetError b ErrVarintOverflow.

Fixpoint readVarint_loop (k : nat) (v : Z) (s : String) : option (Z * String) :=
  match k with
  | O => Some (v, s)
  | S k' =>
      match ReadUint8 s with
      | None => None
      | Some (b, s') => readVarint_loop k' (uint32 (Z.shiftl v 8 + b)) s'
      end
  end.

(** Modelled from the spec: [readVarint], the reader of the length prefix.
    "Decoding must fail on an unknown/invalid length prefix": width tag 3 is
    unknown, and a value that fits a shorter width is invalid, so that
    "re-encoding a decoded value reproduces the original bytes". *)
Definition readVarint (s : String) : option (Z * String) :=
  match ReadUint8 s with
  | None => None
  | Some (b, s1) =>
      let prefix := Z.shiftr b 6 in
      if prefix =? 3 then None
      else
        let n := Z.shiftl 1 prefix in
        match readVarint_loop (Z.to_nat (n - 1)) (Z.land b 63) s1 with
        | None => None
        | Some (v, s2) =>
            if (1 <=? prefix) && (v <? Z.shiftl 1 (8 * (n / 2) - 2))
            then None
            else Some (v, s2)
        end
  end.

(** Modelled from the spec: [writeOpaqueVec], a byte string preceded by its
    length ("opaque vector"). *)
Definition writeOpaqueVec (b : Builder) (value : bytes) : Builder :=
  if 2 ^ 32 <=? Z.of_nat (length value) then SetError b ErrOpaqueSize
  else AddBytes (writeVarint b (uint32 (Z.of_nat (length value)))) value.

(** Modelled from the spec: [readOpaqueVec]; it fails when the prefix is
    invalid or when fewer bytes remain than the prefix announces. *)
Definition readOpaqueVec (s : String) : option (bytes * String) :=
  match readVarint s with
  | None => None
  | Some (n, s1) => CopyBytes (Z.to_nat n) s1
  end.

(** Modelled from the spec: [writeVector], "repeated elements are
    length-prefixed vectors": the callback is run for [i = 0 .. n-1] on a
    child builder, whose bytes are then written as one opaque vector. *)
Definition writeVector (b : Builder) (n : nat)
    (f : Builder -> nat -> Builder) : Builder :=
  let child := fold_left f (seq 0 n) newBuilder in
  match Bytes child with
  | inl e => SetError b e
  | inr raw => writeOpaqueVec b raw
  end.

(** The loop [for !vec.Empty() { if err := f(&vec); err != nil { return err } }].
    [st] is what the callback appends to. *)
Fixpoint readVector_loop {St : Type} (fuel : nat)
    (f : St -> String -> outcome (St * String))
    (st : St) (vec : String) : outcome St :=
  if Empty vec then Done st
  else
    match fuel with
    | O => OutOfFuel
    | S fuel' =>
        bindO (f st vec) (fun r => readVector_loop fuel' f (fst r) (snd r))
    end.

(** Modelled from the spec: [readVector]; the announced number of bytes is
    cut off the input and the callback is run on it until nothing is left.
    A callback that succeeds consumes at least one byte, so [length vec]
    rounds are enough. *)
Definition readVector {St : Type}
    (f : St -> String -> outcome (St * String))
    (st : St) (s : String) : outcome (St * String) :=
  bindO (orEOF (readVarint s)) (fun r1 =>
  bindO (orEOF (ReadBytes (Z.to_nat (fst r1)) (snd r1))) (fun r2 =>
  bindO (readVector_loop (length (fst r2)) f st (fst r2)) (fun st' =>
  Done (st', snd r2)))).

(** Modelled from the spec: [writeOptional], "optional values are preceded
    by a one-byte presence flag". *)
Definition writeOptional (b : Builder) (present : bool) : Builder :=
  AddUint8 b (if present then 1 else 0).

(** Modelled from the spec: [readOptional]; a flag other than 0 or 1 is
    refused. *)
Definition readOptional (s : String) : option (bool * String) :=
  match ReadUint8 s with
  | None => None
  | Some (u8, s') =>
      if u8 =? 0 then Some (false, s')
      else if u8 =? 1 then Some (true, s')
      else None
  end.

(** Modelled from the spec: the package's [marshal]: run the value's
    [marshal] method on a fresh builder and return its bytes. *)
Definition marshal {T : Type} {M : marshaler T} (v : T) : error + bytes :=
  Bytes (marshal_of v newBuilder).

(** Modelled from the spec: the package's [unmarshal]: run the value's
    [unmarshal] method on the input; "decoding must fail on trailing bytes
    beyond the last expected field". *)
Definition unmarshal {T : Type} {U : unmarshaler T} (raw : bytes) : outcome T :=
  bindO (unmarshal_of raw) (fun r =>
  if Empty (snd r) then Done (fst r)
  else Fail (ErrExcessBytes (length (snd r)))).

(** *** What the writers put on the wire *)

Definition varint_bytes (n : Z) : bytes :=
  if n <? 64 then [Z_to_byte n]
  else if n <? 16384 then [Z_to_byte (64 + n / 256); Z_to_byte n]
  else [Z_to_byte (128 + n / 16777216); Z_to_byte (n / 65536);
        Z_to_byte (n / 256); Z_to_byte n].

Definition opaque_bytes (v : bytes) : bytes :=
  varint_bytes (Z.of_nat (length v)) ++ v.

Definition uint32_bytes (v : Z) : bytes :=
  [Z_to_byte (v / 16777216); Z_to_byte (v / 65536);
   Z_to_byte (v / 256); Z_to_byte v].

(** The start of [s] is no length prefix: the width tag is the unknown 3,
    or the value is written wider than it needs. *)
Definition invalid_length_prefix (s : bytes) : bool :=
  match s with
  | [] => false
  | b0 :: tl =>
      let tag := byte_to_Z b0 / 64 in
      let v0 := byte_to_Z b0 mod 64 in
      if tag =? 3 then true
      else if tag =? 1 then
        match tl with
        | b1 :: _ => v0 * 256 + byte_to_Z b1 <? 64
        | _ => false
        end
      else if tag =? 2 then
        match tl with
        | b1 :: b2 :: b3 :: _ =>
            ((v0 * 256 + byte_to_Z b1) * 256 + byte_to_Z b2) * 256
              + byte_to_Z b3 <? 16384
        | _ => false
        end
      else false
  end.

(** A byte string short enough for its length prefix. *)
Definition fits (v : bytes) : Prop := Z.of_nat (length v) < 2 ^ 30.

(** [writes w bs]: on a builder without error, [w] appends exactly [bs]. *)
Definition writes (w : Builder -> Builder) (bs : bytes) : Prop :=
  forall b, err b = None -> w b = add b bs.

(** [refuses w]: [w] leaves the builder with an error. *)
Definition refuses (w : Builder -> Builder) : Prop :=
  forall b, err (w b) <> None.

(** [w] never clears an error. *)
Definition keeps_error (w : Builder -> Builder) : Prop :=
  forall b, err b <> None -> err (w b) <> None.

(** [emits w o]: [w] appends the bytes [o], or sets an error when [o] is
    [None]. *)
Definition emits (w : Builder -> Builder) (o : option bytes) : Prop :=
  keeps_error w /\
  match o with
  | Some bs => writes w bs
  | None => refuses w
  end.

(** The bytes [w] writes to a fresh builder. *)
Definition output (w : Builder -> Builder) : option bytes :=
  match Bytes (w newBuilder) with
  | inr bs => Some bs
  | inl _ => None
  end.

(** A writer in the style of [cryptobyte]: whatever the builder holds, it
    appends the bytes it would write to a fresh one, or sets an error. *)
Definition appends (w : Builder -> Builder) : Prop := emits w (output w).

Definition oapp (x y : option bytes) : option bytes :=
  match x, y with
  | Some a, Some b => Some (a ++ b)
  | _, _ => None
  end.

Definition oconcat (l : list (option bytes)) : option bytes :=
  fold_right oapp (Some []) l.

Definition opaque_enc (v : bytes) : option bytes :=
  if Z.of_nat (length v) <? 2 ^ 30 then Some (opaque_bytes v) else None.

(** A vector whose elements are written as [elems]. *)
Definition vector_enc (elems : list (option bytes)) : option bytes :=
  match oconcat elems with
  | Some raw => opaque_enc raw
  | None => None
  end.

(** The callback shape of both vectors of the group state: read one element
    with [dec] and append it. *)
Definition push {T : Type} (dec : String -> outcome (T * String))
    (acc : list T) (s : String) : outcome (list T * String) :=
  bindO (dec s) (fun r => Done (acc ++ [fst r], snd r)).

(** ** group_state.go *)

(** Modelled from the spec: the types [leafIndex] (a [uint32]),
    [hpkePrivateKey], [signaturePrivateKey] and [proposalRef] (byte slices)
    are declared in other files of the package.  A private key of the column
    is [None] when the slice is [nil], the one case the code tells apart. *)
Definition leafIndex := Z.
Definition hpkePrivateKey := option bytes.
Definition signaturePrivateKey := bytes.
Definition proposalRef := bytes.

(** [key != nil] *)
Definition key_present (key : hpkePrivateKey) : bool :=
  match key with Some _ => true | None => false end.

Section GroupState.

(** [groupContext], [ratchetTree] and [proposal] and their [marshal] and
    [unmarshal] methods are declared in other files of the package: they
    are parameters here. *)
Context {groupContext ratchetTree proposal : Type}.
Context {groupContext_marshal : marshaler groupContext}
        {groupContext_unmarshal : unmarshaler groupContext}
        {ratchetTree_marshal : marshaler ratchetTree}
        {ratchetTree_unmarshal : unmarshaler ratchetTree}
        {proposal_marshal : marshaler proposal}
        {proposal_unmarshal : unmarshaler proposal}.

(** Modelled from the spec: the struct [pendingProposal], "a reference
    (hash) to a not-yet-committed Proposal, the Proposal body itself, and
    the sender's leaf index"; its fields as group_state.go uses them. *)
Record pendingProposal : Type := mkPendingProposal {
  pp_ref : proposalRef;
  pp_proposal : proposal;
  pp_sender : leafIndex
}.

Definition pendingProposal_marshal (pp : pendingProposal) (b : Builder)
  : Builder :=
  let b := writeOpaqueVec b (pp_ref pp) in
  let b := marshal_of (pp_proposal pp) b in
  AddUint32 b (uint32 (pp_sender pp)).

Definition pendingProposal_unmarshal (s : String)
  : outcome (pendingProposal * String) :=
  ('(ref, s) <- orEOF (readOpaqueVec s) ;;
   '(prop, s) <- unmarshal_of s ;;
   '(sender, s) <- orEOF (ReadUint32 s) ;;
   Done (mkPendingProposal ref prop sender, s))%outcome.

Record groupState : Type := mkGroupState {
  gs_groupContext : groupContext;
  gs_tree : ratchetTree;
  gs_interimTranscriptHash : bytes;
  gs_pskSecret : bytes;
  gs_epochSecret : bytes;
  gs_initSecret : bytes;
  gs_myLeafIndex : leafIndex;
  gs_privTree : list hpkePrivateKey;
  gs_signaturePriv : signaturePrivateKey;
  gs_pendingProposals : list pendingProposal
}.

(** The callback of the [privTree] vector in [groupState.marshal]. *)
Definition privTree_write (privTree : list hpkePrivateKey)
    (b : Builder) (i : nat) : Builder :=
  match nth_error privTree i with
  | None => SetError b ErrIndexOutOfRange
  | Some key =>
      let b := writeOptional b (key_present key) in
      match key with
      | Some k => writeOpaqueVec b k
      | None => b
      end
  end.

(** The callback of the [pendingProposals] vector in [groupState.marshal]. *)
Definition pendingProposals_write (pps : list pendingProposal)
    (b : Builder) (i : nat) : Builder :=
  match nth_error pps i with
  | None => SetError b ErrIndexOutOfRange
  | Some pp => pendingProposal_marshal pp b
  end.

Definition groupState_marshal (gs : groupState) (b : Builder) : Builder :=
  let b := marshal_of (gs_groupContext gs) b in
  let b := marshal_of (gs_tree gs) b in
  let b := writeOpaqueVec b (gs_interimTranscriptHash gs) in
  let b := writeOpaqueVec b (gs_pskSecret gs) in
  let b := writeOpaqueVec b (gs_epochSecret gs) in
  let b := writeOpaqueVec b (gs_initSecret gs) in
  let b := AddUint32 b (uint32 (gs_myLeafIndex gs)) in
  let b := writeVector b (length (gs_privTree gs))
             (privTree_write (gs_privTree gs)) in
  let b := writeOpaqueVec b (gs_signaturePriv gs) in
  writeVector b (length (gs_pendingProposals gs))
    (pendingProposals_write (gs_pendingProposals gs)).

(** The callback of the [privTree] vector in [groupState.unmarshal];
    [privTree] is [gs.privTree], which it appends to. *)
Definition privTree_read (privTree : list hpkePrivateKey) (s : String)
  : outcome (list hpkePrivateKey * String) :=
  ('(present, s) <- orEOF (readOptional s) ;;
   if present : bool then
     '(key, s) <- orEOF (readOpaqueVec s) ;;
     Done (privTree ++ [Some key], s)
   else Done (privTree ++ [None], s))%outcome.

(** The callback of the [pendingProposals] vector in
    [groupState.unmarshal]. *)
Definition pendingProposals_read (pps : list pendingProposal) (s : String)
  : outcome (list pendingProposal * String) :=
  ('(pp, s) <- pendingProposal_unmarshal s ;;
   Done (pps ++ [pp], s))%outcome.

(** [*gs = groupState{}] empties both slices before the vectors are read. *)
Definition groupState_unmarshal (s : String) : outcome (groupState * String) :=
  ('(gc, s) <- wrapO "unmarshal group context" (unmarshal_of s) ;;
   '(tree, s) <- wrapO "unmarshal ratchet tree" (unmarshal_of s) ;;
   '(interimTranscriptHash, s) <- orEOF (readOpaqueVec s) ;;
   '(pskSecret, s) <- orEOF (readOpaqueVec s) ;;
   '(epochSecret, s) <- orEOF (readOpaqueVec s) ;;
   '(initSecret, s) <- orEOF (readOpaqueVec s) ;;
   '(myLeafIndex, s) <- orEOF (ReadUint32 s) ;;
   '(privTree, s) <- wrapO "unmarshal priv tree"
                       (readVector privTree_read [] s) ;;
   '(sigPriv, s) <- orEOF (readOpaqueVec s) ;;
   '(pendingProposals, s) <- wrapO "unmarshal pending proposals"
                               (readVector pendingProposals_read [] s) ;;
   Done (mkGroupState gc tree interimTranscriptHash pskSecret epochSecret
           initSecret myLeafIndex privTree sigPriv pendingProposals, s))%outcome.

(** Modelled from the spec: the struct [Group] is declared in another file;
    these are the fields that [Marshal] reads and [UnmarshalGroupState]
    sets, the "persisted Group state" of the spec. *)
Record Group : Type := mkGroup {
  g_groupContext : groupContext;
  g_tree : ratchetTree;
  g_interimTranscriptHash : bytes;
  g_pskSecret : bytes;
  g_epochSecret : bytes;
  g_initSecret : bytes;
  g_myLeafIndex : leafIndex;
  g_privTree : list hpkePrivateKey;
  g_signaturePriv : signaturePrivateKey;
  g_pendingProposals : list pendingProposal
}.

(** [Group.Marshal]: the receiver after the call and the returned pair
    [([]byte, error)]. *)
Definition Group_Marshal (g : Group) : Group * (error + bytes) :=
  let gs := {|
    gs_groupContext := g_groupContext g;
    gs_tree := g_tree g;
    gs_interimTranscriptHash := g_interimTranscriptHash g;
    gs_pskSecret := g_pskSecret g;
    gs_epochSecret := g_epochSecret g;
    gs_initSecret := g_initSecret g;
    gs_myLeafIndex := g_myLeafIndex g;
    gs_privTree := g_privTree g;
    gs_signaturePriv := g_signaturePriv g;
    gs_pendingProposals := g_pendingProposals g
  |} in
  (g, @marshal _ groupState_marshal gs).

(** What [Marshal] returns. *)
Definition Marshal (g : Group) : error + bytes := snd (Group_Marshal g).

Definition UnmarshalGroupState (data : bytes) : outcome Group :=
  (gs <- wrapO "unmarshal group state"
           (@unmarshal _ groupState_unmarshal data) ;;
   Done {|
     g_groupContext := gs_groupContext gs;
     g_tree := gs_tree gs;
     g_interimTranscriptHash := gs_interimTranscriptHash gs;
     g_pskSecret := gs_pskSecret gs;
     g_epochSecret := gs_epochSecret gs;
     g_initSecret := gs_initSecret gs;
     g_myLeafIndex := gs_myLeafIndex gs;
     g_privTree := gs_privTree gs;
     g_signaturePriv := gs_signaturePriv gs;
     g_pendingProposals := gs_pendingProposals gs
   |})%outcome.

(** *** The wire layout, field by field *)

Definition privKey_enc (key : hpkePrivateKey) : option bytes :=
  match key with
  | None => Some [x00]
  | Some k => oapp (Some [x01]) (opaque_enc k)
  end.

(** One entry of the private-key column, as [privTree_read] reads it. *)
Definition privKey_dec (s : String) : outcome (hpkePrivateKey * String) :=
  bindO (orEOF (readOptional s)) (fun r =>
  if fst r : bool then
    bindO (orEOF (readOpaqueVec (snd r))) (fun k => Done (Some (fst k), snd k))
  else Done (None, snd r)).

Definition pendingProposal_enc (pp : pendingProposal) : option bytes :=
  oconcat [opaque_enc (pp_ref pp);
           output (marshal_of (pp_proposal pp));
           Some (uint32_bytes (uint32 (pp_sender pp)))].

(** The ten fields in the order [groupState.marshal] writes them. *)
Definition groupState_fields (gs : groupState) : list (option bytes) :=
  [output (marshal_of (gs_groupContext gs));
   output (marshal_of (gs_tree gs));
   opaque_enc (gs_interimTranscriptHash gs);
   opaque_enc (gs_pskSecret gs);
   opaque_enc (gs_epochSecret gs);
   opaque_enc (gs_initSecret gs);
   Some (uint32_bytes (uint32 (gs_myLeafIndex gs)));
   vector_enc (map privKey_enc (gs_privTree gs));
   opaque_enc (gs_signaturePriv gs);
   vector_enc (map pendingProposal_enc (gs_pendingProposals gs))].

Definition groupState_enc (gs : groupState) : option bytes :=
  oconcat (groupState_fields gs).

(** The [groupState] that [Marshal] builds from a [Group]. *)
Definition state_of (g : Group) : groupState := {|
  gs_groupContext := g_groupContext g;
  gs_tree := g_tree g;
  gs_interimTranscriptHash := g_interimTranscriptHash g;
  gs_pskSecret := g_pskSecret g;
  gs_epochSecret := g_epochSecret g;
  gs_initSecret := g_initSecret g;
  gs_myLeafIndex := g_myLeafIndex g;
  gs_privTree := g_privTree g;
  gs_signaturePriv := g_signaturePriv g;
  gs_pendingProposals := g_pendingProposals g
|}.

(** The [Group] that [UnmarshalGroupState] builds from a [groupState]. *)
Definition group_of (gs : groupState) : Group := {|
  g_groupContext := gs_groupContext gs;
  g_tree := gs_tree gs;
  g_interimTranscriptHash := gs_interimTranscriptHash gs;
  g_pskSecret := gs_pskSecret gs;
  g_epochSecret := gs_epochSecret gs;
  g_initSecret := gs_initSecret gs;
  g_myLeafIndex := gs_myLeafIndex gs;
  g_privTree := gs_privTree gs;
  g_signaturePriv := gs_signaturePriv gs;
  g_pendingProposals := gs_pendingProposals gs
|}.

(** *** Comparing a group with the one read back *)

(** [pp'] is [pp] read back: the same reference, a proposal related by
    [Rp], and the sender as the 32-bit value that was written. *)
Definition pendingProposal_restored (Rp : proposal -> proposal -> Prop)
    (pp pp' : pendingProposal) : Prop :=
  pp_ref pp' = pp_ref pp /\
  Rp (pp_proposal pp) (pp_proposal pp') /\
  pp_sender pp' = uint32 (pp_sender pp).

Definition groupState_restored
    (Rgc : groupContext -> groupContext -> Prop)
    (Rt : ratchetTree -> ratchetTree -> Prop)
    (Rp : proposal -> proposal -> Prop)
    (gs gs' : groupState) : Prop :=
  Rgc (gs_groupContext gs) (gs_groupContext gs') /\
  Rt (gs_tree gs) (gs_tree gs') /\
  gs_interimTranscriptHash gs' = gs_interimTranscriptHash gs /\
  gs_pskSecret gs' = gs_pskSecret gs /\
  gs_epochSecret gs' = gs_epochSecret gs /\
  gs_initSecret gs' = gs_initSecret gs /\
  gs_myLeafIndex gs' = uint32 (gs_myLeafIndex gs) /\
  gs_privTree gs' = gs_privTree gs /\
  gs_signaturePriv gs' = gs_signaturePriv gs /\
  Forall2 (pendingProposal_restored Rp)
    (gs_pendingProposals gs) (gs_pendingProposals gs').

(** The indices of a group are values of Go's [uint32]. *)
Definition indices_ok (g : Group) : Prop :=
  is_uint32 (g_myLeafIndex g) /\
  Forall (fun pp => is_uint32 (pp_sender pp)) (g_pendingProposals g).

End GroupState.

(** Two values with the same encoding. *)
Definition same_wire {T : Type} {M : marshaler T} (x x' : T) : Prop :=
  marshal x' = marshal x.

(** *** What is asked of the codec of a component

    [groupContext], [ratchetTree] and [proposal] bring their own [marshal]
    and [unmarshal]; the properties below are those of any codec built from
    the same helpers. *)

(** [marshal] is a writer in the style of [cryptobyte]. *)
Definition writer_law (T : Type) {M : marshaler T} : Prop :=
  forall x : T, appends (marshal_of x).

(** What [marshal] wrote, [unmarshal] reads, up to there and as a value
    that marshals to the same bytes. *)
Definition reread_law (T : Type) {M : marshaler T} {U : unmarshaler T} : Prop :=
  forall (x : T) (bs rest : bytes),
    marshal x = inr bs ->
    exists x', unmarshal_of (bs ++ rest) = Done (x', rest) /\ same_wire x x'.

(** What [marshal] wrote of a valid value, [unmarshal] reads as that
    value. *)
Definition exact_law (T : Type) {M : marshaler T} {U : unmarshaler T}
    (valid : T -> Prop) : Prop :=
  forall (x : T) (bs rest : bytes),
    valid x -> marshal x = inr bs ->
    unmarshal_of (bs ++ rest) = Done (x, rest).

(** [unmarshal] accepts only what [marshal] writes of the value read. *)
Definition canonical_law (T : Type) {M : marshaler T} {U : unmarshaler T}
  : Prop :=
  forall (s : bytes) (x : T) (rest : bytes),
    unmarshal_of s = Done (x, rest) ->
    exists bs, marshal x = inr bs /\ s = bs ++ rest.

(** [unmarshal] ends. *)
Definition total_law (T : Type) {U : unmarshaler T} : Prop :=
  forall s : bytes, @unmarshal_of T U s <> OutOfFuel.

Arguments pendingProposal : clear implicits.
Arguments groupState : clear implicits.
Arguments Group : clear implicits.

Arguments writer_law T {M}.
Arguments reread_law T {M U}.
Arguments exact_law T {M U} valid.
Arguments canonical_law T {M U}.
Arguments total_law T {U}.

(** ** Creating a group and application messages

    [CreateGroup], [CreateApplicationMessage] and
    [UnmarshalAndProcessMessage] are called by the tests of the package but
    are declared in files that are not part of the sources at hand. *)

(** Modelled from the spec: the primitive suite, "consumed as an abstract
    CipherSuite capability": [seal(key, nonce, aad, pt)],
    [open(key, nonce, aad, ct) -> pt|error] and the key derivation
    [kdf_expand]. *)
Record CipherSuite : Type := mkCipherSuite {
  aead_seal : bytes -> bytes -> bytes -> bytes -> bytes;
  aead_open : bytes -> bytes -> bytes -> bytes -> option bytes;
  kdf_expand : bytes -> string -> bytes -> bytes
}.

(** What is asked of the suite: opening what was sealed, with the same key,
    nonce and associated data, gives the plaintext. *)
Definition aead_law (cs : CipherSuite) : Prop :=
  forall key nonce aad pt,
    aead_open cs key nonce aad (aead_seal cs key nonce aad pt) = Some pt.

(** Modelled from the spec: "a signed public-key bundle" with the
    credential, "an opaque Credential blob carried alongside keys". *)
Record KeyPackage : Type := mkKeyPackage {
  kp_credential : bytes;
  kp_hpkePublic : bytes;
  kp_signaturePublic : bytes
}.

(** Modelled from the spec: "KeyPairPackage = KeyPackage + private
    signing/HPKE keys". *)
Record KeyPairPackage : Type := mkKeyPairPackage {
  kpp_Public : KeyPackage;
  kpp_hpkePriv : bytes;
  kpp_signaturePriv : bytes
}.

(** Modelled from the spec: an application message on the wire, "sender
    leaf index + generation + AEAD ciphertext", framed with "the same
    length-prefixed-vector convention as persistence". *)
Record applicationMessage : Type := mkApplicationMessage {
  am_sender : leafIndex;
  am_generation : Z;
  am_ciphertext : bytes
}.

Definition applicationMessage_marshal (m : applicationMessage) (b : Builder)
  : Builder :=
  let b := AddUint32 b (uint32 (am_sender m)) in
  let b := AddUint32 b (uint32 (am_generation m)) in
  writeOpaqueVec b (am_ciphertext m).

Definition applicationMessage_unmarshal (s : String)
  : outcome (applicationMessage * String) :=
  ('(sender, s) <- orEOF (ReadUint32 s) ;;
   '(generation, s) <- orEOF (ReadUint32 s) ;;
   '(ciphertext, s) <- orEOF (readOpaqueVec s) ;;
   Done (mkApplicationMessage sender generation ciphertext, s))%outcome.

Section Protocol.

Context {groupContext ratchetTree proposal : Type}.
Context {groupContext_marshal : marshaler groupContext}
        {ratchetTree_marshal : marshaler ratchetTree}
        {proposal_marshal : marshaler proposal}.

Variable cs : CipherSuite.

(** Modelled from the spec: the tree of a new group, "single-leaf tree",
    and its context, "group identifier, epoch counter, tree hash, confirmed
    transcript hash, cipher suite id" at "epoch 0"; both are parameters. *)
Variable single_leaf_tree : KeyPackage -> ratchetTree.
Variable initial_context : bytes -> ratchetTree -> groupContext.

(** Modelled from the spec: "CreateGroup(id, KeyPairPackage) -> Group:
    single-leaf tree, epoch 0, init_secret drawn from a fresh random seed,
    empty pending-proposal set".  [seed] is the random draw; the member
    sits at leaf 0 and holds the private key of that leaf. *)
Definition CreateGroup (id : bytes) (kpp : KeyPairPackage) (seed : bytes)
  : Group groupContext ratchetTree proposal :=
  let tree := single_leaf_tree (kpp_Public kpp) in
  {| g_groupContext := initial_context id tree;
     g_tree := tree;
     g_interimTranscriptHash := [];
     g_pskSecret := [];
     g_epochSecret := kdf_expand cs seed "epoch" [];
     g_initSecret := seed;
     g_myLeafIndex := 0;
     g_privTree := [Some (kpp_hpkePriv kpp)];
     g_signaturePriv := kpp_signaturePriv kpp;
     g_pendingProposals := [] |}.

(** Modelled from the spec: the ratchet of one leaf of the Secret Tree,
    "generation n+1 derivable from n, never the reverse". *)
Fixpoint ratchet (n : nat) (secret : bytes) : bytes :=
  match n with
  | O => secret
  | S k => kdf_expand cs (ratchet k secret) "next" []
  end.

(** Modelled from the spec: the AEAD key and nonce of one message, drawn
    from the Secret Tree "rooted at encryption_secret", which descends from
    the epoch secret, by "sender leaf index + generation". *)
Definition message_key (g : Group groupContext ratchetTree proposal)
    (sender : leafIndex) (generation : Z) : bytes * bytes :=
  let encryption_secret := kdf_expand cs (g_epochSecret g) "encryption" [] in
  let leaf_secret := kdf_expand cs encryption_secret "leaf" (uint32_bytes sender) in
  let secret := ratchet (Z.to_nat generation) leaf_secret in
  (kdf_expand cs secret "key" [], kdf_expand cs secret "nonce" []).

(** Modelled from the spec: the group context is "hashed into every derived
    secret and every signature to bind them to exactly one epoch"; here it
    is the associated data of the message. *)
Definition message_aad (g : Group groupContext ratchetTree proposal) : bytes :=
  match marshal (g_groupContext g) with
  | inr bs => bs
  | inl _ => []
  end.

(** Modelled from the spec: a group in use, with the state of its Secret
    Tree, which is derived and not persisted: the generation of the next
    message to send, and the generations already consumed per sender. *)
Record Session : Type := mkSession {
  s_group : Group groupContext ratchetTree proposal;
  s_generation : Z;
  s_consumed : list (leafIndex * Z)
}.

(** A group as [CreateGroup] or [UnmarshalGroupState] returns it. *)
Definition open_session (g : Group groupContext ratchetTree proposal)
  : Session :=
  mkSession g 0 [].

Definition consumed (c : list (leafIndex * Z)) (sender : leafIndex)
    (generation : Z) : bool :=
  existsb (fun p => (fst p =? sender) && (snd p =? generation)) c.

(** Modelled from the spec: encrypting application data "using per-sender,
    per-generation keys drawn from the Secret Tree"; "a sender never reuses
    a generation". *)
Definition CreateApplicationMessage (s : Session) (plaintext : bytes)
  : Session * (error + bytes) :=
  let g := s_group s in
  let sender := g_myLeafIndex g in
  let generation := s_generation s in
  let (key, nonce) := message_key g sender generation in
  let ct := aead_seal cs key nonce (message_aad g) plaintext in
  (mkSession g (generation + 1) (s_consumed s),
   @marshal _ applicationMessage_marshal
     (mkApplicationMessage sender generation ct)).

(** Modelled from the spec: "Application message: decrypt using sender leaf
    index + generation carried in the ciphertext header to pick the correct
    Secret Tree derivation; sequence/generation must match a generation the
    receiver has not already consumed". *)
Definition UnmarshalAndProcessMessage (s : Session) (data : bytes)
  : Session * outcome bytes :=
  match @unmarshal _ applicationMessage_unmarshal data with
  | Done m =>
      let g := s_group s in
      if consumed (s_consumed s) (am_sender m) (am_generation m)
      then (s, Fail (ErrOther "stale or replayed generation"))
      else
        let (key, nonce) := message_key g (am_sender m) (am_generation m) in
        match aead_open cs key nonce (message_aad g) (am_ciphertext m) with
        | Some pt =>
            (mkSession g (s_generation s)
               ((am_sender m, am_generation m) :: s_consumed s), Done pt)
        | None => (s, Fail (ErrOther "authentication failure"))
        end
  | Fail e => (s, Fail e)
  | OutOfFuel => (s, OutOfFuel)
  end.

End Protocol.

Arguments Session : clear implicits.

(** ** A sample of the three components

    Small codecs built from the same helpers, on which the properties
    asked of the components hold; they serve to run the theorems on a
    concrete group. *)

Module Sample.

(** Modelled from the spec: a group context with "group identifier, epoch
    counter, tree hash"; the epoch is one of the "fixed-width 32-bit
    integers for counters". *)
Record context : Type := mkContext {
  c_groupID : bytes;
  c_epoch : Z;
  c_treeHash : bytes
}.

Definition context_marshal (c : context) (b : Builder) : Builder :=
  let b := writeOpaqueVec b (c_groupID c) in
  let b := AddUint32 b (uint32 (c_epoch c)) in
  writeOpaqueVec b (c_treeHash c).

Definition context_unmarshal (s : String) : outcome (context * String) :=
  ('(groupID, s) <- orEOF (readOpaqueVec s) ;;
   '(epoch, s) <- orEOF (ReadUint32 s) ;;
   '(treeHash, s) <- orEOF (readOpaqueVec s) ;;
   Done (mkContext groupID epoch treeHash, s))%outcome.

Definition context_valid (c : context) : Prop := is_uint32 (c_epoch c).

Definition context_enc (c : context) : option bytes :=
  oconcat [opaque_enc (c_groupID c);
           Some (uint32_bytes (uint32 (c_epoch c)));
           opaque_enc (c_treeHash c)].

(** Modelled from the spec: a ratchet tree as "an array-backed binary
    tree", each node blank or holding its public key. *)
Definition tree : Type := list (option bytes).

Definition tree_marshal (t : tree) (b : Builder) : Builder :=
  writeVector b (length t) (privTree_write t).

Definition tree_unmarshal (s : String) : outcome (tree * String) :=
  readVector privTree_read [] s.

Definition tree_valid (t : tree) : Prop := True.

(** Modelled from the spec: "polymorphic proposal types (Add/Remove/Update)
    as a tagged variant". *)
Inductive proposal : Type :=
| Add (keyPackage : bytes)
| Update (keyPackage : bytes)
| Remove (removed : leafIndex).

Definition proposal_marshal (p : proposal) (b : Builder) : Builder :=
  match p with
  | Add kp => writeOpaqueVec (AddUint8 b 1) kp
  | Update kp => writeOpaqueVec (AddUint8 b 2) kp
  | Remove l => AddUint32 (AddUint8 b 3) (uint32 l)
  end.

Definition proposal_unmarshal (s : String) : outcome (proposal * String) :=
  ('(t, s) <- orEOF (ReadUint8 s) ;;
   if t =? 1 then
     '(kp, s) <- orEOF (readOpaqueVec s) ;; Done (Add kp, s)
   else if t =? 2 then
     '(kp, s) <- orEOF (readOpaqueVec s) ;; Done (Update kp, s)
   else if t =? 3 then
     '(l, s) <- orEOF (ReadUint32 s) ;; Done (Remove l, s)
   else Fail (ErrOther "unknown proposal type"))%outcome.

Definition proposal_valid (p : proposal) : Prop :=
  match p with
  | Remove l => is_uint32 l
  | _ => True
  end.

Definition proposal_enc (p : proposal) : option bytes :=
  match p with
  | Add kp => oapp (Some [x01]) (opaque_enc kp)
  | Update kp => oapp (Some [x02]) (opaque_enc kp)
  | Remove l => Some (x03 :: uint32_bytes (uint32 l))
  end.

(** What is read back of a proposal: the removed leaf as a 32-bit value. *)
Definition proposal_norm (p : proposal) : proposal :=
  match p with
  | Remove l => Remove (uint32 l)
  | _ => p
  end.

#[export] Instance context_marshaler : marshaler context := context_marshal.
#[export] Instance context_unmarshaler : unmarshaler context := context_unmarshal.
#[export] Instance tree_marshaler : marshaler tree := tree_marshal.
#[export] Instance tree_unmarshaler : unmarshaler tree := tree_unmarshal.
#[export] Instance proposal_marshaler : marshaler proposal := proposal_marshal.
#[export] Instance proposal_unmarshaler : unmarshaler proposal := proposal_unmarshal.

(** A suite that seals nothing, enough to run the message flow. *)
Definition suite : CipherSuite := {|
  aead_seal := fun _ _ _ pt => pt;
  aead_open := fun _ _ _ ct => Some ct;
  kdf_expand := fun secret label ctx =>
                  secret ++ list_byte_of_string label ++ ctx
|}.

Definition single_leaf_tree (kp : KeyPackage) : tree :=
  [Some (kp_hpkePublic kp)].

Definition initial_context (id : bytes) (t : tree) : context :=
  mkContext id 0 [].

Definition alice : KeyPairPackage := {|
  kpp_Public := {| kp_credential := list_byte_of_string "alice";
                   kp_hpkePublic := [x0a; x0b];
                   kp_signaturePublic := [x0c] |};
  kpp_hpkePriv := [x01; x02; x03];
  kpp_signaturePriv := [x04; x05]
|}.

(** The group of the test: "test-group" created by "alice". *)
Definition group0 : Group context tree proposal :=
  CreateGroup suite single_leaf_tree initial_context
    (list_byte_of_string "test-group") alice [x2a].

(** A group further on: two members, a key held for the root only, and two
    proposals waiting. *)
Definition group1 : Group context tree proposal := {|
  g_groupContext := mkContext (list_byte_of_string "two-member") 1 [xaa];
  g_tree := [Some [x0a]; None; Some [x0b]];
  g_interimTranscriptHash := [x11; x12];
  g_pskSecret := [];
  g_epochSecret := [x21];
  g_initSecret := [x31];
  g_myLeafIndex := 1;
  g_privTree := [None; Some [x41]; Some []];
  g_signaturePriv := [x51];
  g_pendingProposals :=
    [ mkPendingProposal [x61] (Add [x71; x72]) 0;
      mkPendingProposal [x62] (Remove 1) 1 ]
|}.

Definition bytes_of (r : error + bytes) : bytes :=
  match r with inr bs => bs | inl _ => [] end.

Definition data0 : bytes := Eval vm_compute in bytes_of (Marshal group0).
Definition data1 : bytes := Eval vm_compute in bytes_of (Marshal group1).

(** The ten chunks of [data1], one per field. *)
Definition chunks1 : list bytes :=
  Eval vm_compute in
    map (fun o => match o with Some b => b | None => [] end)
      (groupState_fields (state_of group1)).

(** "hello world", encrypted by the new group. *)
Definition hello : bytes := list_byte_of_string "hello world".

Definition sent0 : Session context tree proposal * (error + bytes) :=
  Eval vm_compute in CreateApplicationMessage suite (open_session group0) hello.

Definition ciphertext0 : bytes := Eval vm_compute in bytes_of (snd sent0).

End Sample.

(** ** Well-formed groups *)

(** A group whose components are well formed and whose indices are values
    of Go's [uint32]: what a group built by the package is. *)
Definition Group_valid {groupContext ratchetTree proposal : Type}
    (groupContext_valid : groupContext -> Prop)
    (ratchetTree_valid : ratchetTree -> Prop)
    (proposal_valid : proposal -> Prop)
    (g : Group groupContext ratchetTree proposal) : Prop :=
  groupContext_valid (g_groupContext g) /\
  ratchetTree_valid (g_tree g) /\
  Forall (fun pp => proposal_valid (pp_proposal pp)) (g_pendingProposals g) /\
  is_uint32 (g_myLeafIndex g) /\
  Forall (fun pp => is_uint32 (pp_sender pp)) (g_pendingProposals g).

(** ** [Group.Marshal] on the group in memory

    [Marshal] has a pointer receiver, and the [groupState] it fills takes
    the slices and pointers of the group as they are: every backing array
    and every proposal is shared between the two.  What the method and its
    callees do to the group is therefore what they do to the memory the
    group lives in, which this part makes explicit. *)

Definition addr := nat.

(** A slice as group_state.go uses it: [nil], or a reference to its backing
    array.  [Marshal] never reslices, so a slice is as long as its array. *)
Inductive slice : Type :=
| slice_nil
| slice_at (a : addr).

(** [key != nil] on the slice itself. *)
Definition slice_present (s : slice) : bool :=
  match s with slice_nil => false | slice_at _ => true end.

(** Modelled from the spec: the struct [pendingProposal] as it lies in
    memory; [pp.proposal] is a pointer ([new(proposal)] in [unmarshal]). *)
Record pendingProposal_mem : Type := mkPendingProposal_mem {
  ppm_ref : slice;
  ppm_proposal : addr;
  ppm_sender : leafIndex
}.

Section Memory.

Context {groupContext ratchetTree proposal : Type}.

(** Modelled from the spec: the struct [Group] as it lies in memory, with
    the fields [Marshal] reads. *)
Record Group_mem : Type := mkGroup_mem {
  gm_groupContext : groupContext;
  gm_tree : ratchetTree;
  gm_interimTranscriptHash : slice;
  gm_pskSecret : slice;
  gm_epochSecret : slice;
  gm_initSecret : slice;
  gm_myLeafIndex : leafIndex;
  gm_privTree : slice;
  gm_signaturePriv : slice;
  gm_pendingProposals : slice
}.

(** The local [gs] of [Marshal]. *)
Record groupState_mem : Type := mkGroupState_mem {
  gsm_groupContext : groupContext;
  gsm_tree : ratchetTree;
  gsm_interimTranscriptHash : slice;
  gsm_pskSecret : slice;
  gsm_epochSecret : slice;
  gsm_initSecret : slice;
  gsm_myLeafIndex : leafIndex;
  gsm_privTree : slice;
  gsm_signaturePriv : slice;
  gsm_pendingProposals : slice
}.

(** The memory: the groups, the backing arrays of the three kinds of slice,
    and the proposals that are pointed to, each kind addressed by
    position. *)
Record Heap : Type := mkHeap {
  group_objects : list Group_mem;
  byte_arrays : list bytes;
  key_arrays : list (list slice);
  proposal_arrays : list (list pendingProposal_mem);
  proposal_objects : list proposal
}.

(** What a slice refers to; a [nil] slice has no elements. *)
Definition bytes_at (h : Heap) (s : slice) : bytes :=
  match s with
  | slice_nil => []
  | slice_at a => nth a (byte_arrays h) []
  end.

Definition keys_at (h : Heap) (s : slice) : list slice :=
  match s with
  | slice_nil => []
  | slice_at a => nth a (key_arrays h) []
  end.

Definition proposals_at (h : Heap) (s : slice) : list pendingProposal_mem :=
  match s with
  | slice_nil => []
  | slice_at a => nth a (proposal_arrays h) []
  end.

(** A computation on the memory: its result and the memory it leaves. *)
Definition St (A : Type) : Type := Heap -> A * Heap.

Definition ret {A : Type} (a : A) : St A := fun h => (a, h).

Definition bind {A B : Type} (m : St A) (k : A -> St B) : St B :=
  fun h => let (a, h1) := m h in k a h1.

Definition load_bytes (s : slice) : St bytes :=
  fun h => (bytes_at h s, h).

Definition load_keys (s : slice) : St (list slice) :=
  fun h => (keys_at h s, h).

Definition load_proposals (s : slice) : St (list pendingProposal_mem) :=
  fun h => (proposals_at h s, h).

(** The [marshal] methods of the three components are declared in other
    files of the package; each is handed the builder and may do to the
    memory whatever its code says.  [proposal.marshal] is called through
    the pointer [pp.proposal]. *)
Variable groupContext_marshal_at : groupContext -> Builder -> St Builder.
Variable ratchetTree_marshal_at : ratchetTree -> Builder -> St Builder.
Variable proposal_marshal_at : addr -> Builder -> St Builder.

(** Modelled from the spec: [writeOpaqueVec] handed a slice: it reads the
    bytes the slice refers to and writes them behind their length. *)
Definition writeOpaqueVec_at (b : Builder) (value : slice) : St Builder :=
  bind (load_bytes value) (fun v => ret (writeOpaqueVec b v)).

(** The loop [for i := 0; i < n; i++ { f(&child, i) }] of [writeVector]. *)
Fixpoint writeVector_loop (f : Builder -> nat -> St Builder)
    (l : list nat) (child : Builder) : St Builder :=
  match l with
  | [] => ret child
  | i :: l' => bind (f child i) (fun child' => writeVector_loop f l' child')
  end.

(** Modelled from the spec: [writeVector] with a callback that reads the
    memory. *)
Definition writeVector_at (b : Builder) (n : nat)
    (f : Builder -> nat -> St Builder) : St Builder :=
  bind (writeVector_loop f (seq 0 n) newBuilder) (fun child =>
  ret (match Bytes child with
       | inl e => SetError b e
       | inr raw => writeOpaqueVec b raw
       end)).

(** [pendingProposal.marshal] on [&gs.pendingProposals[i]]: each field is
    read through the pointer when it is used. *)
Definition pendingProposal_marshal_at (pps : slice) (i : nat) (b : Builder)
  : St Builder :=
  bind (load_proposals pps) (fun arr =>
  match nth_error arr i with
  | None => ret (SetError b ErrIndexOutOfRange)
  | Some pp =>
      bind (writeOpaqueVec_at b (ppm_ref pp)) (fun b =>
      bind (load_proposals pps) (fun arr =>
      match nth_error arr i with
      | None => ret (SetError b ErrIndexOutOfRange)
      | Some pp =>
          bind (proposal_marshal_at (ppm_proposal pp) b) (fun b =>
          bind (load_proposals pps) (fun arr =>
          match nth_error arr i with
          | None => ret (SetError b ErrIndexOutOfRange)
          | Some pp => ret (AddUint32 b (uint32 (ppm_sender pp)))
          end))
      end))
  end).

(** The callback of the [privTree] vector: [key := gs.privTree[i]]. *)
Definition privTree_write_at (privTree : slice) (b : Builder) (i : nat)
  : St Builder :=
  bind (load_keys privTree) (fun arr =>
  match nth_error arr i with
  | None => ret (SetError b ErrIndexOutOfRange)
  | Some key =>
      let b := writeOptional b (slice_present key) in
      if slice_present key then writeOpaqueVec_at b key else ret b
  end).

(** The callback of the [pendingProposals] vector. *)
Definition pendingProposals_write_at (pps : slice) (b : Builder) (i : nat)
  : St Builder :=
  pendingProposal_marshal_at pps i b.

(** [groupState.marshal] on the local [gs]. *)
Definition groupState_marshal_at (gs : groupState_mem) (b : Builder)
  : St Builder :=
  bind (groupContext_marshal_at (gsm_groupContext gs) b) (fun b =>
  bind (ratchetTree_marshal_at (gsm_tree gs) b) (fun b =>
  bind (writeOpaqueVec_at b (gsm_interimTranscriptHash gs)) (fun b =>
  bind (writeOpaqueVec_at b (gsm_pskSecret gs)) (fun b =>
  bind (writeOpaqueVec_at b (gsm_epochSecret gs)) (fun b =>
  bind (writeOpaqueVec_at b (gsm_initSecret gs)) (fun b =>
  let b := AddUint32 b (uint32 (gsm_myLeafIndex gs)) in
  bind (load_keys (gsm_privTree gs)) (fun keys =>
  bind (writeVector_at b (length keys)
          (privTree_write_at (gsm_privTree gs))) (fun b =>
  bind (writeOpaqueVec_at b (gsm_signaturePriv gs)) (fun b =>
  bind (load_proposals (gsm_pendingProposals gs)) (fun pps =>
  writeVector_at b (length pps)
    (pendingProposals_write_at (gsm_pendingProposals gs)))))))))))).

(** [Group.Marshal] on the receiver [g]: [None] is the run-time panic of a
    receiver that points to no group; otherwise the fields are copied into
    [gs] and [marshal(&gs)] is returned. *)
Definition Group_Marshal_at (g : addr) : St (option (error + bytes)) :=
  fun h =>
    match nth_error (group_objects h) g with
    | None => (None, h)
    | Some G =>
        let gs := {|
          gsm_groupContext := gm_groupContext G;
          gsm_tree := gm_tree G;
          gsm_interimTranscriptHash := gm_interimTranscriptHash G;
          gsm_pskSecret := gm_pskSecret G;
          gsm_epochSecret := gm_epochSecret G;
          gsm_initSecret := gm_initSecret G;
          gsm_myLeafIndex := gm_myLeafIndex G;
          gsm_privTree := gm_privTree G;
          gsm_signaturePriv := gm_signaturePriv G;
          gsm_pendingProposals := gm_pendingProposals G
        |} in
        bind (groupState_marshal_at gs newBuilder)
             (fun b => ret (Some (Bytes b))) h
    end.

(** *** The value of a group in memory *)

(** A key of the column: [nil], or the bytes it refers to. *)
Definition key_at (h : Heap) (key : slice) : hpkePrivateKey :=
  if slice_present key then Some (bytes_at h key) else None.

(** A pending proposal with what its reference and its pointer refer to. *)
Definition pendingProposal_at (h : Heap) (pp : pendingProposal_mem)
  : pendingProposal (option proposal) :=
  mkPendingProposal (bytes_at h (ppm_ref pp))
    (nth_error (proposal_objects h) (ppm_proposal pp)) (ppm_sender pp).

(** The group that [g] points to, every field with what it refers to. *)
Definition Group_at (h : Heap) (g : addr)
  : option (Group groupContext ratchetTree (option proposal)) :=
  match nth_error (group_objects h) g with
  | None => None
  | Some G =>
      Some {|
        g_groupContext := gm_groupContext G;
        g_tree := gm_tree G;
        g_interimTranscriptHash := bytes_at h (gm_interimTranscriptHash G);
        g_pskSecret := bytes_at h (gm_pskSecret G);
        g_epochSecret := bytes_at h (gm_epochSecret G);
        g_initSecret := bytes_at h (gm_initSecret G);
        g_myLeafIndex := gm_myLeafIndex G;
        g_privTree := map (key_at h) (keys_at h (gm_privTree G));
        g_signaturePriv := bytes_at h (gm_signaturePriv G);
        g_pendingProposals :=
          map (pendingProposal_at h) (proposals_at h (gm_pendingProposals G))
      |}
  end.

(** A group whose pending proposals are all pointed to. *)
Definition pendingProposal_pointed (pp : pendingProposal proposal)
  : pendingProposal (option proposal) :=
  mkPendingProposal (pp_ref pp) (Some (pp_proposal pp)) (pp_sender pp).

Definition Group_pointed (G : Group groupContext ratchetTree proposal)
  : Group groupContext ratchetTree (option proposal) := {|
  g_groupContext := g_groupContext G;
  g_tree := g_tree G;
  g_interimTranscriptHash := g_interimTranscriptHash G;
  g_pskSecret := g_pskSecret G;
  g_epochSecret := g_epochSecret G;
  g_initSecret := g_initSecret G;
  g_myLeafIndex := g_myLeafIndex G;
  g_privTree := g_privTree G;
  g_signaturePriv := g_signaturePriv G;
  g_pendingProposals := map pendingProposal_pointed (g_pendingProposals G)
|}.

(** A computation that leaves the memory as it found it. *)
Definition reads {A : Type} (m : St A) : Prop :=
  forall h, snd (m h) = h.

End Memory.

Arguments Group_mem : clear implicits.
Arguments groupState_mem : clear implicits.
Arguments Heap : clear implicits.

(** ** The sample group in memory *)

Module SampleMemory.

Import Sample.

(** The codecs of the sample hold their bytes in the value itself. *)
Definition context_marshal_at (c : context) (b : Builder)
  : St (groupContext := context) (ratchetTree := tree) (proposal := proposal)
       Builder :=
  ret (context_marshal c b).

Definition tree_marshal_at (t : tree) (b : Builder)
  : St (groupContext := context) (ratchetTree := tree) (proposal := proposal)
       Builder :=
  ret (tree_marshal t b).

(** A proposal is marshaled through its pointer; a pointer to nothing
    writes nothing. *)
Definition proposal_marshal_at (p : addr) (b : Builder)
  : St (groupContext := context) (ratchetTree := tree) (proposal := proposal)
       Builder :=
  fun h =>
    match nth_error (proposal_objects h) p with
    | Some x => (proposal_marshal x b, h)
    | None => (b, h)
    end.

(** [group1] laid out in memory: the pre-shared key is a [nil] slice, the
    third key of the column is empty and not [nil]. *)
Definition heap1 : Heap context tree proposal := {|
  group_objects :=
    [ {| gm_groupContext := mkContext (list_byte_of_string "two-member") 1 [xaa];
         gm_tree := [Some [x0a]; None; Some [x0b]];
         gm_interimTranscriptHash := slice_at 0%nat;
         gm_pskSecret := slice_nil;
         gm_epochSecret := slice_at 1%nat;
         gm_initSecret := slice_at 2%nat;
         gm_myLeafIndex := 1;
         gm_privTree := slice_at 0%nat;
         gm_signaturePriv := slice_at 5%nat;
         gm_pendingProposals := slice_at 0%nat |} ];
  byte_arrays := [ [x11; x12]; [x21]; [x31]; [x41]; []; [x51]; [x61]; [x62] ];
  key_arrays := [ [slice_nil; slice_at 3%nat; slice_at 4%nat] ];
  proposal_arrays :=
    [ [ mkPendingProposal_mem (slice_at 6%nat) 0%nat 0;
        mkPendingProposal_mem (slice_at 7%nat) 1%nat 1 ] ];
  proposal_objects := [ Add [x71; x72]; Remove 1 ]
|}.

(** The value of the group at address 0 of [heap1]: [group1], with each
    proposal as the target of its pointer. *)
Definition group1_value : Group context tree (option proposal) := {|
  g_groupContext := mkContext (list_byte_of_string "two-member") 1 [xaa];
  g_tree := [Some [x0a]; None; Some [x0b]];
  g_interimTranscriptHash := [x11; x12];
  g_pskSecret := [];
  g_epochSecret := [x21];
  g_initSecret := [x31];
  g_myLeafIndex := 1;
  g_privTree := [None; Some [x41]; Some []];
  g_signaturePriv := [x51];
  g_pendingProposals :=
    [ mkPendingProposal [x61] (Some (Add [x71; x72])) 0;
      mkPendingProposal [x62] (Some (Remove 1)) 1 ]
|}.

(** No method of the package: a [marshal] of proposals that empties the
    byte arrays it can reach, the kind of callee that the frame property
    of [Marshal] has to exclude. *)
Definition wiping_marshal_at (p : addr) (b : Builder)
  : St (groupContext := context) (ratchetTree := tree) (proposal := proposal)
       Builder :=
  fun h =>
    (b, {| group_objects := group_objects h;
           byte_arrays := map (fun _ => []) (byte_arrays h);
           key_arrays := key_arrays h;
           proposal_arrays := proposal_arrays h;
           proposal_objects := proposal_objects h |}).

End SampleMemory.

(** * Properties *)

Unset Implicit Arguments.

(** ** Bytes and the length prefix *)

Lemma byte_to_Z_range (b : byte) : 0 <= byte_to_Z b < 256.
Proof.
  unfold byte_to_Z. pose proof (Byte.to_N_bounded b). lia.
Qed.

Lemma byte_to_Z_to_byte (b : byte) : Z_to_byte (byte_to_Z b) = b.
Proof.
  unfold Z_to_byte. pose proof (byte_to_Z_range b) as Hr.
  rewrite Z.mod_small by lia. unfold byte_to_Z.
  rewrite N2Z.id, Byte.of_to_N. reflexivity.
Qed.

Lemma Z_to_byte_to_Z (z : Z) : byte_to_Z (Z_to_byte z) = z mod 256.
Proof.
  unfold Z_to_byte, byte_to_Z.
  assert (Hm : 0 <= z mod 256 < 256) by (apply Z.mod_pos_bound; lia).
  destruct (Byte.of_N (Z.to_N (z mod 256))) as [b|] eqn:E.
  - apply Byte.to_of_N in E. rewrite E. rewrite Z2N.id; lia.
  - apply Byte.of_N_None_iff in E. lia.
Qed.

Lemma Z_to_byte_small (z : Z) : 0 <= z < 256 -> byte_to_Z (Z_to_byte z) = z.
Proof. intros H. rewrite Z_to_byte_to_Z. apply Z.mod_small; exact H. Qed.

Lemma byte_to_Z_inj (a b : byte) : byte_to_Z a = byte_to_Z b -> a = b.
Proof.
  intros H. rewrite <- (byte_to_Z_to_byte a), <- (byte_to_Z_to_byte b).
  now rewrite H.
Qed.

(** Joining a high part and a low part with [|] is an addition when the low
    part fits under the high one. *)
Lemma lor_high_low (c k n : Z) :
  0 <= k -> 0 <= n < 2 ^ k -> Z.lor (c * 2 ^ k) n = c * 2 ^ k + n.
Proof.
  intros Hk Hn.
  assert (Hl : Z.land (c * 2 ^ k) n = 0).
  { apply Z.bits_inj'. intros i Hi.
    rewrite Z.land_spec, Z.bits_0.
    destruct (Z.lt_ge_cases i k) as [Hlt | Hge].
    - rewrite Z.mul_pow2_bits_low by lia. reflexivity.
    - rewrite <- (Z.mod_small n (2 ^ k)) by lia.
      rewrite Z.mod_pow2_bits_high by lia. apply andb_false_r. }
  pose proof (Z.add_lor_land (c * 2 ^ k) n) as H.
  rewrite Hl in H. lia.
Qed.

Lemma add_new (bs : bytes) : add newBuilder bs = mkBuilder None bs.
Proof. reflexivity. Qed.

Lemma Z_to_byte_mod (z : Z) : Z_to_byte (z mod 256) = Z_to_byte z.
Proof.
  apply byte_to_Z_inj. rewrite !Z_to_byte_to_Z. apply Z.mod_mod. lia.
Qed.

Lemma Z_to_byte_eq (x y : Z) : x mod 256 = y mod 256 -> Z_to_byte x = Z_to_byte y.
Proof.
  intros H. apply byte_to_Z_inj. now rewrite !Z_to_byte_to_Z.
Qed.

Lemma writeVarint_add (b : Builder) (n : Z) :
  0 <= n < 2 ^ 30 -> err b = None ->
  writeVarint b n = add b (varint_bytes n).
Proof.
  intros Hn Hb. unfold writeVarint, varint_bytes.
  change (Z.shiftl 1 6) with 64. change (Z.shiftl 1 14) with 16384.
  change (Z.shiftl 1 30) with (2 ^ 30). change (Z.shiftl 2 30) with (2 * 2 ^ 30).
  destruct (n <? 64) eqn:E1; [apply Z.ltb_lt in E1 | apply Z.ltb_ge in E1].
  - unfold AddUint8, uint8. f_equal. f_equal. apply Z_to_byte_eq.
    change (2 ^ 8) with 256. apply Z.mod_mod. lia.
  - destruct (n <? 16384) eqn:E2; [apply Z.ltb_lt in E2 | apply Z.ltb_ge in E2].
    + unfold AddUint16, uint16. rewrite (Z.mod_small n) by lia.
      change 16384 with (1 * 2 ^ 14). rewrite lor_high_low by lia.
      rewrite Z.shiftr_div_pow2 by lia. f_equal. f_equal; [|f_equal].
      * apply Z_to_byte_eq. change (2 ^ 8) with 256.
        change (2 ^ 14) with 16384. Z.div_mod_to_equations. lia.
      * apply Z_to_byte_eq. change (2 ^ 14) with 16384.
        Z.div_mod_to_equations. lia.
    + destruct (n <? 2 ^ 30) eqn:E3; [|apply Z.ltb_ge in E3; lia].
      unfold AddUint32. rewrite lor_high_low by lia.
      rewrite !Z.shiftr_div_pow2 by lia. f_equal.
      change (2 ^ 30) with 1073741824. change (2 ^ 24) with 16777216.
      change (2 ^ 16) with 65536. change (2 ^ 8) with 256.
      repeat (apply (f_equal2 (@cons byte));
              [apply Z_to_byte_eq; Z.div_mod_to_equations; lia|]).
      reflexivity.
Qed.

Lemma shiftr_6 (x : Z) : Z.shiftr x 6 = x / 64.
Proof. rewrite Z.shiftr_div_pow2 by lia. reflexivity. Qed.

Lemma land_63 (x : Z) : Z.land x 63 = x mod 64.
Proof. change 63 with (Z.ones 6). rewrite Z.land_ones by lia. reflexivity. Qed.

Lemma shiftl_8 (x : Z) : Z.shiftl x 8 = x * 256.
Proof. rewrite Z.shiftl_mul_pow2 by lia. reflexivity. Qed.

Lemma readVarint_1 (b0 : byte) (s : bytes) :
  byte_to_Z b0 / 64 = 0 ->
  readVarint (b0 :: s) = Some (byte_to_Z b0 mod 64, s).
Proof.
  intros H. unfold readVarint, ReadUint8. rewrite shiftr_6, H, land_63.
  reflexivity.
Qed.

Lemma readVarint_2 (b0 b1 : byte) (s : bytes) :
  byte_to_Z b0 / 64 = 1 ->
  readVarint (b0 :: b1 :: s) =
  let v := uint32 (byte_to_Z b0 mod 64 * 256 + byte_to_Z b1) in
  if v <? 64 then None else Some (v, s).
Proof.
  intros H. unfold readVarint, ReadUint8. rewrite shiftr_6, H, land_63.
  change (Z.to_nat (Z.shiftl 1 1 - 1)) with 1%nat.
  change (8 * (Z.shiftl 1 1 / 2) - 2) with 6.
  cbn [readVarint_loop ReadUint8]. rewrite shiftl_8.
  change (1 =? 3) with false. change (1 <=? 1) with true.
  change (Z.shiftl 1 6) with 64. cbv zeta. cbn [andb]. reflexivity.
Qed.

Lemma readVarint_4 (b0 b1 b2 b3 : byte) (s : bytes) :
  byte_to_Z b0 / 64 = 2 ->
  readVarint (b0 :: b1 :: b2 :: b3 :: s) =
  let v1 := uint32 (byte_to_Z b0 mod 64 * 256 + byte_to_Z b1) in
  let v2 := uint32 (v1 * 256 + byte_to_Z b2) in
  let v := uint32 (v2 * 256 + byte_to_Z b3) in
  if v <? 16384 then None else Some (v, s).
Proof.
  intros H. unfold readVarint, ReadUint8. rewrite shiftr_6, H, land_63.
  change (Z.to_nat (Z.shiftl 1 2 - 1)) with 3%nat.
  change (8 * (Z.shiftl 1 2 / 2) - 2) with 14.
  cbn [readVarint_loop ReadUint8]. rewrite !shiftl_8.
  change (2 =? 3) with false. change (1 <=? 2) with true.
  change (Z.shiftl 1 14) with 16384. cbv zeta. cbn [andb]. reflexivity.
Qed.

Lemma readVarint_bad_tag (b0 : byte) (s : bytes) :
  byte_to_Z b0 / 64 = 3 -> readVarint (b0 :: s) = None.
Proof.
  intros H. unfold readVarint, ReadUint8. rewrite shiftr_6, H. reflexivity.
Qed.

Lemma readVarint_bytes (n : Z) (rest : bytes) :
  0 <= n < 2 ^ 30 -> readVarint (varint_bytes n ++ rest) = Some (n, rest).
Proof.
  intros Hn. change (2 ^ 30) with 1073741824 in Hn. unfold varint_bytes.
  destruct (n <? 64) eqn:E1; [apply Z.ltb_lt in E1 | apply Z.ltb_ge in E1].
  { cbn [app]. rewrite readVarint_1; rewrite Z_to_byte_to_Z.
    - f_equal. f_equal. Z.div_mod_to_equations; lia.
    - Z.div_mod_to_equations; lia. }
  destruct (n <? 16384) eqn:E2; [apply Z.ltb_lt in E2 | apply Z.ltb_ge in E2].
  { cbn [app]. rewrite readVarint_2; rewrite !Z_to_byte_to_Z.
    - unfold uint32. change (2 ^ 32) with 4294967296. cbv zeta.
      replace (((64 + n / 256) mod 256 mod 64 * 256 + n mod 256) mod 4294967296)
        with n by (Z.div_mod_to_equations; lia).
      destruct (n <? 64) eqn:E3; [apply Z.ltb_lt in E3; lia|]. reflexivity.
    - Z.div_mod_to_equations; lia. }
  cbn [app]. rewrite readVarint_4; rewrite !Z_to_byte_to_Z.
  - unfold uint32. change (2 ^ 32) with 4294967296. cbv zeta.
    set (v1 := ((128 + n / 16777216) mod 256 mod 64 * 256 + (n / 65536) mod 256) mod 4294967296).
    set (v2 := (v1 * 256 + (n / 256) mod 256) mod 4294967296).
    replace ((v2 * 256 + n mod 256) mod 4294967296) with n
      by (subst v2 v1; Z.div_mod_to_equations; lia).
    destruct (n <? 16384) eqn:E3; [apply Z.ltb_lt in E3; lia|]. reflexivity.
  - Z.div_mod_to_equations; lia.
Qed.

Lemma byte_is_Z_to_byte (b : byte) (z : Z) :
  z mod 256 = byte_to_Z b -> b = Z_to_byte z.
Proof.
  intros H. apply byte_to_Z_inj. rewrite Z_to_byte_to_Z. symmetry. exact H.
Qed.

Lemma readVarint_nil : readVarint [] = None.
Proof. reflexivity. Qed.

Lemma byte_tag_cases (b0 : byte) :
  byte_to_Z b0 / 64 = 0 \/ byte_to_Z b0 / 64 = 1 \/
  byte_to_Z b0 / 64 = 2 \/ byte_to_Z b0 / 64 = 3.
Proof.
  pose proof (byte_to_Z_range b0). Z.div_mod_to_equations. lia.
Qed.

(** The reader accepts only what the writer produces. *)
Lemma readVarint_canon (s : bytes) (n : Z) (rest : bytes) :
  readVarint s = Some (n, rest) ->
  0 <= n < 2 ^ 30 /\ s = varint_bytes n ++ rest.
Proof.
  change (2 ^ 30) with 1073741824.
  destruct s as [|b0 s]; [discriminate|].
  pose proof (byte_to_Z_range b0) as R0.
  destruct (byte_tag_cases b0) as [T | [T | [T | T]]].
  - rewrite readVarint_1 by exact T. intros [= <- <-].
    split; [Z.div_mod_to_equations; lia|].
    unfold varint_bytes.
    destruct (byte_to_Z b0 mod 64 <? 64) eqn:E;
      [|apply Z.ltb_ge in E; Z.div_mod_to_equations; lia].
    cbn [app]. f_equal. apply byte_is_Z_to_byte.
    Z.div_mod_to_equations; lia.
  - destruct s as [|b1 s].
    { unfold readVarint, ReadUint8. rewrite shiftr_6, T. discriminate. }
    pose proof (byte_to_Z_range b1) as R1.
    rewrite readVarint_2 by exact T. unfold uint32. cbv zeta.
    change (2 ^ 32) with 4294967296.
    set (v := (byte_to_Z b0 mod 64 * 256 + byte_to_Z b1) mod 4294967296).
    assert (Hv : v = byte_to_Z b0 mod 64 * 256 + byte_to_Z b1)
      by (subst v; Z.div_mod_to_equations; lia).
    destruct (v <? 64) eqn:E; [discriminate|]. apply Z.ltb_ge in E.
    intros [= <- <-]. split; [Z.div_mod_to_equations; lia|].
    unfold varint_bytes.
    destruct (v <? 64) eqn:E1; [apply Z.ltb_lt in E1; lia|].
    destruct (v <? 16384) eqn:E2;
      [|apply Z.ltb_ge in E2; Z.div_mod_to_equations; lia].
    cbn [app]. f_equal; [|f_equal].
    + apply byte_is_Z_to_byte. Z.div_mod_to_equations; lia.
    + apply byte_is_Z_to_byte. Z.div_mod_to_equations; lia.
  - destruct s as [|b1 [|b2 [|b3 s]]];
      try (unfold readVarint, ReadUint8; rewrite shiftr_6, T; discriminate).
    pose proof (byte_to_Z_range b1) as R1.
    pose proof (byte_to_Z_range b2) as R2.
    pose proof (byte_to_Z_range b3) as R3.
    rewrite readVarint_4 by exact T. unfold uint32. cbv zeta.
    change (2 ^ 32) with 4294967296.
    set (v1 := (byte_to_Z b0 mod 64 * 256 + byte_to_Z b1) mod 4294967296).
    assert (Hv1 : v1 = byte_to_Z b0 mod 64 * 256 + byte_to_Z b1)
      by (subst v1; Z.div_mod_to_equations; lia).
    set (v2 := (v1 * 256 + byte_to_Z b2) mod 4294967296).
    assert (Hv2 : v2 = v1 * 256 + byte_to_Z b2)
      by (subst v2; Z.div_mod_to_equations; lia).
    set (v := (v2 * 256 + byte_to_Z b3) mod 4294967296).
    assert (Hv : v = v2 * 256 + byte_to_Z b3)
      by (subst v; Z.div_mod_to_equations; lia).
    clearbody v v2 v1.
    destruct (v <? 16384) eqn:E; [discriminate|]. apply Z.ltb_ge in E.
    intros [= <- <-]. split; [Z.div_mod_to_equations; lia|].
    unfold varint_bytes.
    destruct (v <? 64) eqn:E1; [apply Z.ltb_lt in E1; lia|].
    destruct (v <? 16384) eqn:E2; [apply Z.ltb_lt in E2; lia|].
    cbn [app].
    repeat (apply (f_equal2 (@cons byte));
            [apply byte_is_Z_to_byte; Z.div_mod_to_equations; lia|]).
    reflexivity.
  - rewrite readVarint_bad_tag by exact T. discriminate.
Qed.

Lemma varint_bytes_nonempty (n : Z) : varint_bytes n <> [].
Proof.
  unfold varint_bytes. destruct (n <? 64); [discriminate|].
  destruct (n <? 16384); discriminate.
Qed.

(** ** Writers *)

Lemma err_add (b : Builder) (bs : bytes) : err (add b bs) = err b.
Proof. unfold add. destruct (err b) eqn:E; [exact E | reflexivity]. Qed.

Lemma add_add (b : Builder) (x y : bytes) :
  add (add b x) y = add b (x ++ y).
Proof.
  unfold add. destruct (err b) eqn:E.
  - rewrite E. reflexivity.
  - cbn. rewrite <- app_assoc. reflexivity.
Qed.

Lemma add_nil (b : Builder) : add b [] = b.
Proof.
  unfold add. destruct b as [[e|] r]; cbn; [reflexivity|].
  rewrite app_nil_r. reflexivity.
Qed.

Lemma emits_output (w : Builder -> Builder) (o : option bytes) :
  emits w o -> output w = o.
Proof.
  intros [_ H]. unfold output, Bytes. destruct o as [bs|].
  - rewrite (H newBuilder eq_refl). reflexivity.
  - specialize (H newBuilder). destruct (err (w newBuilder)); congruence.
Qed.

Lemma emits_appends (w : Builder -> Builder) (o : option bytes) :
  emits w o -> appends w.
Proof.
  intros H. unfold appends. rewrite (emits_output w o H). exact H.
Qed.

Lemma emits_add (bs : bytes) : emits (fun b => add b bs) (Some bs).
Proof.
  split.
  - intros b Hb. rewrite err_add. exact Hb.
  - intros b _. reflexivity.
Qed.

Lemma emits_id : emits (fun b => b) (Some []).
Proof.
  split.
  - intros b Hb. exact Hb.
  - intros b _. symmetry. apply add_nil.
Qed.

Lemma emits_SetError (e : error) : emits (fun b => SetError b e) None.
Proof.
  split; intros b; cbn; congruence.
Qed.

Lemma emits_seq (w1 w2 : Builder -> Builder) (o1 o2 : option bytes) :
  emits w1 o1 -> emits w2 o2 -> emits (fun b => w2 (w1 b)) (oapp o1 o2).
Proof.
  intros [K1 H1] [K2 H2]. split.
  - intros b Hb. apply K2, K1, Hb.
  - destruct o1 as [a|]; cbn.
    + destruct o2 as [c|].
      * intros b0 Hb. rewrite (H1 b0 Hb), H2 by (rewrite err_add; exact Hb).
        apply add_add.
      * intros b0. apply H2.
    + intros b0. apply K2, H1.
Qed.

Lemma emits_ext (w w' : Builder -> Builder) (o : option bytes) :
  (forall b, w b = w' b) -> emits w o -> emits w' o.
Proof.
  intros E [K H]. split.
  - intros b Hb. rewrite <- E. apply K, Hb.
  - destruct o as [bs|]; intros b; [intros Hb|]; rewrite <- E; auto.
Qed.

Lemma emits_varint (n : Z) :
  0 <= n -> emits (fun b => writeVarint b n)
              (if n <? 2 ^ 30 then Some (varint_bytes n) else None).
Proof.
  intros Hn. destruct (n <? 2 ^ 30) eqn:E;
    [apply Z.ltb_lt in E | apply Z.ltb_ge in E].
  - split.
    + intros b Hb. unfold writeVarint.
      destruct (n <? Z.shiftl 1 6); [unfold AddUint8; now rewrite err_add|].
      destruct (n <? Z.shiftl 1 14); [unfold AddUint16; now rewrite err_add|].
      destruct (n <? Z.shiftl 1 30); [unfold AddUint32; now rewrite err_add|].
      cbn. congruence.
    + intros b Hb. apply writeVarint_add; [lia | exact Hb].
  - change (2 ^ 30) with 1073741824 in E.
    assert (W : forall b, writeVarint b n = SetError b ErrVarintOverflow).
    { intros b. unfold writeVarint.
      change (Z.shiftl 1 6) with 64. change (Z.shiftl 1 14) with 16384.
      change (Z.shiftl 1 30) with 1073741824.
      destruct (n <? 64) eqn:E1; [apply Z.ltb_lt in E1; lia|].
      destruct (n <? 16384) eqn:E2; [apply Z.ltb_lt in E2; lia|].
      destruct (n <? 1073741824) eqn:E3; [apply Z.ltb_lt in E3; lia|].
      reflexivity. }
    split; intros b; rewrite W; cbn; congruence.
Qed.

Lemma emits_opaque (v : bytes) :
  emits (fun b => writeOpaqueVec b v) (opaque_enc v).
Proof.
  unfold writeOpaqueVec, opaque_enc, opaque_bytes.
  set (n := Z.of_nat (length v)). assert (Hn : 0 <= n) by (subst n; lia).
  change (2 ^ 32) with 4294967296. change (2 ^ 30) with 1073741824.
  destruct (4294967296 <=? n) eqn:E;
    [apply Z.leb_le in E | apply Z.leb_gt in E].
  - destruct (n <? 1073741824) eqn:E1; [apply Z.ltb_lt in E1; lia|].
    apply emits_SetError.
  - assert (U : uint32 n = n)
      by (unfold uint32; change (2 ^ 32) with 4294967296;
          apply Z.mod_small; lia).
    rewrite U.
    pose proof (emits_seq _ _ _ _ (emits_varint n Hn) (emits_add v)) as H.
    change (2 ^ 30) with 1073741824 in H.
    destruct (n <? 1073741824); exact H.
Qed.

Lemma emits_AddUint32 (v : Z) :
  emits (fun b => AddUint32 b v) (Some (uint32_bytes v)).
Proof.
  unfold AddUint32, uint32_bytes. rewrite !Z.shiftr_div_pow2 by lia.
  apply emits_add.
Qed.

Lemma emits_optional (present : bool) :
  emits (fun b => writeOptional b present)
        (Some [if present then x01 else x00]).
Proof.
  unfold writeOptional, AddUint8.
  replace (Z_to_byte (if present then 1 else 0))
    with (if present then x01 else x00) by (destruct present; reflexivity).
  apply emits_add.
Qed.

Lemma emits_fold (f : Builder -> nat -> Builder) (g : nat -> option bytes)
    (l : list nat) :
  (forall i, In i l -> emits (fun b => f b i) (g i)) ->
  emits (fun b => fold_left f l b) (oconcat (map g l)).
Proof.
  induction l as [|i l IH]; intros H; cbn [fold_left map oconcat fold_right].
  - apply emits_id.
  - apply (emits_seq (fun b => f b i) (fun b => fold_left f l b)).
    + apply H. left. reflexivity.
    + apply IH. intros j Hj. apply H. right. exact Hj.
Qed.

Lemma emits_vector (n : nat) (f : Builder -> nat -> Builder)
    (g : nat -> option bytes) :
  (forall i, (i < n)%nat -> emits (fun b => f b i) (g i)) ->
  emits (fun b => writeVector b n f) (vector_enc (map g (seq 0 n))).
Proof.
  intros H. unfold writeVector, vector_enc.
  assert (F : emits (fun b => fold_left f (seq 0 n) b)
                (oconcat (map g (seq 0 n)))).
  { apply emits_fold. intros i Hi. apply H. apply in_seq in Hi. lia. }
  pose proof (emits_output _ _ F) as O. unfold output in O.
  destruct (Bytes (fold_left f (seq 0 n) newBuilder)) as [e|raw];
    rewrite <- O.
  - apply emits_SetError.
  - apply emits_opaque.
Qed.

Lemma map_nth_error_seq {A B : Type} (h : option A -> B) (l : list A) :
  map (fun i => h (nth_error l i)) (seq 0 (length l)) =
  map (fun x => h (Some x)) l.
Proof.
  induction l as [|x l IH]; [reflexivity|].
  cbn [length seq map nth_error]. f_equal.
  rewrite <- seq_shift, map_map. exact IH.
Qed.

Lemma marshal_output {T : Type} {M : marshaler T} (x : T) (bs : bytes) :
  marshal x = inr bs <-> output (marshal_of x) = Some bs.
Proof.
  unfold marshal, output. destruct (Bytes (marshal_of x newBuilder)).
  - split; discriminate.
  - split; intros [= ->]; reflexivity.
Qed.

Lemma oapp_Some (x y : option bytes) (bs : bytes) :
  oapp x y = Some bs ->
  exists a c, x = Some a /\ y = Some c /\ bs = a ++ c.
Proof.
  destruct x as [a|], y as [c|]; cbn; try discriminate.
  intros [= <-]. eauto.
Qed.

(** ** Readers *)

Lemma read_app (v rest : bytes) : read (length v) (v ++ rest) = Some (v, rest).
Proof.
  unfold read. rewrite length_app.
  destruct (length v + length rest <? length v)%nat eqn:E;
    [apply Nat.ltb_lt in E; lia|].
  rewrite firstn_app, Nat.sub_diag, firstn_all, firstn_O, app_nil_r.
  rewrite skipn_app, Nat.sub_diag, skipn_all. reflexivity.
Qed.

Lemma read_canon (n : nat) (s v rest : bytes) :
  read n s = Some (v, rest) -> s = v ++ rest /\ length v = n.
Proof.
  unfold read. destruct (length s <? n)%nat eqn:E; [discriminate|].
  apply Nat.ltb_ge in E. intros [= <- <-]. split.
  - symmetry. apply firstn_skipn.
  - apply firstn_length_le. exact E.
Qed.

Lemma readOpaqueVec_bytes (v rest : bytes) :
  fits v -> readOpaqueVec (opaque_bytes v ++ rest) = Some (v, rest).
Proof.
  intros Hv. unfold readOpaqueVec, opaque_bytes. rewrite <- app_assoc.
  rewrite readVarint_bytes by (unfold fits in Hv; lia).
  unfold CopyBytes. rewrite Nat2Z.id. apply read_app.
Qed.

Lemma readOpaqueVec_canon (s v rest : bytes) :
  readOpaqueVec s = Some (v, rest) -> fits v /\ s = opaque_bytes v ++ rest.
Proof.
  unfold readOpaqueVec. destruct (readVarint s) as [[n s1]|] eqn:E;
    [|discriminate].
  apply readVarint_canon in E. destruct E as [Hn ->].
  unfold CopyBytes. intros H. apply read_canon in H. destruct H as [-> Hl].
  assert (Hv : Z.of_nat (length v) = n) by lia.
  unfold fits, opaque_bytes. rewrite Hv, <- app_assoc. split; [lia|reflexivity].
Qed.

Lemma opaque_enc_Some (v bs : bytes) :
  opaque_enc v = Some bs <-> fits v /\ bs = opaque_bytes v.
Proof.
  unfold opaque_enc, fits.
  destruct (Z.of_nat (length v) <? 2 ^ 30) eqn:E;
    [apply Z.ltb_lt in E | apply Z.ltb_ge in E].
  - split; [intros [= <-]; auto | intros [_ ->]; reflexivity].
  - split; [discriminate | intros [H _]; lia].
Qed.

Lemma opaque_bytes_nonempty (v : bytes) : opaque_bytes v <> [].
Proof.
  unfold opaque_bytes. pose proof (varint_bytes_nonempty (Z.of_nat (length v))).
  destruct (varint_bytes (Z.of_nat (length v))); [congruence | discriminate].
Qed.

(** The four bytes read as a big-endian number. *)
Lemma be32_value (b0 b1 b2 b3 : Z) :
  0 <= b0 < 256 -> 0 <= b1 < 256 -> 0 <= b2 < 256 -> 0 <= b3 < 256 ->
  Z.lor (Z.lor (Z.lor (Z.shiftl b0 24) (Z.shiftl b1 16)) (Z.shiftl b2 8)) b3
  = ((b0 * 256 + b1) * 256 + b2) * 256 + b3.
Proof.
  intros H0 H1 H2 H3. rewrite !Z.shiftl_mul_pow2 by lia.
  rewrite (lor_high_low b0 24 (b1 * 2 ^ 16)) by lia.
  replace (b0 * 2 ^ 24 + b1 * 2 ^ 16) with ((b0 * 256 + b1) * 2 ^ 16) by lia.
  rewrite (lor_high_low (b0 * 256 + b1) 16 (b2 * 2 ^ 8)) by lia.
  replace ((b0 * 256 + b1) * 2 ^ 16 + b2 * 2 ^ 8)
    with (((b0 * 256 + b1) * 256 + b2) * 2 ^ 8) by lia.
  rewrite (lor_high_low _ 8 b3) by lia. lia.
Qed.

Lemma ReadUint32_bytes (v : Z) (rest : bytes) :
  is_uint32 v -> ReadUint32 (uint32_bytes v ++ rest) = Some (v, rest).
Proof.
  unfold is_uint32. change (2 ^ 32) with 4294967296. intros Hv.
  unfold uint32_bytes, ReadUint32. cbn [app].
  rewrite be32_value by (rewrite Z_to_byte_to_Z; apply Z.mod_pos_bound; lia).
  rewrite !Z_to_byte_to_Z. f_equal. f_equal.
  Z.div_mod_to_equations. lia.
Qed.

Lemma ReadUint32_canon (s : bytes) (v : Z) (rest : bytes) :
  ReadUint32 s = Some (v, rest) -> is_uint32 v /\ s = uint32_bytes v ++ rest.
Proof.
  unfold ReadUint32. destruct s as [|b0 [|b1 [|b2 [|b3 s]]]]; try discriminate.
  pose proof (byte_to_Z_range b0). pose proof (byte_to_Z_range b1).
  pose proof (byte_to_Z_range b2). pose proof (byte_to_Z_range b3).
  rewrite be32_value by assumption. intros [= <- <-].
  unfold is_uint32. change (2 ^ 32) with 4294967296. split; [lia|].
  unfold uint32_bytes. cbn [app].
  repeat (apply (f_equal2 (@cons byte));
          [apply byte_is_Z_to_byte; Z.div_mod_to_equations; lia|]).
  reflexivity.
Qed.

Lemma uint32_range (z : Z) : is_uint32 (uint32 z).
Proof. unfold is_uint32, uint32. apply Z.mod_pos_bound. lia. Qed.

Lemma uint32_id (z : Z) : is_uint32 z -> uint32 z = z.
Proof. unfold is_uint32, uint32. intros H. apply Z.mod_small. exact H. Qed.

Lemma uint32_idem (z : Z) : uint32 (uint32 z) = uint32 z.
Proof. apply uint32_id, uint32_range. Qed.

(** *** One entry of the private-key column *)

Lemma privKey_enc_dec (key : hpkePrivateKey) (bs rest : bytes) :
  privKey_enc key = Some bs -> privKey_dec (bs ++ rest) = Done (key, rest).
Proof.
  destruct key as [k|]; cbn [privKey_enc].
  - intros H. apply oapp_Some in H. destruct H as (a & c & [= <-] & Hc & ->).
    apply opaque_enc_Some in Hc. destruct Hc as [Hk ->].
    unfold privKey_dec. cbn. rewrite readOpaqueVec_bytes by exact Hk.
    reflexivity.
  - intros [= <-]. reflexivity.
Qed.

Lemma privKey_dec_canon (s : bytes) (key : hpkePrivateKey) (rest : bytes) :
  privKey_dec s = Done (key, rest) ->
  exists bs, privKey_enc key = Some bs /\ s = bs ++ rest.
Proof.
  unfold privKey_dec, readOptional, ReadUint8. destruct s as [|b0 s];
    [discriminate|].
  destruct (byte_to_Z b0 =? 0) eqn:E0; cbn [orEOF bindO fst snd].
  - apply Z.eqb_eq in E0. intros [= <- <-]. exists [x00]. split; [reflexivity|].
    cbn. f_equal. apply byte_to_Z_inj. rewrite E0. reflexivity.
  - destruct (byte_to_Z b0 =? 1) eqn:E1; cbn [orEOF bindO fst snd];
      [|discriminate].
    apply Z.eqb_eq in E1.
    destruct (readOpaqueVec s) as [[k s']|] eqn:Ek; cbn [orEOF bindO fst snd];
      [|discriminate].
    intros [= <- <-]. apply readOpaqueVec_canon in Ek. destruct Ek as [Hk ->].
    exists (x01 :: opaque_bytes k). split.
    + cbn [privKey_enc].
      rewrite (proj2 (opaque_enc_Some k _) (conj Hk eq_refl)). reflexivity.
    + cbn. f_equal. apply byte_to_Z_inj. rewrite E1. reflexivity.
Qed.

Lemma privKey_enc_nonempty (key : hpkePrivateKey) (bs : bytes) :
  privKey_enc key = Some bs -> bs <> [].
Proof.
  destruct key as [k|]; cbn [privKey_enc].
  - intros H. apply oapp_Some in H. destruct H as (a & c & [= <-] & _ & ->).
    discriminate.
  - intros [= <-]. discriminate.
Qed.

Lemma privKey_dec_total (s : bytes) : privKey_dec s <> OutOfFuel.
Proof.
  unfold privKey_dec. destruct (readOptional s) as [[[|] s1]|];
    cbn [orEOF bindO fst snd]; try discriminate.
  destruct (readOpaqueVec s1) as [[k s2]|]; cbn; discriminate.
Qed.

(** ** Vectors *)

Lemma oconcat_cons (o : option bytes) (l : list (option bytes)) :
  oconcat (o :: l) = oapp o (oconcat l).
Proof. reflexivity. Qed.

Lemma readVector_loop_ext {St : Type} (f g : St -> String -> outcome (St * String)) :
  (forall st s, f st s = g st s) ->
  forall fuel st vec, readVector_loop fuel f st vec = readVector_loop fuel g st vec.
Proof.
  intros E fuel. induction fuel as [|fuel IH]; intros st vec; cbn.
  - reflexivity.
  - destruct (Empty vec); [reflexivity|]. rewrite E.
    destruct (g st vec) as [[st' vec']| |]; cbn; [apply IH | reflexivity..].
Qed.

Lemma readVector_ext {St : Type} (f g : St -> String -> outcome (St * String)) :
  (forall st s, f st s = g st s) ->
  forall st s, readVector f st s = readVector g st s.
Proof.
  intros E st s. unfold readVector.
  destruct (orEOF (readVarint s)) as [[n s1]| |]; cbn [bindO]; try reflexivity.
  destruct (orEOF (ReadBytes (Z.to_nat (fst (n, s1))) (snd (n, s1))))
    as [[vec s2]| |]; cbn [bindO]; try reflexivity.
  rewrite (readVector_loop_ext f g E). reflexivity.
Qed.

Section Elements.

Variable T : Type.
Variable enc : T -> option bytes.
Variable dec : String -> outcome (T * String).

(** Writing the elements one after the other and reading them back: each
    element is read as one related by [R], in the same order. *)
Lemma readVector_loop_roundtrip (R : T -> T -> Prop) (xs : list T) :
  (forall x bs, In x xs -> enc x = Some bs ->
     bs <> [] /\ forall rest, exists x', dec (bs ++ rest) = Done (x', rest) /\ R x x') ->
  forall raw, oconcat (map enc xs) = Some raw ->
  forall fuel acc, (length raw <= fuel)%nat ->
  exists xs', readVector_loop fuel (push dec) acc raw = Done (acc ++ xs') /\
              Forall2 R xs xs'.
Proof.
  induction xs as [|x xs IH]; intros H raw Hraw fuel acc Hfuel.
  - cbn in Hraw. injection Hraw as <-. exists []. split; [|constructor].
    rewrite app_nil_r. destruct fuel; reflexivity.
  - cbn [map] in Hraw. rewrite oconcat_cons in Hraw.
    apply oapp_Some in Hraw. destruct Hraw as (bs & raw' & Hx & Hxs & ->).
    destruct (H x bs (or_introl eq_refl) Hx) as [Hne Hdec].
    destruct (Hdec raw') as (x' & Hd & Hr).
    rewrite length_app in Hfuel.
    destruct bs as [|b0 bs]; [congruence|]. cbn [length] in Hfuel.
    destruct fuel as [|fuel]; [lia|].
    cbn [readVector_loop app Empty]. change (b0 :: bs ++ raw') with ((b0 :: bs) ++ raw').
    unfold push at 1. rewrite Hd. cbn [bindO fst snd].
    destruct (IH (fun y c Hy => H y c (or_intror Hy)) raw' Hxs fuel (acc ++ [x']))
      as (xs' & Hl & HF); [lia|].
    exists (x' :: xs'). split; [|constructor; assumption].
    rewrite Hl, <- app_assoc. reflexivity.
Qed.

(** What the loop accepts is the writing of what it returns. *)
Lemma readVector_loop_canon :
  (forall s x rest, dec s = Done (x, rest) ->
     exists bs, enc x = Some bs /\ s = bs ++ rest) ->
  forall fuel acc vec acc',
    readVector_loop fuel (push dec) acc vec = Done acc' ->
    exists xs, acc' = acc ++ xs /\ oconcat (map enc xs) = Some vec.
Proof.
  intros K fuel. induction fuel as [|fuel IH]; intros acc vec acc' H.
  - cbn in H. destruct vec; cbn in H; [|discriminate].
    injection H as <-. exists []. rewrite app_nil_r. split; reflexivity.
  - cbn [readVector_loop] in H. destruct vec as [|b0 vec]; cbn [Empty] in H.
    + injection H as <-. exists []. rewrite app_nil_r. split; reflexivity.
    + unfold push at 1 in H.
      destruct (dec (b0 :: vec)) as [[x rest]| |] eqn:D; cbn [bindO fst snd] in H;
        try discriminate.
      destruct (K _ _ _ D) as (bs & Hx & Hs).
      destruct (IH _ _ _ H) as (xs & -> & Hxs).
      exists (x :: xs). split.
      * rewrite <- app_assoc. reflexivity.
      * cbn [map]. rewrite oconcat_cons, Hx, Hxs, Hs. reflexivity.
Qed.

(** With a callback that ends and consumes input, the loop is never cut. *)
Lemma readVector_loop_total :
  (forall s, dec s <> OutOfFuel) ->
  (forall s x rest, dec s = Done (x, rest) -> (length rest < length s)%nat) ->
  forall fuel acc vec, (length vec <= fuel)%nat ->
    readVector_loop fuel (push dec) acc vec <> OutOfFuel.
Proof.
  intros Ht Hc fuel. induction fuel as [|fuel IH]; intros acc vec Hf.
  - destruct vec; cbn in *; [discriminate | lia].
  - cbn [readVector_loop]. destruct vec as [|b0 vec]; cbn [Empty];
      [discriminate|].
    unfold push at 1. specialize (Ht (b0 :: vec)).
    destruct (dec (b0 :: vec)) as [[x rest]| |] eqn:D; cbn [bindO fst snd];
      [|discriminate|congruence].
    apply IH. apply Hc in D. cbn [length] in *. lia.
Qed.

Lemma readVector_roundtrip (R : T -> T -> Prop) (xs : list T)
    (data rest : bytes) :
  (forall x bs, In x xs -> enc x = Some bs ->
     bs <> [] /\ forall rest, exists x', dec (bs ++ rest) = Done (x', rest) /\ R x x') ->
  vector_enc (map enc xs) = Some data ->
  exists xs', readVector (push dec) [] (data ++ rest) = Done (xs', rest) /\
              Forall2 R xs xs'.
Proof.
  intros H Hv. unfold vector_enc in Hv.
  destruct (oconcat (map enc xs)) as [raw|] eqn:Hraw; [|discriminate].
  apply opaque_enc_Some in Hv. destruct Hv as [Hfit ->].
  destruct (readVector_loop_roundtrip R xs H raw Hraw (length raw) [])
    as (xs' & Hl & HF); [lia|].
  exists xs'. split; [|exact HF].
  unfold readVector, opaque_bytes. rewrite <- !app_assoc.
  rewrite readVarint_bytes by (unfold fits in Hfit; lia).
  cbn [orEOF bindO fst snd]. unfold ReadBytes. rewrite Nat2Z.id, read_app.
  cbn [orEOF bindO fst snd]. rewrite Hl. reflexivity.
Qed.

Lemma readVector_canon (s : bytes) (xs : list T) (rest : bytes) :
  (forall s x rest, dec s = Done (x, rest) ->
     exists bs, enc x = Some bs /\ s = bs ++ rest) ->
  readVector (push dec) [] s = Done (xs, rest) ->
  exists data, vector_enc (map enc xs) = Some data /\ s = data ++ rest.
Proof.
  intros K. unfold readVector.
  destruct (readVarint s) as [[n s1]|] eqn:E; cbn [orEOF bindO fst snd];
    [|discriminate].
  apply readVarint_canon in E. destruct E as [Hn ->].
  unfold ReadBytes. destruct (read (Z.to_nat n) s1) as [[vec s2]|] eqn:Er;
    cbn [orEOF bindO fst snd]; [|discriminate].
  apply read_canon in Er. destruct Er as [-> Hl].
  destruct (readVector_loop (length vec) (push dec) [] vec) as [acc| |] eqn:L;
    cbn [bindO]; try discriminate.
  intros [= <- <-]. apply readVector_loop_canon in L; [|exact K].
  destruct L as (xs & -> & Hxs). cbn [app].
  assert (Hv : Z.of_nat (length vec) = n) by lia.
  exists (opaque_bytes vec). split.
  - unfold vector_enc. rewrite Hxs. apply opaque_enc_Some.
    split; [unfold fits; lia | reflexivity].
  - unfold opaque_bytes. rewrite Hv, <- app_assoc. reflexivity.
Qed.

Lemma readVector_total (s : bytes) :
  (forall s, dec s <> OutOfFuel) ->
  (forall s x rest, dec s = Done (x, rest) -> (length rest < length s)%nat) ->
  readVector (push dec) [] s <> OutOfFuel.
Proof.
  intros Ht Hc. unfold readVector.
  destruct (readVarint s) as [[n s1]|]; cbn [orEOF bindO fst snd];
    [|discriminate].
  destruct (ReadBytes (Z.to_nat n) s1) as [[vec s2]|];
    cbn [orEOF bindO fst snd]; [|discriminate].
  pose proof (readVector_loop_total Ht Hc (length vec) [] vec (le_n _)) as L.
  destruct (readVector_loop (length vec) (push dec) [] vec); cbn [bindO];
    [discriminate | discriminate | congruence].
Qed.

End Elements.

Lemma privTree_read_push (acc : list hpkePrivateKey) (s : String) :
  privTree_read acc s = push privKey_dec acc s.
Proof.
  unfold privTree_read, push, privKey_dec.
  destruct (orEOF (readOptional s)) as [[[|] s1]| |]; cbn [bindO fst snd];
    try reflexivity.
  destruct (orEOF (readOpaqueVec s1)) as [[k s2]| |]; reflexivity.
Qed.

Lemma Forall2_eq_same {A : Type} (xs ys : list A) :
  Forall2 eq xs ys -> ys = xs.
Proof. induction 1; [reflexivity | subst; reflexivity]. Qed.


(** ** Invalid length prefixes *)

Lemma readVarint_invalid (s : bytes) :
  invalid_length_prefix s = true -> readVarint s = None.
Proof.
  destruct s as [|b0 tl]; [discriminate|]. cbn [invalid_length_prefix].
  pose proof (byte_to_Z_range b0) as R0. cbv zeta.
  destruct (byte_to_Z b0 / 64 =? 3) eqn:T3.
  { intros _. apply readVarint_bad_tag. apply Z.eqb_eq. exact T3. }
  destruct (byte_to_Z b0 / 64 =? 1) eqn:T1.
  { apply Z.eqb_eq in T1. destruct tl as [|b1 tl]; [discriminate|].
    pose proof (byte_to_Z_range b1) as R1.
    intros H. apply Z.ltb_lt in H. rewrite readVarint_2 by exact T1.
    cbv zeta. unfold uint32. change (2 ^ 32) with 4294967296.
    rewrite Z.mod_small by (Z.div_mod_to_equations; lia).
    apply Z.ltb_lt in H. rewrite H. reflexivity. }
  destruct (byte_to_Z b0 / 64 =? 2) eqn:T2; [|discriminate].
  apply Z.eqb_eq in T2. destruct tl as [|b1 [|b2 [|b3 tl]]]; try discriminate.
  pose proof (byte_to_Z_range b1) as R1.
  pose proof (byte_to_Z_range b2) as R2.
  pose proof (byte_to_Z_range b3) as R3.
  intros H. apply Z.ltb_lt in H. rewrite readVarint_4 by exact T2.
  cbv zeta. unfold uint32. change (2 ^ 32) with 4294967296.
  rewrite (Z.mod_small (byte_to_Z b0 mod 64 * 256 + byte_to_Z b1))
    by (Z.div_mod_to_equations; lia).
  rewrite (Z.mod_small ((byte_to_Z b0 mod 64 * 256 + byte_to_Z b1) * 256
                        + byte_to_Z b2))
    by (Z.div_mod_to_equations; lia).
  rewrite Z.mod_small by (Z.div_mod_to_equations; lia).
  apply Z.ltb_lt in H. rewrite H. reflexivity.
Qed.

Lemma readOpaqueVec_invalid (s : bytes) :
  invalid_length_prefix s = true -> readOpaqueVec s = None.
Proof.
  intros H. unfold readOpaqueVec. rewrite (readVarint_invalid s H).
  reflexivity.
Qed.

Lemma readVector_invalid {St : Type}
    (f : St -> String -> outcome (St * String)) (st : St) (s : bytes) :
  invalid_length_prefix s = true ->
  readVector f st s = Fail ErrUnexpectedEOF.
Proof.
  intros H. unfold readVector. rewrite (readVarint_invalid s H).
  reflexivity.
Qed.

Lemma invalid_length_prefix_nonempty (s : bytes) :
  invalid_length_prefix s = true -> s <> [].
Proof. destruct s; [discriminate | intros _; discriminate]. Qed.

(** The loop stops at the first element that is refused. *)
Lemma readVector_loop_fail {T : Type} (enc : T -> option bytes)
    (dec : String -> outcome (T * String)) (xs : list T) (e : error) :
  (forall x bs, In x xs -> enc x = Some bs ->
     bs <> [] /\ forall rest, exists x', dec (bs ++ rest) = Done (x', rest)) ->
  forall raw bad, oconcat (map enc xs) = Some raw ->
  bad <> [] -> dec bad = Fail e ->
  forall fuel acc, (length (raw ++ bad) <= fuel)%nat ->
  readVector_loop fuel (push dec) acc (raw ++ bad) = Fail e.
Proof.
  induction xs as [|x xs IH]; intros H raw bad Hraw Hne Hbad fuel acc Hfuel.
  - cbn in Hraw. injection Hraw as <-. cbn [app] in *.
    destruct bad as [|b0 bad]; [congruence|].
    destruct fuel as [|fuel]; [cbn in Hfuel; lia|].
    cbn [readVector_loop Empty]. unfold push at 1. rewrite Hbad. reflexivity.
  - cbn [map] in Hraw. rewrite oconcat_cons in Hraw.
    apply oapp_Some in Hraw. destruct Hraw as (bs & raw' & Hx & Hxs & ->).
    destruct (H x bs (or_introl eq_refl) Hx) as [Hbs Hdec].
    destruct (Hdec (raw' ++ bad)) as (x' & Hd).
    rewrite <- app_assoc in *. rewrite length_app in Hfuel.
    destruct bs as [|b0 bs]; [congruence|]. cbn [length] in Hfuel.
    destruct fuel as [|fuel]; [lia|].
    cbn [readVector_loop app Empty].
    change (b0 :: bs ++ raw' ++ bad) with ((b0 :: bs) ++ raw' ++ bad).
    unfold push at 1. rewrite Hd. cbn [bindO fst snd].
    apply (IH (fun y c Hy => H y c (or_intror Hy)) raw' bad Hxs Hne Hbad).
    lia.
Qed.

Lemma readVector_fail {T : Type} (enc : T -> option bytes)
    (dec : String -> outcome (T * String)) (xs : list T) (e : error)
    (raw bad rest : bytes) :
  (forall x bs, In x xs -> enc x = Some bs ->
     bs <> [] /\ forall rest, exists x', dec (bs ++ rest) = Done (x', rest)) ->
  oconcat (map enc xs) = Some raw ->
  bad <> [] -> dec bad = Fail e -> fits (raw ++ bad) ->
  readVector (push dec) [] (opaque_bytes (raw ++ bad) ++ rest) = Fail e.
Proof.
  intros H Hraw Hne Hbad Hfit. unfold readVector, opaque_bytes.
  rewrite <- !app_assoc.
  rewrite readVarint_bytes by (unfold fits in Hfit; lia).
  cbn [orEOF bindO fst snd]. unfold ReadBytes.
  rewrite Nat2Z.id. rewrite (app_assoc raw bad rest), read_app.
  cbn [orEOF bindO fst snd].
  rewrite (readVector_loop_fail enc dec xs e H raw bad Hraw Hne Hbad
             (length (raw ++ bad)) [] (le_n _)).
  reflexivity.
Qed.

(** The private-key column is read back as it was written. *)
Lemma privTree_reread (keys : list hpkePrivateKey) (bs rest : bytes) :
  vector_enc (map privKey_enc keys) = Some bs ->
  readVector privTree_read [] (bs ++ rest) = Done (keys, rest).
Proof.
  intros H. rewrite (readVector_ext _ _ privTree_read_push).
  destruct (readVector_roundtrip _ privKey_enc privKey_dec eq keys bs rest)
    as (keys' & Hd & HF).
  - intros key kb _ Hk. split; [exact (privKey_enc_nonempty key kb Hk)|].
    intros r. exists key. split; [apply privKey_enc_dec; exact Hk | reflexivity].
  - exact H.
  - apply Forall2_eq_same in HF. subst keys'. exact Hd.
Qed.

Lemma emits_run (ws : list (Builder -> Builder)) (os : list (option bytes)) :
  Forall2 emits ws os ->
  emits (fun b => fold_left (fun b w => w b) ws b) (oconcat os).
Proof.
  induction 1 as [|w o ws os Hw _ IH]; cbn [fold_left].
  - apply emits_id.
  - rewrite oconcat_cons.
    apply (emits_seq w (fun b => fold_left (fun b w => w b) ws b)); assumption.
Qed.

(** ** The group state *)

Section Persistence.

Context {groupContext ratchetTree proposal : Type}.
Context {groupContext_marshal : marshaler groupContext}
        {groupContext_unmarshal : unmarshaler groupContext}
        {ratchetTree_marshal : marshaler ratchetTree}
        {ratchetTree_unmarshal : unmarshaler ratchetTree}
        {proposal_marshal : marshaler proposal}
        {proposal_unmarshal : unmarshaler proposal}.

#[local] Set Warnings "-notation-for-abbreviation".
Local Notation pendingProposal' := (pendingProposal proposal).
Local Notation groupState' := (groupState groupContext ratchetTree proposal).
Local Notation Group' := (Group groupContext ratchetTree proposal).
Local Notation groupState_unmarshal' :=
  (@groupState_unmarshal groupContext ratchetTree proposal _ _ _).
Local Notation UnmarshalGroupState' :=
  (@UnmarshalGroupState groupContext ratchetTree proposal _ _ _).

(** *** Writing *)

Section Writing.

(** The [marshal] methods of the three components are writers in the style
    of [cryptobyte]. *)
Hypothesis groupContext_appends :
  forall x : groupContext, appends (marshal_of x).
Hypothesis ratchetTree_appends :
  forall x : ratchetTree, appends (marshal_of x).
Hypothesis proposal_appends :
  forall x : proposal, appends (marshal_of x).

Lemma emits_pendingProposal (pp : pendingProposal') :
  emits (pendingProposal_marshal pp) (pendingProposal_enc pp).
Proof.
  apply (emits_ext (fun b => fold_left (fun b w => w b)
    [ (fun b => writeOpaqueVec b (pp_ref pp));
      marshal_of (pp_proposal pp);
      (fun b => AddUint32 b (uint32 (pp_sender pp))) ] b)).
  - intros b. reflexivity.
  - unfold pendingProposal_enc. apply emits_run.
    repeat apply Forall2_cons; try apply Forall2_nil.
    + apply emits_opaque.
    + apply proposal_appends.
    + apply emits_AddUint32.
Qed.

Lemma emits_privTree (privTree : list hpkePrivateKey) :
  emits (fun b => writeVector b (length privTree) (privTree_write privTree))
        (vector_enc (map privKey_enc privTree)).
Proof.
  rewrite <- (map_nth_error_seq
                (fun o => match o with Some key => privKey_enc key | None => None end)).
  apply emits_vector. intros i Hi. unfold privTree_write.
  destruct (nth_error privTree i) as [key|] eqn:E.
  - destruct key as [k|]; cbn [key_present privKey_enc].
    + apply (emits_seq (fun b => writeOptional b true)
                       (fun b => writeOpaqueVec b k)).
      * apply (emits_optional true).
      * apply emits_opaque.
    + apply (emits_optional false).
  - apply nth_error_None in E. lia.
Qed.

Lemma emits_pendingProposals (pps : list pendingProposal') :
  emits (fun b => writeVector b (length pps) (pendingProposals_write pps))
        (vector_enc (map pendingProposal_enc pps)).
Proof.
  rewrite <- (map_nth_error_seq
                (fun o => match o with Some pp => pendingProposal_enc pp | None => None end)).
  apply emits_vector. intros i Hi. unfold pendingProposals_write.
  destruct (nth_error pps i) as [pp|] eqn:E.
  - apply (emits_ext (pendingProposal_marshal pp)); [reflexivity|].
    apply emits_pendingProposal.
  - apply nth_error_None in E. lia.
Qed.

(** [groupState.marshal] writes the ten fields one after the other, or sets
    an error. *)
Lemma emits_groupState (gs : groupState') :
  emits (groupState_marshal gs) (groupState_enc gs).
Proof.
  apply (emits_ext (fun b => fold_left (fun b w => w b)
    [ marshal_of (gs_groupContext gs);
      marshal_of (gs_tree gs);
      (fun b => writeOpaqueVec b (gs_interimTranscriptHash gs));
      (fun b => writeOpaqueVec b (gs_pskSecret gs));
      (fun b => writeOpaqueVec b (gs_epochSecret gs));
      (fun b => writeOpaqueVec b (gs_initSecret gs));
      (fun b => AddUint32 b (uint32 (gs_myLeafIndex gs)));
      (fun b => writeVector b (length (gs_privTree gs))
                  (privTree_write (gs_privTree gs)));
      (fun b => writeOpaqueVec b (gs_signaturePriv gs));
      (fun b => writeVector b (length (gs_pendingProposals gs))
                  (pendingProposals_write (gs_pendingProposals gs))) ] b)).
  - intros b. reflexivity.
  - unfold groupState_enc, groupState_fields. apply emits_run.
    repeat apply Forall2_cons; try apply Forall2_nil;
      try apply emits_opaque; try apply emits_AddUint32.
    + apply groupContext_appends.
    + apply ratchetTree_appends.
    + apply emits_privTree.
    + apply emits_pendingProposals.
Qed.

Lemma Marshal_enc (g : Group') (data : bytes) :
  Marshal g = inr data <-> groupState_enc (state_of g) = Some data.
Proof.
  unfold Marshal, Group_Marshal. cbn [snd]. fold (state_of g).
  rewrite (marshal_output (M := groupState_marshal)).
  unfold marshal_of.
  rewrite (emits_output _ _ (emits_groupState (state_of g))). reflexivity.
Qed.

End Writing.

(** *** Reading back what was written *)

Lemma pendingProposals_read_push (acc : list pendingProposal') (s : String) :
  pendingProposals_read acc s = push pendingProposal_unmarshal acc s.
Proof.
  unfold pendingProposals_read, push.
  destruct (pendingProposal_unmarshal s) as [[pp s1]| |]; reflexivity.
Qed.

Lemma oconcat_3 (o1 o2 o3 : option bytes) (bs : bytes) :
  oconcat [o1; o2; o3] = Some bs ->
  exists b1 b2 b3,
    o1 = Some b1 /\ o2 = Some b2 /\ o3 = Some b3 /\ bs = b1 ++ b2 ++ b3.
Proof.
  destruct o1 as [b1|], o2 as [b2|], o3 as [b3|]; cbn; try discriminate.
  intros [= <-]. exists b1, b2, b3. rewrite app_nil_r. auto.
Qed.

Lemma oconcat_10 (o1 o2 o3 o4 o5 o6 o7 o8 o9 o10 : option bytes) (bs : bytes) :
  oconcat [o1; o2; o3; o4; o5; o6; o7; o8; o9; o10] = Some bs ->
  exists b1 b2 b3 b4 b5 b6 b7 b8 b9 b10,
    o1 = Some b1 /\ o2 = Some b2 /\ o3 = Some b3 /\ o4 = Some b4 /\
    o5 = Some b5 /\ o6 = Some b6 /\ o7 = Some b7 /\ o8 = Some b8 /\
    o9 = Some b9 /\ o10 = Some b10 /\
    bs = b1 ++ b2 ++ b3 ++ b4 ++ b5 ++ b6 ++ b7 ++ b8 ++ b9 ++ b10.
Proof.
  destruct o1 as [b1|], o2 as [b2|], o3 as [b3|], o4 as [b4|], o5 as [b5|],
    o6 as [b6|], o7 as [b7|], o8 as [b8|], o9 as [b9|], o10 as [b10|];
    cbn; try discriminate.
  intros [= <-]. exists b1, b2, b3, b4, b5, b6, b7, b8, b9, b10.
  rewrite app_nil_r. repeat split; reflexivity.
Qed.

Section RoundTrip.

(** Each component is read back as a value related to the one written:
    [P] says which values this is asked for, [R] how the two are related. *)
Variable Pgc : groupContext -> Prop.
Variable Rgc : groupContext -> groupContext -> Prop.
Variable Pt : ratchetTree -> Prop.
Variable Rt : ratchetTree -> ratchetTree -> Prop.
Variable Pp : proposal -> Prop.
Variable Rp : proposal -> proposal -> Prop.

Hypothesis groupContext_rt : forall x bs rest,
  Pgc x -> marshal x = inr bs ->
  exists x', unmarshal_of (bs ++ rest) = Done (x', rest) /\ Rgc x x'.
Hypothesis ratchetTree_rt : forall x bs rest,
  Pt x -> marshal x = inr bs ->
  exists x', unmarshal_of (bs ++ rest) = Done (x', rest) /\ Rt x x'.
Hypothesis proposal_rt : forall x bs rest,
  Pp x -> marshal x = inr bs ->
  exists x', unmarshal_of (bs ++ rest) = Done (x', rest) /\ Rp x x'.

Lemma pendingProposal_roundtrip (pp : pendingProposal') (bs rest : bytes) :
  Pp (pp_proposal pp) -> pendingProposal_enc pp = Some bs ->
  bs <> [] /\
  exists pp', pendingProposal_unmarshal (bs ++ rest) = Done (pp', rest) /\
              pendingProposal_restored Rp pp pp'.
Proof.
  intros HP H. unfold pendingProposal_enc in H.
  apply oconcat_3 in H. destruct H as (b1 & b2 & b3 & E1 & E2 & E3 & ->).
  apply opaque_enc_Some in E1. destruct E1 as [Hfit ->].
  apply marshal_output in E2. injection E3 as <-.
  split.
  { pose proof (opaque_bytes_nonempty (pp_ref pp)).
    destruct (opaque_bytes (pp_ref pp)); [congruence | discriminate]. }
  rewrite <- !app_assoc.
  destruct (proposal_rt (pp_proposal pp) b2
              (uint32_bytes (uint32 (pp_sender pp)) ++ rest) HP E2)
    as (prop' & Hd & Hr).
  exists (mkPendingProposal (pp_ref pp) prop' (uint32 (pp_sender pp))).
  split.
  - unfold pendingProposal_unmarshal.
    rewrite readOpaqueVec_bytes by exact Hfit. cbn [orEOF bindO].
    rewrite Hd. cbn [bindO].
    rewrite ReadUint32_bytes by apply uint32_range. reflexivity.
  - repeat split. exact Hr.
Qed.

Lemma groupState_roundtrip (gs : groupState') (data rest : bytes) :
  Pgc (gs_groupContext gs) -> Pt (gs_tree gs) ->
  Forall (fun pp => Pp (pp_proposal pp)) (gs_pendingProposals gs) ->
  groupState_enc gs = Some data ->
  exists gs', groupState_unmarshal (data ++ rest) = Done (gs', rest) /\
              groupState_restored Rgc Rt Rp gs gs'.
Proof.
  intros Hgc Ht Hpp H. unfold groupState_enc, groupState_fields in H.
  apply oconcat_10 in H.
  destruct H as (b1 & b2 & b3 & b4 & b5 & b6 & b7 & b8 & b9 & b10 &
                 E1 & E2 & E3 & E4 & E5 & E6 & E7 & E8 & E9 & E10 & ->).
  apply marshal_output in E1, E2.
  apply opaque_enc_Some in E3, E4, E5, E6, E9.
  destruct E3 as [F3 ->], E4 as [F4 ->], E5 as [F5 ->], E6 as [F6 ->],
           E9 as [F9 ->].
  injection E7 as <-.
  rewrite <- !app_assoc.
  match goal with
  | |- context [groupState_unmarshal (b1 ++ ?r)] =>
      destruct (groupContext_rt _ b1 r Hgc E1) as (gc' & Dgc & Rgc')
  end.
  match goal with
  | |- context [groupState_unmarshal (b1 ++ b2 ++ ?r)] =>
      destruct (ratchetTree_rt _ b2 r Ht E2) as (tree' & Dt & Rt')
  end.
  match goal with
  | |- context [b8 ++ ?r] =>
      destruct (readVector_roundtrip _ privKey_enc privKey_dec eq
                  (gs_privTree gs) b8 r) as (privTree' & Dpt & Rpt);
        [ intros key kb _ Hk; split;
            [ exact (privKey_enc_nonempty key kb Hk)
            | intros r0; exists key; split;
                [ apply privKey_enc_dec; exact Hk | reflexivity ] ]
        | exact E8 | ]
  end.
  apply Forall2_eq_same in Rpt. subst privTree'.
  destruct (readVector_roundtrip _ pendingProposal_enc pendingProposal_unmarshal
              (pendingProposal_restored Rp)
              (gs_pendingProposals gs) b10 rest) as (pps' & Dpp & Rpp);
    [ intros pp pb Hin Hb;
      pose proof (proj1 (Forall_forall _ _) Hpp pp Hin) as HPpp;
      split;
        [ exact (proj1 (pendingProposal_roundtrip pp pb [] HPpp Hb))
        | intros r0; exact (proj2 (pendingProposal_roundtrip pp pb r0 HPpp Hb)) ]
    | exact E10 | ].
  exists (mkGroupState gc' tree' (gs_interimTranscriptHash gs) (gs_pskSecret gs)
            (gs_epochSecret gs) (gs_initSecret gs) (uint32 (gs_myLeafIndex gs))
            (gs_privTree gs) (gs_signaturePriv gs) pps').
  split.
  - unfold groupState_unmarshal.
    rewrite Dgc. cbn [wrapO bindO]. rewrite Dt. cbn [wrapO bindO].
    rewrite !readOpaqueVec_bytes by assumption. cbn [orEOF bindO].
    rewrite readOpaqueVec_bytes by assumption. cbn [orEOF bindO].
    rewrite readOpaqueVec_bytes by assumption. cbn [orEOF bindO].
    rewrite readOpaqueVec_bytes by assumption. cbn [orEOF bindO].
    rewrite ReadUint32_bytes by apply uint32_range. cbn [orEOF bindO].
    rewrite (readVector_ext _ _ privTree_read_push), Dpt. cbn [wrapO bindO].
    rewrite readOpaqueVec_bytes by assumption. cbn [orEOF bindO].
    rewrite (readVector_ext _ _ pendingProposals_read_push), Dpp.
    reflexivity.
  - repeat split; assumption.
Qed.

End RoundTrip.

(** *** What the reader accepts *)

Section Canonical.

(** Each component reader accepts only the bytes that its writer produces
    for the value read. *)
Hypothesis groupContext_canon : forall s (x : groupContext) rest,
  unmarshal_of s = Done (x, rest) ->
  exists bs, marshal x = inr bs /\ s = bs ++ rest.
Hypothesis ratchetTree_canon : forall s (x : ratchetTree) rest,
  unmarshal_of s = Done (x, rest) ->
  exists bs, marshal x = inr bs /\ s = bs ++ rest.
Hypothesis proposal_canon : forall s (x : proposal) rest,
  unmarshal_of s = Done (x, rest) ->
  exists bs, marshal x = inr bs /\ s = bs ++ rest.

Lemma pendingProposal_canon (s : bytes) (pp : pendingProposal') (rest : bytes) :
  pendingProposal_unmarshal s = Done (pp, rest) ->
  exists bs, pendingProposal_enc pp = Some bs /\ s = bs ++ rest.
Proof.
  unfold pendingProposal_unmarshal.
  destruct (readOpaqueVec s) as [[ref s1]|] eqn:E1; cbn [orEOF bindO];
    [|discriminate].
  destruct (@unmarshal_of proposal _ s1) as [[prop s2]| |] eqn:E2; cbn [bindO];
    try discriminate.
  destruct (ReadUint32 s2) as [[sender s3]|] eqn:E3; cbn [orEOF bindO];
    [|discriminate].
  intros [= <- <-].
  apply readOpaqueVec_canon in E1. destruct E1 as [F1 ->].
  apply proposal_canon in E2. destruct E2 as (pb & Hp & ->).
  apply ReadUint32_canon in E3. destruct E3 as [F3 ->].
  exists (opaque_bytes ref ++ pb ++ uint32_bytes sender). split.
  - unfold pendingProposal_enc. cbn [pp_ref pp_proposal pp_sender].
    rewrite (proj2 (opaque_enc_Some ref _) (conj F1 eq_refl)).
    rewrite (proj1 (marshal_output prop pb) Hp).
    rewrite (uint32_id sender F3). cbn [oconcat fold_right oapp].
    rewrite app_nil_r. reflexivity.
  - rewrite <- !app_assoc. reflexivity.
Qed.

Lemma groupState_canon (s : bytes) (gs : groupState') (rest : bytes) :
  groupState_unmarshal s = Done (gs, rest) ->
  exists data, groupState_enc gs = Some data /\ s = data ++ rest.
Proof.
  unfold groupState_unmarshal.
  destruct (@unmarshal_of groupContext _ s) as [[gc s1]| |] eqn:E1; cbn [wrapO bindO];
    try discriminate.
  destruct (@unmarshal_of ratchetTree _ s1) as [[tree s2]| |] eqn:E2; cbn [wrapO bindO];
    try discriminate.
  destruct (readOpaqueVec s2) as [[ith s3]|] eqn:E3; cbn [orEOF bindO];
    [|discriminate].
  destruct (readOpaqueVec s3) as [[psk s4]|] eqn:E4; cbn [orEOF bindO];
    [|discriminate].
  destruct (readOpaqueVec s4) as [[eps s5]|] eqn:E5; cbn [orEOF bindO];
    [|discriminate].
  destruct (readOpaqueVec s5) as [[ins s6]|] eqn:E6; cbn [orEOF bindO];
    [|discriminate].
  destruct (ReadUint32 s6) as [[leaf s7]|] eqn:E7; cbn [orEOF bindO];
    [|discriminate].
  rewrite (readVector_ext _ _ privTree_read_push).
  destruct (readVector (push privKey_dec) [] s7) as [[pt s8]| |] eqn:E8;
    cbn [wrapO bindO]; try discriminate.
  destruct (readOpaqueVec s8) as [[sig s9]|] eqn:E9; cbn [orEOF bindO];
    [|discriminate].
  rewrite (readVector_ext _ _ pendingProposals_read_push).
  destruct (readVector (push pendingProposal_unmarshal) [] s9)
    as [[pps s10]| |] eqn:E10; cbn [wrapO bindO]; try discriminate.
  intros [= <- <-].
  apply groupContext_canon in E1. destruct E1 as (b1 & H1 & ->).
  apply ratchetTree_canon in E2. destruct E2 as (b2 & H2 & ->).
  apply readOpaqueVec_canon in E3, E4, E5, E6, E9.
  destruct E3 as [F3 ->], E4 as [F4 ->], E5 as [F5 ->], E6 as [F6 ->],
           E9 as [F9 ->].
  apply ReadUint32_canon in E7. destruct E7 as [F7 ->].
  apply (readVector_canon _ privKey_enc) in E8; [|exact privKey_dec_canon].
  destruct E8 as (b8 & H8 & ->).
  apply (readVector_canon _ pendingProposal_enc) in E10;
    [|exact pendingProposal_canon].
  destruct E10 as (b10 & H10 & ->).
  eexists. split.
  - unfold groupState_enc, groupState_fields.
    cbn [gs_groupContext gs_tree gs_interimTranscriptHash gs_pskSecret
         gs_epochSecret gs_initSecret gs_myLeafIndex gs_privTree
         gs_signaturePriv gs_pendingProposals].
    rewrite (proj1 (marshal_output gc b1) H1).
    rewrite (proj1 (marshal_output tree b2) H2).
    rewrite (proj2 (opaque_enc_Some ith _) (conj F3 eq_refl)).
    rewrite (proj2 (opaque_enc_Some psk _) (conj F4 eq_refl)).
    rewrite (proj2 (opaque_enc_Some eps _) (conj F5 eq_refl)).
    rewrite (proj2 (opaque_enc_Some ins _) (conj F6 eq_refl)).
    rewrite (proj2 (opaque_enc_Some sig _) (conj F9 eq_refl)).
    rewrite (uint32_id leaf F7), H8, H10. cbn [oconcat fold_right oapp].
    reflexivity.
  - rewrite app_nil_r, <- !app_assoc. reflexivity.
Qed.

(** With component readers that end, [groupState.unmarshal] ends: its two
    loops are never cut. *)
Lemma groupState_unmarshal_total (s : bytes) :
  (forall s, @unmarshal_of groupContext _ s <> OutOfFuel) ->
  (forall s, @unmarshal_of ratchetTree _ s <> OutOfFuel) ->
  (forall s, @unmarshal_of proposal _ s <> OutOfFuel) ->
  groupState_unmarshal' s <> OutOfFuel.
Proof.
  intros T1 T2 T3. unfold groupState_unmarshal.
  specialize (T1 s).
  destruct (@unmarshal_of groupContext _ s) as [[gc s1]| |]; cbn [wrapO bindO];
    [|discriminate|congruence].
  specialize (T2 s1).
  destruct (@unmarshal_of ratchetTree _ s1) as [[tree s2]| |]; cbn [wrapO bindO];
    [|discriminate|congruence].
  destruct (readOpaqueVec s2) as [[ith s3]|]; cbn [orEOF bindO];
    [|discriminate].
  destruct (readOpaqueVec s3) as [[psk s4]|]; cbn [orEOF bindO];
    [|discriminate].
  destruct (readOpaqueVec s4) as [[eps s5]|]; cbn [orEOF bindO];
    [|discriminate].
  destruct (readOpaqueVec s5) as [[ins s6]|]; cbn [orEOF bindO];
    [|discriminate].
  destruct (ReadUint32 s6) as [[leaf s7]|]; cbn [orEOF bindO];
    [|discriminate].
  rewrite (readVector_ext _ _ privTree_read_push).
  assert (V1 : readVector (push privKey_dec) [] s7 <> OutOfFuel).
  { apply readVector_total; [exact privKey_dec_total|].
    intros s0 key r H. apply privKey_dec_canon in H.
    destruct H as (bs & Hk & ->). apply privKey_enc_nonempty in Hk.
    rewrite length_app. destruct bs; [congruence | cbn; lia]. }
  destruct (readVector (push privKey_dec) [] s7) as [[pt s8]| |];
    cbn [wrapO bindO]; [|discriminate|congruence].
  destruct (readOpaqueVec s8) as [[sig s9]|]; cbn [orEOF bindO];
    [|discriminate].
  rewrite (readVector_ext _ _ pendingProposals_read_push).
  assert (V2 : readVector (push pendingProposal_unmarshal) [] s9 <> OutOfFuel).
  { apply readVector_total.
    - intros s0. unfold pendingProposal_unmarshal.
      destruct (readOpaqueVec s0) as [[ref r1]|]; cbn [orEOF bindO];
        [|discriminate].
      specialize (T3 r1).
      destruct (@unmarshal_of proposal _ r1) as [[prop r2]| |]; cbn [bindO];
        [|discriminate|congruence].
      destruct (ReadUint32 r2) as [[sd r3]|]; cbn; discriminate.
    - intros s0 pp r H. unfold pendingProposal_unmarshal in H.
      destruct (readOpaqueVec s0) as [[ref r1]|] eqn:E1; cbn [orEOF bindO] in H;
        [|discriminate].
      destruct (@unmarshal_of proposal _ r1) as [[prop r2]| |] eqn:E2; cbn [bindO] in H;
        try discriminate.
      destruct (ReadUint32 r2) as [[sd r3]|] eqn:E3; cbn [orEOF bindO] in H;
        [|discriminate].
      injection H as _ <-.
      apply readOpaqueVec_canon in E1. destruct E1 as [_ ->].
      apply proposal_canon in E2. destruct E2 as (pb & _ & ->).
      apply ReadUint32_canon in E3. destruct E3 as [_ ->].
      rewrite !length_app. pose proof (opaque_bytes_nonempty ref).
      destruct (opaque_bytes ref); [congruence | cbn; lia]. }
  destruct (readVector (push pendingProposal_unmarshal) [] s9)
    as [[pps s10]| |]; cbn [wrapO bindO]; [|discriminate|congruence].
  discriminate.
Qed.

End Canonical.

(** *** From [groupState] to [Group] *)

Lemma state_of_group_of (gs : groupState') : state_of (group_of gs) = gs.
Proof. destruct gs; reflexivity. Qed.

Lemma group_of_state_of (g : Group') : group_of (state_of g) = g.
Proof. destruct g; reflexivity. Qed.

Lemma Empty_true (s : bytes) : Empty s = true -> s = [].
Proof. destruct s; [reflexivity | discriminate]. Qed.

(** [UnmarshalGroupState] succeeds exactly when [groupState.unmarshal]
    reads the whole input. *)
Lemma UnmarshalGroupState_Done (data : bytes) (g : Group') :
  UnmarshalGroupState' data = Done g <->
  exists gs, groupState_unmarshal' data = Done (gs, []) /\ g = group_of gs.
Proof.
  unfold UnmarshalGroupState, unmarshal, unmarshal_of.
  destruct (groupState_unmarshal' data) as [[gs rest]| |] eqn:E;
    cbn [bindO wrapO fst snd].
  - destruct rest as [|b0 rest]; cbn [Empty bindO wrapO].
    + split.
      * intros [= <-]. exists gs. split; reflexivity.
      * intros (gs0 & [= <-] & ->). reflexivity.
    + split; [discriminate | intros (gs0 & [=] & _)].
  - split; [discriminate | intros (gs0 & [=] & _)].
  - split; [discriminate | intros (gs0 & [=] & _)].
Qed.

Lemma UnmarshalGroupState_trailing (data : bytes) (gs : groupState')
    (rest : bytes) :
  groupState_unmarshal' data = Done (gs, rest) -> rest <> [] ->
  UnmarshalGroupState' data =
  Fail (ErrWrap "unmarshal group state" (ErrExcessBytes (length rest))).
Proof.
  intros H Hr. unfold UnmarshalGroupState, unmarshal, unmarshal_of.
  rewrite H. cbn [bindO wrapO fst snd].
  destruct rest; [congruence | reflexivity].
Qed.

Lemma output_same_wire {T : Type} {M : marshaler T} (x x' : T) :
  same_wire x x' -> output (marshal_of x') = output (marshal_of x).
Proof.
  unfold same_wire, marshal, output. intros ->. reflexivity.
Qed.

Lemma restored_same_enc (gs gs' : groupState') :
  groupState_restored same_wire same_wire same_wire gs gs' ->
  groupState_enc gs' = groupState_enc gs.
Proof.
  intros (Hgc & Ht & H3 & H4 & H5 & H6 & H7 & H8 & H9 & H10).
  unfold groupState_enc, groupState_fields.
  rewrite (output_same_wire _ _ Hgc), (output_same_wire _ _ Ht).
  rewrite H3, H4, H5, H6, H7, H8, H9, uint32_idem.
  replace (map pendingProposal_enc (gs_pendingProposals gs'))
    with (map pendingProposal_enc (gs_pendingProposals gs)); [reflexivity|].
  induction H10 as [|pp pp' pps pps' (Hr & Hp & Hs) _ IH]; [reflexivity|].
  cbn [map]. f_equal; [|exact IH].
  unfold pendingProposal_enc.
  rewrite Hr, Hs, uint32_idem, (output_same_wire _ _ Hp). reflexivity.
Qed.

Section Layout.

Hypothesis groupContext_writer : writer_law groupContext.
Hypothesis ratchetTree_writer : writer_law ratchetTree.
Hypothesis proposal_writer : writer_law proposal.

(** The bytes of [Marshal]: the ten fields, in this order, and nothing
    else. *)
Lemma Marshal_layout (g : Group') (data : bytes) :
  Marshal g = inr data <->
  exists b1 b2 b8 b10,
    marshal (g_groupContext g) = inr b1 /\
    marshal (g_tree g) = inr b2 /\
    fits (g_interimTranscriptHash g) /\ fits (g_pskSecret g) /\
    fits (g_epochSecret g) /\ fits (g_initSecret g) /\
    vector_enc (map privKey_enc (g_privTree g)) = Some b8 /\
    fits (g_signaturePriv g) /\
    vector_enc (map pendingProposal_enc (g_pendingProposals g)) = Some b10 /\
    data = b1 ++ b2 ++ opaque_bytes (g_interimTranscriptHash g)
              ++ opaque_bytes (g_pskSecret g)
              ++ opaque_bytes (g_epochSecret g)
              ++ opaque_bytes (g_initSecret g)
              ++ uint32_bytes (uint32 (g_myLeafIndex g))
              ++ b8 ++ opaque_bytes (g_signaturePriv g) ++ b10.
Proof.
  rewrite (Marshal_enc groupContext_writer ratchetTree_writer proposal_writer).
  unfold groupState_enc, groupState_fields.
  cbn [state_of gs_groupContext gs_tree gs_interimTranscriptHash gs_pskSecret
       gs_epochSecret gs_initSecret gs_myLeafIndex gs_privTree
       gs_signaturePriv gs_pendingProposals].
  split.
  - intros H. apply oconcat_10 in H.
    destruct H as (b1 & b2 & b3 & b4 & b5 & b6 & b7 & b8 & b9 & b10 &
                   E1 & E2 & E3 & E4 & E5 & E6 & E7 & E8 & E9 & E10 & ->).
    apply marshal_output in E1, E2.
    apply opaque_enc_Some in E3, E4, E5, E6, E9.
    destruct E3 as [F3 ->], E4 as [F4 ->], E5 as [F5 ->], E6 as [F6 ->],
             E9 as [F9 ->].
    injection E7 as <-.
    exists b1, b2, b8, b10. repeat split; assumption.
  - intros (b1 & b2 & b8 & b10 & H1 & H2 & F3 & F4 & F5 & F6 & H8 & F9 & H10 & ->).
    rewrite (proj1 (marshal_output _ _) H1), (proj1 (marshal_output _ _) H2).
    rewrite (proj2 (opaque_enc_Some _ _) (conj F3 eq_refl)).
    rewrite (proj2 (opaque_enc_Some _ _) (conj F4 eq_refl)).
    rewrite (proj2 (opaque_enc_Some _ _) (conj F5 eq_refl)).
    rewrite (proj2 (opaque_enc_Some _ _) (conj F6 eq_refl)).
    rewrite (proj2 (opaque_enc_Some _ _) (conj F9 eq_refl)).
    rewrite H8, H10. cbn [oconcat fold_right oapp]. rewrite app_nil_r.
    reflexivity.
Qed.

Lemma oconcat_map_chunks {T : Type} (enc : T -> option bytes) (xs : list T)
    (raw : bytes) :
  oconcat (map enc xs) = Some raw <->
  exists chunks, Forall2 (fun x bs => enc x = Some bs) xs chunks /\
                 raw = concat chunks.
Proof.
  revert raw. induction xs as [|x xs IH]; intros raw; cbn [map].
  - cbn. split.
    + intros [= <-]. exists []. split; [constructor | reflexivity].
    + intros (chunks & HF & ->). inversion HF. reflexivity.
  - rewrite oconcat_cons. split.
    + intros H. apply oapp_Some in H. destruct H as (bs & raw' & Hx & Hxs & ->).
      apply IH in Hxs. destruct Hxs as (chunks & HF & ->).
      exists (bs :: chunks). split; [constructor; assumption | reflexivity].
    + intros (chunks & HF & ->). inversion HF as [|? bs ? chunks' Hx HF']; subst.
      rewrite Hx. cbn [concat].
      rewrite (proj2 (IH (concat chunks')) (ex_intro _ chunks' (conj HF' eq_refl))).
      reflexivity.
Qed.

Lemma vector_enc_chunks {T : Type} (enc : T -> option bytes) (xs : list T)
    (bs : bytes) :
  vector_enc (map enc xs) = Some bs ->
  exists chunks, Forall2 (fun x c => enc x = Some c) xs chunks /\
                 bs = opaque_bytes (concat chunks).
Proof.
  unfold vector_enc. destruct (oconcat (map enc xs)) as [raw|] eqn:E;
    [|discriminate].
  apply oconcat_map_chunks in E. destruct E as (chunks & HF & ->).
  intros H. apply opaque_enc_Some in H. destruct H as [_ ->].
  exists chunks. split; [exact HF | reflexivity].
Qed.

(** C6: [Marshal] is a function of the ten fields alone, and both vectors
    are written element by element in the order of the slice: the i-th
    chunk of the vector body is the i-th entry of [privTree], and the i-th
    pending proposal, respectively. *)
Theorem marshal_deterministic_ordered :
  (forall g1 g2 : Group',
     g_groupContext g1 = g_groupContext g2 ->
     g_tree g1 = g_tree g2 ->
     g_interimTranscriptHash g1 = g_interimTranscriptHash g2 ->
     g_pskSecret g1 = g_pskSecret g2 ->
     g_epochSecret g1 = g_epochSecret g2 ->
     g_initSecret g1 = g_initSecret g2 ->
     g_myLeafIndex g1 = g_myLeafIndex g2 ->
     g_privTree g1 = g_privTree g2 ->
     g_signaturePriv g1 = g_signaturePriv g2 ->
     g_pendingProposals g1 = g_pendingProposals g2 ->
     Marshal g1 = Marshal g2) /\
  (forall (g : Group') (data : bytes),
     Marshal g = inr data ->
     exists head mid keys props,
       Forall2 (fun key c => privKey_enc key = Some c) (g_privTree g) keys /\
       Forall2 (fun pp c => pendingProposal_enc pp = Some c)
         (g_pendingProposals g) props /\
       data = head ++ opaque_bytes (concat keys)
                   ++ mid ++ opaque_bytes (concat props)).
Proof.
  split.
  - intros g1 g2 H1 H2 H3 H4 H5 H6 H7 H8 H9 H10.
    unfold Marshal, Group_Marshal. cbn [snd].
    rewrite H1, H2, H3, H4, H5, H6, H7, H8, H9, H10. reflexivity.
  - intros g data H. apply Marshal_layout in H.
    destruct H as (b1 & b2 & b8 & b10 & _ & _ & _ & _ & _ & _ & H8 & _ & H10 & ->).
    apply vector_enc_chunks in H8, H10.
    destruct H8 as (keys & HK & ->), H10 as (props & HP & ->).
    exists (b1 ++ b2 ++ opaque_bytes (g_interimTranscriptHash g)
               ++ opaque_bytes (g_pskSecret g)
               ++ opaque_bytes (g_epochSecret g)
               ++ opaque_bytes (g_initSecret g)
               ++ uint32_bytes (uint32 (g_myLeafIndex g))),
           (opaque_bytes (g_signaturePriv g)), keys, props.
    split; [exact HK | split; [exact HP|]].
    rewrite <- !app_assoc. reflexivity.
Qed.

End Layout.

Section Reread.

Hypothesis groupContext_writer : writer_law groupContext.
Hypothesis ratchetTree_writer : writer_law ratchetTree.
Hypothesis proposal_writer : writer_law proposal.
Hypothesis groupContext_reread : reread_law groupContext.
Hypothesis ratchetTree_reread : reread_law ratchetTree.
Hypothesis proposal_reread : reread_law proposal.

(** What [Marshal] returns is read back, followed by anything, as a group
    state that marshals to the same bytes and keeps every field of known
    type. *)
Lemma reread_groupState (g : Group') (data rest : bytes) :
  Marshal g = inr data ->
  exists gs',
    groupState_unmarshal' (data ++ rest) = Done (gs', rest) /\
    groupState_restored same_wire same_wire same_wire (state_of g) gs'.
Proof.
  intros H.
  apply (Marshal_enc groupContext_writer ratchetTree_writer proposal_writer) in H.
  apply (groupState_roundtrip (fun _ => True) same_wire (fun _ => True)
           same_wire (fun _ => True) same_wire).
  - intros x bs r _. apply groupContext_reread.
  - intros x bs r _. apply ratchetTree_reread.
  - intros x bs r _. apply proposal_reread.
  - exact I.
  - exact I.
  - apply Forall_forall. intros pp _. exact I.
  - exact H.
Qed.

(** C1: for every Group G whose marshaling succeeds, unmarshaling the bytes
    with UnmarshalGroupState succeeds, and marshaling the restored Group
    yields the same bytes again. *)
Theorem marshal_unmarshal_marshal (g : Group') (data : bytes) :
  Marshal g = inr data ->
  exists g', UnmarshalGroupState' data = Done g' /\ Marshal g' = inr data.
Proof.
  intros H. destruct (reread_groupState g data [] H) as (gs' & Hd & Hr).
  rewrite app_nil_r in Hd. exists (group_of gs'). split.
  - apply UnmarshalGroupState_Done. exists gs'. split; [exact Hd | reflexivity].
  - apply (Marshal_enc groupContext_writer ratchetTree_writer proposal_writer).
    rewrite state_of_group_of, (restored_same_enc _ _ Hr).
    apply (Marshal_enc groupContext_writer ratchetTree_writer proposal_writer).
    exact H.
Qed.

(** What the callback of the [privTree] vector writes for entry [i]. *)
Lemma privTree_write_output (privTree : list hpkePrivateKey) (i : nat)
    (key : hpkePrivateKey) :
  nth_error privTree i = Some key ->
  output (fun b => privTree_write privTree b i) = privKey_enc key.
Proof.
  intros E. apply emits_output. unfold privTree_write. rewrite E.
  destruct key as [k|]; cbn [key_present privKey_enc].
  - apply (emits_seq (fun b => writeOptional b true)
                     (fun b => writeOpaqueVec b k)).
    + apply (emits_optional true).
    + apply emits_opaque.
  - apply (emits_optional false).
Qed.

(** C7: every entry of the private-key column is written behind a one-byte
    flag, 0 exactly when the key is nil (and then nothing follows), 1
    otherwise; reading the marshaled group back restores the column as it
    was: the same length, and nil at the same positions. *)
Theorem privTree_presence_flags :
  (forall (privTree : list hpkePrivateKey) (i : nat) (key : hpkePrivateKey)
          (bs : bytes),
     nth_error privTree i = Some key ->
     Bytes (privTree_write privTree newBuilder i) = inr bs ->
     exists flag tl,
       bs = flag :: tl /\
       (flag = x00 <-> key = None) /\
       (flag = x01 <-> key <> None) /\
       (key = None -> tl = [])) /\
  (forall (g : Group') (data : bytes),
     Marshal g = inr data ->
     exists g',
       UnmarshalGroupState' data = Done g' /\
       g_privTree g' = g_privTree g /\
       length (g_privTree g') = length (g_privTree g) /\
       (forall i, nth_error (g_privTree g') i = Some None <->
                  nth_error (g_privTree g) i = Some None)).
Proof.
  split.
  - intros privTree i key bs E H.
    pose proof (privTree_write_output privTree i key E) as O.
    unfold output in O. rewrite H in O. symmetry in O.
    destruct key as [k|]; cbn [privKey_enc] in O.
    + apply oapp_Some in O. destruct O as (a & c & [= <-] & _ & ->).
      exists x01, c.
      repeat split; try reflexivity; try discriminate; try congruence.
    + injection O as <-. exists x00, [].
      repeat split; try reflexivity; try discriminate; try congruence.
  - intros g data H.
    destruct (reread_groupState g data [] H) as (gs' & Hd & Hr).
    rewrite app_nil_r in Hd. exists (group_of gs').
    destruct Hr as (_ & _ & _ & _ & _ & _ & _ & Hp & _).
    cbn [state_of gs_privTree] in Hp. cbn [group_of g_privTree].
    split; [|rewrite Hp; repeat split; auto].
    apply UnmarshalGroupState_Done. exists gs'. split; [exact Hd | reflexivity].
Qed.

Lemma restored_senders (pps pps' : list pendingProposal') :
  Forall2 (pendingProposal_restored same_wire) pps pps' ->
  map pp_sender pps' = map (fun pp => uint32 (pp_sender pp)) pps.
Proof.
  induction 1 as [|pp pp' pps pps' (_ & _ & Hs) _ IH]; [reflexivity|].
  cbn [map]. rewrite Hs, IH. reflexivity.
Qed.

Lemma uint32_bytes_length (v : Z) : length (uint32_bytes v) = 4%nat.
Proof. reflexivity. Qed.

(** C8: the member's leaf index and the sender of each pending proposal are
    each written as exactly one unsigned 32-bit integer, four bytes in
    big-endian order and no more: in the bytes of [Marshal] the four bytes
    of the leaf index stand between the encoding of the init secret and the
    vector of the private-key column, and [pendingProposal.marshal] writes
    the reference, the proposal and then the four bytes of the sender and
    nothing else; [ReadUint32] reads the four bytes as the same value, and
    unmarshaling a marshaled group gives back the same leaf index and the
    same senders. *)
Theorem indices_fixed_width :
  (forall v rest, is_uint32 v ->
     length (uint32_bytes v) = 4%nat /\
     ReadUint32 (uint32_bytes v ++ rest) = Some (v, rest)) /\
  (forall (g : Group') (data : bytes),
     Marshal g = inr data ->
     exists b1 b2 b8 b10,
       marshal (g_groupContext g) = inr b1 /\
       marshal (g_tree g) = inr b2 /\
       vector_enc (map privKey_enc (g_privTree g)) = Some b8 /\
       vector_enc (map pendingProposal_enc (g_pendingProposals g)) = Some b10 /\
       data = (b1 ++ b2 ++ opaque_bytes (g_interimTranscriptHash g)
                  ++ opaque_bytes (g_pskSecret g)
                  ++ opaque_bytes (g_epochSecret g)
                  ++ opaque_bytes (g_initSecret g))
              ++ uint32_bytes (uint32 (g_myLeafIndex g))
              ++ (b8 ++ opaque_bytes (g_signaturePriv g) ++ b10) /\
       length data =
         (length b1 + length b2
          + length (opaque_bytes (g_interimTranscriptHash g))
          + length (opaque_bytes (g_pskSecret g))
          + length (opaque_bytes (g_epochSecret g))
          + length (opaque_bytes (g_initSecret g))
          + 4
          + length b8 + length (opaque_bytes (g_signaturePriv g))
          + length b10)%nat) /\
  (forall (pp : pendingProposal') (bs : bytes),
     Bytes (pendingProposal_marshal pp newBuilder) = inr bs ->
     exists pb,
       marshal (pp_proposal pp) = inr pb /\
       bs = opaque_bytes (pp_ref pp) ++ pb
            ++ uint32_bytes (uint32 (pp_sender pp)) /\
       length bs = (length (opaque_bytes (pp_ref pp)) + length pb + 4)%nat) /\
  (forall (g : Group') (data : bytes),
     indices_ok g -> Marshal g = inr data ->
     exists g',
       UnmarshalGroupState' data = Done g' /\
       g_myLeafIndex g' = g_myLeafIndex g /\
       map pp_sender (g_pendingProposals g')
       = map pp_sender (g_pendingProposals g)).
Proof.
  split; [|split; [|split]].
  - intros v rest Hv. split; [reflexivity | exact (ReadUint32_bytes v rest Hv)].
  - intros g data H.
    apply (Marshal_layout groupContext_writer ratchetTree_writer
             proposal_writer) in H.
    destruct H as (b1 & b2 & b8 & b10 & H1 & H2 & _ & _ & _ & _ & H8 & _ &
                   H10 & ->).
    exists b1, b2, b8, b10.
    split; [exact H1 | split; [exact H2 | split; [exact H8 |
      split; [exact H10 | split]]]].
    + rewrite <- !app_assoc. reflexivity.
    + rewrite !length_app, uint32_bytes_length. lia.
  - intros pp bs H.
    pose proof (emits_output _ _ (emits_pendingProposal proposal_writer pp)) as O.
    unfold output in O. rewrite H in O. symmetry in O.
    unfold pendingProposal_enc in O. apply oconcat_3 in O.
    destruct O as (c1 & c2 & c3 & E1 & E2 & [= <-] & ->).
    apply opaque_enc_Some in E1. destruct E1 as [_ ->].
    apply marshal_output in E2.
    exists c2. split; [exact E2 | split; [reflexivity|]].
    rewrite !length_app, uint32_bytes_length. lia.
  - intros g data [Hl Hs] H.
    destruct (reread_groupState g data [] H) as (gs' & Hd & Hr).
    rewrite app_nil_r in Hd. exists (group_of gs').
    destruct Hr as (_ & _ & _ & _ & _ & _ & Hi & _ & _ & Hpp).
    cbn [state_of gs_myLeafIndex gs_pendingProposals] in Hi, Hpp.
    cbn [group_of g_myLeafIndex g_pendingProposals].
    split; [|split].
    + apply UnmarshalGroupState_Done. exists gs'.
      split; [exact Hd | reflexivity].
    + rewrite Hi. apply uint32_id. exact Hl.
    + rewrite (restored_senders _ _ Hpp). apply map_ext_in.
      intros pp Hin. apply uint32_id.
      exact (proj1 (Forall_forall _ _) Hs pp Hin).
Qed.

End Reread.

Section Exact.

(** Which values of a component are well formed (its integers within the
    range of their Go types, say). *)
Variable groupContext_valid : groupContext -> Prop.
Variable ratchetTree_valid : ratchetTree -> Prop.
Variable proposal_valid : proposal -> Prop.

Hypothesis groupContext_writer : writer_law groupContext.
Hypothesis ratchetTree_writer : writer_law ratchetTree.
Hypothesis proposal_writer : writer_law proposal.
Hypothesis groupContext_exact : exact_law groupContext groupContext_valid.
Hypothesis ratchetTree_exact : exact_law ratchetTree ratchetTree_valid.
Hypothesis proposal_exact : exact_law proposal proposal_valid.

Lemma restored_eq (gs gs' : groupState') :
  groupState_restored eq eq eq gs gs' ->
  is_uint32 (gs_myLeafIndex gs) ->
  Forall (fun pp => is_uint32 (pp_sender pp)) (gs_pendingProposals gs) ->
  gs' = gs.
Proof.
  intros (H1 & H2 & H3 & H4 & H5 & H6 & H7 & H8 & H9 & H10) Hl Hs.
  assert (Hp : gs_pendingProposals gs' = gs_pendingProposals gs).
  { induction H10 as [|pp pp' pps pps' (Hr & Hp & Hsd) _ IH]; [reflexivity|].
    inversion Hs as [|? ? Hpp Hs']; subst.
    rewrite (IH Hs'). f_equal.
    destruct pp as [r p sd], pp' as [r' p' sd'].
    cbn [pp_ref pp_proposal pp_sender] in *.
    rewrite Hr, <- Hp, Hsd, (uint32_id sd Hpp). reflexivity. }
  destruct gs, gs'.
  cbn [gs_groupContext gs_tree gs_interimTranscriptHash gs_pskSecret
       gs_epochSecret gs_initSecret gs_myLeafIndex gs_privTree
       gs_signaturePriv gs_pendingProposals] in *.
  rewrite (uint32_id _ Hl) in H7. congruence.
Qed.

(** C4: the bytes of [Marshal] are the group context, the ratchet tree, the
    interim transcript hash, pskSecret, epoch_secret, init_secret, the leaf
    index, the private-key column, the signature private key and the
    pending proposals, one after the other and nothing else; from these
    bytes alone [UnmarshalGroupState] restores every field of the group. *)
Theorem persisted_fields :
  (forall (g : Group') (data : bytes),
     Marshal g = inr data <->
     exists b1 b2 b8 b10,
       marshal (g_groupContext g) = inr b1 /\
       marshal (g_tree g) = inr b2 /\
       fits (g_interimTranscriptHash g) /\ fits (g_pskSecret g) /\
       fits (g_epochSecret g) /\ fits (g_initSecret g) /\
       vector_enc (map privKey_enc (g_privTree g)) = Some b8 /\
       fits (g_signaturePriv g) /\
       vector_enc (map pendingProposal_enc (g_pendingProposals g)) = Some b10 /\
       data = b1 ++ b2 ++ opaque_bytes (g_interimTranscriptHash g)
                 ++ opaque_bytes (g_pskSecret g)
                 ++ opaque_bytes (g_epochSecret g)
                 ++ opaque_bytes (g_initSecret g)
                 ++ uint32_bytes (uint32 (g_myLeafIndex g))
                 ++ b8 ++ opaque_bytes (g_signaturePriv g) ++ b10) /\
  (forall (g : Group') (data : bytes),
     groupContext_valid (g_groupContext g) ->
     ratchetTree_valid (g_tree g) ->
     Forall (fun pp => proposal_valid (pp_proposal pp)) (g_pendingProposals g) ->
     indices_ok g ->
     Marshal g = inr data ->
     UnmarshalGroupState' data = Done g).
Proof.
  split.
  - exact (Marshal_layout groupContext_writer ratchetTree_writer
             proposal_writer).
  - intros g data V1 V2 V3 [Hl Hs] H.
    apply (Marshal_enc groupContext_writer ratchetTree_writer proposal_writer)
      in H.
    destruct (groupState_roundtrip groupContext_valid eq ratchetTree_valid eq
                proposal_valid eq
                (fun x bs r V E => ex_intro _ x
                   (conj (groupContext_exact x bs r V E) eq_refl))
                (fun x bs r V E => ex_intro _ x
                   (conj (ratchetTree_exact x bs r V E) eq_refl))
                (fun x bs r V E => ex_intro _ x
                   (conj (proposal_exact x bs r V E) eq_refl))
                (state_of g) data [] V1 V2 V3 H)
      as (gs' & Hd & Hr).
    rewrite app_nil_r in Hd.
    apply restored_eq in Hr; [|exact Hl|exact Hs]. subst gs'.
    apply UnmarshalGroupState_Done. exists (state_of g).
    split; [exact Hd | symmetry; apply group_of_state_of].
Qed.

End Exact.

Section Accepted.

Hypothesis groupContext_writer : writer_law groupContext.
Hypothesis ratchetTree_writer : writer_law ratchetTree.
Hypothesis proposal_writer : writer_law proposal.
Hypothesis groupContext_canonical : canonical_law groupContext.
Hypothesis ratchetTree_canonical : canonical_law ratchetTree.
Hypothesis proposal_canonical : canonical_law proposal.

(** C2: for every byte string that UnmarshalGroupState accepts, marshaling
    the decoded Group gives back exactly the input bytes. *)
Theorem unmarshal_marshal_canonical (data : bytes) (g : Group') :
  UnmarshalGroupState' data = Done g -> Marshal g = inr data.
Proof.
  intros H. apply UnmarshalGroupState_Done in H. destruct H as (gs & Hd & ->).
  apply (groupState_canon groupContext_canonical ratchetTree_canonical
           proposal_canonical) in Hd.
  destruct Hd as (data' & He & ->). rewrite app_nil_r.
  apply (Marshal_enc groupContext_writer ratchetTree_writer proposal_writer).
  rewrite state_of_group_of. exact He.
Qed.

End Accepted.

Section Malformed.

Hypothesis groupContext_writer : writer_law groupContext.
Hypothesis ratchetTree_writer : writer_law ratchetTree.
Hypothesis proposal_writer : writer_law proposal.
Hypothesis groupContext_reread : reread_law groupContext.
Hypothesis ratchetTree_reread : reread_law ratchetTree.
Hypothesis proposal_reread : reread_law proposal.
Hypothesis groupContext_canonical : canonical_law groupContext.
Hypothesis ratchetTree_canonical : canonical_law ratchetTree.
Hypothesis proposal_canonical : canonical_law proposal.
Hypothesis groupContext_total : total_law groupContext.
Hypothesis ratchetTree_total : total_law ratchetTree.
Hypothesis proposal_total : total_law proposal.

Lemma UnmarshalGroupState_total (data : bytes) :
  UnmarshalGroupState' data <> OutOfFuel.
Proof.
  pose proof (groupState_unmarshal_total proposal_canonical data
                groupContext_total ratchetTree_total proposal_total) as T.
  unfold UnmarshalGroupState, unmarshal, unmarshal_of.
  destruct (groupState_unmarshal' data) as [[gs rest]| |];
    cbn [bindO wrapO fst snd]; [|discriminate|congruence].
  destruct (Empty rest); cbn; discriminate.
Qed.

Lemma trailing_rejected (data : bytes) (g : Group') (extra : bytes) :
  UnmarshalGroupState' data = Done g -> extra <> [] ->
  UnmarshalGroupState' (data ++ extra) =
  Fail (ErrWrap "unmarshal group state" (ErrExcessBytes (length extra))).
Proof.
  intros H Hx. apply UnmarshalGroupState_Done in H.
  destruct H as (gs & Hd & ->).
  apply (groupState_canon groupContext_canonical ratchetTree_canonical
           proposal_canonical) in Hd.
  destruct Hd as (data' & He & ->). rewrite app_nil_r.
  destruct (groupState_roundtrip (fun _ => True) same_wire (fun _ => True)
              same_wire (fun _ => True) same_wire
              (fun x bs r _ => groupContext_reread x bs r)
              (fun x bs r _ => ratchetTree_reread x bs r)
              (fun x bs r _ => proposal_reread x bs r)
              gs data' extra I I
              (proj2 (Forall_forall _ _) (fun _ _ => I)) He)
    as (gs' & Hd' & _).
  exact (UnmarshalGroupState_trailing _ _ _ Hd' Hx).
Qed.

Lemma truncated_rejected (data : bytes) (g : Group') (p extra : bytes) :
  UnmarshalGroupState' data = Done g -> data = p ++ extra -> extra <> [] ->
  exists e, UnmarshalGroupState' p = Fail e.
Proof.
  intros H -> Hx.
  destruct (UnmarshalGroupState' p) as [g0|e|] eqn:E.
  - rewrite (trailing_rejected p g0 extra E Hx) in H. discriminate.
  - exists e. reflexivity.
  - exfalso. exact (UnmarshalGroupState_total p E).
Qed.

Lemma pendingProposals_reread (pps : list pendingProposal') (bs rest : bytes) :
  vector_enc (map pendingProposal_enc pps) = Some bs ->
  exists pps',
    readVector pendingProposals_read [] (bs ++ rest) = Done (pps', rest).
Proof.
  intros H. rewrite (readVector_ext _ _ pendingProposals_read_push).
  destruct (readVector_roundtrip _ pendingProposal_enc pendingProposal_unmarshal
              (pendingProposal_restored same_wire) pps bs rest)
    as (pps' & Hd & _).
  - intros pp pb _ Hb.
    pose proof (fun r => pendingProposal_roundtrip (fun _ => True) same_wire
                  (fun x bs r _ => proposal_reread x bs r) pp pb r I Hb) as P.
    split; [exact (proj1 (P [])) | intros r; exact (proj2 (P r))].
  - exact H.
  - exists pps'. exact Hd.
Qed.

Lemma UnmarshalGroupState_Fail (data : bytes) (e : error) :
  groupState_unmarshal' data = Fail e ->
  UnmarshalGroupState' data = Fail (ErrWrap "unmarshal group state" e).
Proof.
  intros H. unfold UnmarshalGroupState, unmarshal, unmarshal_of.
  rewrite H. reflexivity.
Qed.

(** The chunks of a marshaled group, one per field. *)
Lemma fields_chunks (g : Group') (chunks : list bytes) :
  Forall2 (fun o b => o = Some b) (groupState_fields (state_of g)) chunks ->
  exists b1 b2 b8 b10,
    chunks = [b1; b2; opaque_bytes (g_interimTranscriptHash g);
              opaque_bytes (g_pskSecret g); opaque_bytes (g_epochSecret g);
              opaque_bytes (g_initSecret g);
              uint32_bytes (uint32 (g_myLeafIndex g)); b8;
              opaque_bytes (g_signaturePriv g); b10] /\
    marshal (g_groupContext g) = inr b1 /\
    marshal (g_tree g) = inr b2 /\
    fits (g_interimTranscriptHash g) /\ fits (g_pskSecret g) /\
    fits (g_epochSecret g) /\ fits (g_initSecret g) /\
    vector_enc (map privKey_enc (g_privTree g)) = Some b8 /\
    fits (g_signaturePriv g) /\
    vector_enc (map pendingProposal_enc (g_pendingProposals g)) = Some b10.
Proof.
  intros HF. unfold groupState_fields in HF.
  repeat match goal with
         | H : Forall2 _ (_ :: _) _ |- _ => inversion H; subst; clear H
         | H : Forall2 _ [] _ |- _ => inversion H; subst; clear H
         end.
  repeat match goal with
         | H : output _ = Some _ |- _ => apply marshal_output in H
         | H : opaque_enc _ = Some _ |- _ =>
             apply opaque_enc_Some in H; destruct H as [? ->]
         | H : Some _ = Some _ |- _ => injection H as <-
         end.
  cbn [state_of gs_groupContext gs_tree gs_interimTranscriptHash gs_pskSecret
       gs_epochSecret gs_initSecret gs_myLeafIndex gs_privTree
       gs_signaturePriv gs_pendingProposals] in *.
  do 4 eexists. repeat split; eassumption.
Qed.

Ltac read_component law E :=
  match goal with
  | |- context [unmarshal_of (?b ++ ?r)] =>
      let x := fresh "x" in
      let D := fresh "D" in
      destruct (law _ b r E) as (x & D & _); rewrite D; cbn [wrapO bindO]
  end.

Ltac read_opaque :=
  rewrite readOpaqueVec_bytes by assumption; cbn [orEOF bindO].

Ltac read_leaf :=
  rewrite ReadUint32_bytes by apply uint32_range; cbn [orEOF bindO].

(** An input cut at the start of a length-prefixed field, with an invalid
    prefix put there, is refused. *)
Lemma invalid_prefix_rejected (g : Group') (chunks : list bytes)
    (k : nat) (bad : bytes) :
  Forall2 (fun o b => o = Some b) (groupState_fields (state_of g)) chunks ->
  In k [2; 3; 4; 5; 7; 8; 9]%nat ->
  invalid_length_prefix bad = true ->
  exists e, UnmarshalGroupState' (concat (firstn k chunks) ++ bad) = Fail e.
Proof.
  intros HF Hk Hbad. apply fields_chunks in HF.
  destruct HF as (b1 & b2 & b8 & b10 & -> & H1 & H2 & F3 & F4 & F5 & F6 &
                  H8 & F9 & H10).
  cbn [In] in Hk.
  destruct Hk as [<-|[<-|[<-|[<-|[<-|[<-|[<-|[]]]]]]]];
    cbn [firstn concat]; rewrite <- ?app_assoc; cbn [app];
    eexists; apply UnmarshalGroupState_Fail;
    unfold groupState_unmarshal;
    read_component groupContext_reread H1;
    read_component ratchetTree_reread H2.
  - rewrite (readOpaqueVec_invalid _ Hbad). reflexivity.
  - read_opaque. rewrite (readOpaqueVec_invalid _ Hbad). reflexivity.
  - do 2 read_opaque. rewrite (readOpaqueVec_invalid _ Hbad). reflexivity.
  - do 3 read_opaque. rewrite (readOpaqueVec_invalid _ Hbad). reflexivity.
  - do 4 read_opaque. read_leaf.
    rewrite (readVector_invalid _ _ _ Hbad). reflexivity.
  - do 4 read_opaque. read_leaf.
    rewrite (privTree_reread _ _ _ H8). cbn [wrapO bindO].
    rewrite (readOpaqueVec_invalid _ Hbad). reflexivity.
  - do 4 read_opaque. read_leaf.
    rewrite (privTree_reread _ _ _ H8). cbn [wrapO bindO]. read_opaque.
    rewrite (readVector_invalid _ _ _ Hbad). reflexivity.
Qed.

Lemma privKey_dec_invalid (bad : bytes) :
  invalid_length_prefix bad = true ->
  privKey_dec (x01 :: bad) = Fail ErrUnexpectedEOF.
Proof.
  intros H. unfold privKey_dec. cbn. rewrite (readOpaqueVec_invalid _ H).
  reflexivity.
Qed.

Lemma pendingProposal_unmarshal_invalid (bad : bytes) :
  invalid_length_prefix bad = true ->
  @pendingProposal_unmarshal proposal _ bad = Fail ErrUnexpectedEOF.
Proof.
  intros H. unfold pendingProposal_unmarshal.
  rewrite (readOpaqueVec_invalid _ H). reflexivity.
Qed.

(** The same inside the private-key column: after any entries, an entry
    marked present whose key has an invalid prefix. *)
Lemma invalid_key_prefix_rejected (g : Group') (chunks : list bytes)
    (keys : list hpkePrivateKey) (kb bad tail : bytes) :
  Forall2 (fun o b => o = Some b) (groupState_fields (state_of g)) chunks ->
  oconcat (map privKey_enc keys) = Some kb ->
  invalid_length_prefix bad = true ->
  fits (kb ++ x01 :: bad) ->
  exists e, UnmarshalGroupState'
              (concat (firstn 7 chunks) ++ opaque_bytes (kb ++ x01 :: bad) ++ tail)
            = Fail e.
Proof.
  intros HF Hkb Hbad Hfit. apply fields_chunks in HF.
  destruct HF as (b1 & b2 & b8 & b10 & -> & H1 & H2 & F3 & F4 & F5 & F6 &
                  H8 & F9 & H10).
  cbn [firstn concat]. rewrite <- ?app_assoc. cbn [app].
  eexists. apply UnmarshalGroupState_Fail. unfold groupState_unmarshal.
  read_component groupContext_reread H1.
  read_component ratchetTree_reread H2.
  do 4 read_opaque. read_leaf.
  rewrite (readVector_ext _ _ privTree_read_push).
  rewrite (readVector_fail privKey_enc privKey_dec keys ErrUnexpectedEOF
             kb (x01 :: bad)).
  - reflexivity.
  - intros key bs _ Hk. split; [exact (privKey_enc_nonempty key bs Hk)|].
    intros r. exists key. apply privKey_enc_dec. exact Hk.
  - exact Hkb.
  - discriminate.
  - apply privKey_dec_invalid. exact Hbad.
  - exact Hfit.
Qed.

(** And inside the pending-proposal vector: after any proposals, one whose
    reference has an invalid prefix. *)
Lemma invalid_ref_prefix_rejected (g : Group') (chunks : list bytes)
    (pps : list pendingProposal') (pb bad tail : bytes) :
  Forall2 (fun o b => o = Some b) (groupState_fields (state_of g)) chunks ->
  oconcat (map pendingProposal_enc pps) = Some pb ->
  invalid_length_prefix bad = true ->
  fits (pb ++ bad) ->
  exists e, UnmarshalGroupState'
              (concat (firstn 9 chunks) ++ opaque_bytes (pb ++ bad) ++ tail)
            = Fail e.
Proof.
  intros HF Hpb Hbad Hfit. apply fields_chunks in HF.
  destruct HF as (b1 & b2 & b8 & b10 & -> & H1 & H2 & F3 & F4 & F5 & F6 &
                  H8 & F9 & H10).
  cbn [firstn concat]. rewrite <- ?app_assoc. cbn [app].
  eexists. apply UnmarshalGroupState_Fail. unfold groupState_unmarshal.
  read_component groupContext_reread H1.
  read_component ratchetTree_reread H2.
  do 4 read_opaque. read_leaf.
  rewrite (privTree_reread _ _ _ H8). cbn [wrapO bindO]. read_opaque.
  rewrite (readVector_ext _ _ pendingProposals_read_push).
  rewrite (readVector_fail pendingProposal_enc pendingProposal_unmarshal pps
             ErrUnexpectedEOF pb bad).
  - reflexivity.
  - intros pp bs _ Hb.
    pose proof (fun r => pendingProposal_roundtrip (fun _ => True) same_wire
                  (fun x bs r _ => proposal_reread x bs r) pp bs r I Hb) as P.
    split; [exact (proj1 (P [])) | intros r].
    destruct (proj2 (P r)) as (pp' & Hd & _). exists pp'. exact Hd.
  - exact Hpb.
  - exact (invalid_length_prefix_nonempty bad Hbad).
  - apply pendingProposal_unmarshal_invalid. exact Hbad.
  - exact Hfit.
Qed.

(** Whatever is not the marshaling of a group is refused. *)
Lemma unmarshaled_rejected (data : bytes) :
  (forall g : Group', Marshal g <> inr data) ->
  exists e, UnmarshalGroupState' data = Fail e.
Proof.
  intros H. destruct (UnmarshalGroupState' data) as [g|e|] eqn:E.
  - exfalso. apply (H g).
    apply UnmarshalGroupState_Done in E. destruct E as (gs & Hd & ->).
    apply (groupState_canon groupContext_canonical ratchetTree_canonical
             proposal_canonical) in Hd.
    destruct Hd as (data' & He & ->). rewrite app_nil_r.
    apply (Marshal_enc groupContext_writer ratchetTree_writer proposal_writer).
    rewrite state_of_group_of. exact He.
  - exists e. reflexivity.
  - exfalso. exact (UnmarshalGroupState_total data E).
Qed.

(** C3: decoding a persisted Group state returns an error, and no Group,
    when the input is a truncated encoding, when it carries bytes after the
    pending-proposal vector, and when a length prefix is invalid: that of a
    top-level byte string or vector, of a key of the private-key column, or
    of the reference of a pending proposal; in all, whenever the input is
    not the marshaling of a group. *)
Theorem decoding_rejects_malformed :
  (forall (data : bytes) (g : Group') (p extra : bytes),
     UnmarshalGroupState' data = Done g -> data = p ++ extra -> extra <> [] ->
     exists e, UnmarshalGroupState' p = Fail e) /\
  (forall (data : bytes) (g : Group') (extra : bytes),
     UnmarshalGroupState' data = Done g -> extra <> [] ->
     exists e, UnmarshalGroupState' (data ++ extra) = Fail e) /\
  (forall (g : Group') (chunks : list bytes) (k : nat) (bad : bytes),
     Forall2 (fun o b => o = Some b) (groupState_fields (state_of g)) chunks ->
     In k [2; 3; 4; 5; 7; 8; 9]%nat ->
     invalid_length_prefix bad = true ->
     exists e, UnmarshalGroupState' (concat (firstn k chunks) ++ bad) = Fail e) /\
  (forall (g : Group') (chunks : list bytes)
          (keys : list hpkePrivateKey) (kb bad tail : bytes),
     Forall2 (fun o b => o = Some b) (groupState_fields (state_of g)) chunks ->
     oconcat (map privKey_enc keys) = Some kb ->
     invalid_length_prefix bad = true ->
     fits (kb ++ x01 :: bad) ->
     exists e, UnmarshalGroupState'
                 (concat (firstn 7 chunks)
                  ++ opaque_bytes (kb ++ x01 :: bad) ++ tail) = Fail e) /\
  (forall (g : Group') (chunks : list bytes)
          (pps : list pendingProposal') (pb bad tail : bytes),
     Forall2 (fun o b => o = Some b) (groupState_fields (state_of g)) chunks ->
     oconcat (map pendingProposal_enc pps) = Some pb ->
     invalid_length_prefix bad = true ->
     fits (pb ++ bad) ->
     exists e, UnmarshalGroupState'
                 (concat (firstn 9 chunks)
                  ++ opaque_bytes (pb ++ bad) ++ tail) = Fail e) /\
  (forall data : bytes,
     (forall g : Group', Marshal g <> inr data) ->
     exists e, UnmarshalGroupState' data = Fail e).
Proof.
  split; [|split; [|split; [|split; [|split]]]].
  - exact truncated_rejected.
  - intros data g extra H Hx. eexists.
    exact (trailing_rejected data g extra H Hx).
  - exact invalid_prefix_rejected.
  - exact invalid_key_prefix_rejected.
  - exact invalid_ref_prefix_rejected.
  - exact unmarshaled_rejected.
Qed.

End Malformed.

End Persistence.

(** ** A new group, and a message across a persistence round trip *)

Lemma applicationMessage_emits (m : applicationMessage) :
  emits (applicationMessage_marshal m)
        (oconcat [Some (uint32_bytes (uint32 (am_sender m)));
                  Some (uint32_bytes (uint32 (am_generation m)));
                  opaque_enc (am_ciphertext m)]).
Proof.
  apply (emits_ext (fun b => fold_left (fun b w => w b)
    [ (fun b => AddUint32 b (uint32 (am_sender m)));
      (fun b => AddUint32 b (uint32 (am_generation m)));
      (fun b => writeOpaqueVec b (am_ciphertext m)) ] b)).
  - intros b. reflexivity.
  - apply emits_run. repeat apply Forall2_cons; try apply Forall2_nil.
    + apply emits_AddUint32.
    + apply emits_AddUint32.
    + apply emits_opaque.
Qed.

(** A marshaled application message is read back, with sender and
    generation as the 32-bit values that were written. *)
Lemma applicationMessage_reread (m : applicationMessage) (bs : bytes) :
  @marshal _ applicationMessage_marshal m = inr bs ->
  @unmarshal _ applicationMessage_unmarshal bs =
  Done (mkApplicationMessage (uint32 (am_sender m)) (uint32 (am_generation m))
          (am_ciphertext m)).
Proof.
  intros H. apply (marshal_output (M := applicationMessage_marshal)) in H.
  unfold marshal_of in H.
  rewrite (emits_output _ _ (applicationMessage_emits m)) in H.
  apply oconcat_3 in H. destruct H as (b1 & b2 & b3 & E1 & E2 & E3 & ->).
  injection E1 as <-. injection E2 as <-.
  apply opaque_enc_Some in E3. destruct E3 as [F ->].
  unfold unmarshal, unmarshal_of, applicationMessage_unmarshal.
  rewrite ReadUint32_bytes by apply uint32_range. cbn [orEOF bindO].
  rewrite ReadUint32_bytes by apply uint32_range. cbn [orEOF bindO].
  rewrite <- (app_nil_r (opaque_bytes (am_ciphertext m))).
  rewrite readOpaqueVec_bytes by exact F. reflexivity.
Qed.

Section NewGroup.

Context {groupContext ratchetTree proposal : Type}.
Context {groupContext_marshal : marshaler groupContext}
        {groupContext_unmarshal : unmarshaler groupContext}
        {ratchetTree_marshal : marshaler ratchetTree}
        {ratchetTree_unmarshal : unmarshaler ratchetTree}
        {proposal_marshal : marshaler proposal}
        {proposal_unmarshal : unmarshaler proposal}.

#[local] Set Warnings "-notation-for-abbreviation".
Local Notation Group' := (Group groupContext ratchetTree proposal).
Local Notation UnmarshalGroupState' :=
  (@UnmarshalGroupState groupContext ratchetTree proposal _ _ _).

Variable cs : CipherSuite.
Variable single_leaf_tree : KeyPackage -> ratchetTree.
Variable initial_context : bytes -> ratchetTree -> groupContext.

Local Notation Session' := (Session groupContext ratchetTree proposal).
Local Notation CreateGroup' :=
  (@CreateGroup groupContext ratchetTree proposal cs single_leaf_tree
     initial_context).

Hypothesis groupContext_writer : writer_law groupContext.
Hypothesis ratchetTree_writer : writer_law ratchetTree.
Hypothesis proposal_writer : writer_law proposal.
Hypothesis groupContext_reread : reread_law groupContext.
Hypothesis ratchetTree_reread : reread_law ratchetTree.

(** A group without pending proposals is read back without any, whatever
    the codec of proposals. *)
Lemma reread_no_proposals (g : Group') (data : bytes) :
  g_pendingProposals g = [] ->
  Marshal g = inr data ->
  exists g',
    UnmarshalGroupState' data = Done g' /\
    same_wire (g_groupContext g) (g_groupContext g') /\
    g_epochSecret g' = g_epochSecret g /\
    g_pendingProposals g' = [].
Proof.
  intros Hp H.
  apply (Marshal_enc groupContext_writer ratchetTree_writer proposal_writer) in H.
  destruct (groupState_roundtrip (fun _ => True) same_wire (fun _ => True)
              same_wire (fun _ => False) eq
              (fun x bs r _ => groupContext_reread x bs r)
              (fun x bs r _ => ratchetTree_reread x bs r)
              (fun x bs r (F : False) _ => match F with end)
              (state_of g) data [] I I)
    as (gs' & Hd & Hr).
  - cbn [state_of gs_pendingProposals]. rewrite Hp. constructor.
  - exact H.
  - rewrite app_nil_r in Hd. exists (group_of gs').
    destruct Hr as (Hgc & _ & _ & _ & He & _ & _ & _ & _ & Hpp).
    cbn [state_of gs_groupContext gs_epochSecret gs_pendingProposals] in *.
    rewrite Hp in Hpp. inversion Hpp as [E|]; subst.
    cbn [group_of g_groupContext g_epochSecret g_pendingProposals].
    repeat split; auto.
    apply UnmarshalGroupState_Done. exists gs'. split; [exact Hd | reflexivity].
Qed.

(** C9: a newly created group has no pending proposal, and a group without
    pending proposals has none after marshaling and unmarshaling. *)
Theorem empty_pending_proposals :
  (forall (id : bytes) (kpp : KeyPairPackage) (seed : bytes),
     length (g_pendingProposals (CreateGroup' id kpp seed)) = 0%nat) /\
  (forall (g : Group') (data : bytes),
     length (g_pendingProposals g) = 0%nat ->
     Marshal g = inr data ->
     exists g',
       UnmarshalGroupState' data = Done g' /\
       length (g_pendingProposals g') = 0%nat).
Proof.
  split.
  - intros id kpp seed. reflexivity.
  - intros g data Hl H. apply length_zero_iff_nil in Hl.
    destruct (reread_no_proposals g data Hl H) as (g' & Hd & _ & _ & Hp).
    exists g'. split; [exact Hd | rewrite Hp; reflexivity].
Qed.

Hypothesis suite_opens : aead_law cs.

Lemma message_aad_same (g g' : Group') :
  same_wire (g_groupContext g) (g_groupContext g') ->
  message_aad g' = message_aad g.
Proof. unfold message_aad, same_wire. intros ->. reflexivity. Qed.

Lemma message_key_same (g g' : Group') (sender : leafIndex) (generation : Z) :
  g_epochSecret g' = g_epochSecret g ->
  message_key cs g' sender generation = message_key cs g sender generation.
Proof. unfold message_key. intros ->. reflexivity. Qed.

(** A message sealed by [g] at leaf 0 and generation 0 is opened by any
    group with the same epoch secret and the same context on the wire that
    has consumed nothing yet. *)
Lemma process_own_message (g g' : Group') (n : Z) (plaintext ct : bytes)
    (s1 : Session') :
  g_myLeafIndex g = 0 ->
  CreateApplicationMessage cs (open_session g) plaintext = (s1, inr ct) ->
  same_wire (g_groupContext g) (g_groupContext g') ->
  g_epochSecret g' = g_epochSecret g ->
  snd (UnmarshalAndProcessMessage cs (mkSession g' n []) ct) = Done plaintext.
Proof.
  intros Hl Hc Hgc He. unfold CreateApplicationMessage in Hc.
  cbn [open_session s_group s_generation s_consumed] in Hc. rewrite Hl in Hc.
  destruct (message_key cs g 0 0) as [key nonce] eqn:K.
  injection Hc as _ Hm. apply applicationMessage_reread in Hm.
  cbn [am_sender am_generation am_ciphertext] in Hm.
  change (uint32 0) with 0 in Hm.
  unfold UnmarshalAndProcessMessage. rewrite Hm.
  cbn [s_group s_consumed consumed existsb am_sender am_generation
       am_ciphertext].
  rewrite (message_key_same g g' 0 0 He), K, (message_aad_same g g' Hgc).
  rewrite suite_opens. reflexivity.
Qed.

(** C5: in the group created as "test-group" with credential "alice", after
    the application message "hello world" is encrypted and the group
    marshaled, the unmarshaled group decrypts the ciphertext to
    "hello world"; so does the group that encrypted it. *)
Theorem restored_group_decrypts (kpp : KeyPairPackage) (seed : bytes)
    (s1 : Session') (ct data : bytes) :
  kp_credential (kpp_Public kpp) = list_byte_of_string "alice" ->
  CreateApplicationMessage cs
    (open_session (CreateGroup' (list_byte_of_string "test-group") kpp seed))
    (list_byte_of_string "hello world") = (s1, inr ct) ->
  Marshal (s_group s1) = inr data ->
  exists restored,
    UnmarshalGroupState' data = Done restored /\
    snd (UnmarshalAndProcessMessage cs (open_session restored) ct)
      = Done (list_byte_of_string "hello world") /\
    snd (UnmarshalAndProcessMessage cs s1 ct)
      = Done (list_byte_of_string "hello world").
Proof.
  intros _ Hc Hm.
  set (g := CreateGroup' (list_byte_of_string "test-group") kpp seed) in *.
  assert (Hs : s1 = mkSession g 1 []).
  { unfold CreateApplicationMessage in Hc.
    destruct (message_key cs (s_group (open_session g))
                (g_myLeafIndex (s_group (open_session g)))
                (s_generation (open_session g))) as [key nonce].
    injection Hc as <- _. reflexivity. }
  subst s1. cbn [s_group] in Hm.
  destruct (reread_no_proposals g data eq_refl Hm) as (g' & Hd & Hgc & He & _).
  exists g'. split; [exact Hd | split].
  - exact (process_own_message g g' 0 _ ct _ eq_refl Hc Hgc He).
  - exact (process_own_message g g 1 _ ct _ eq_refl Hc eq_refl eq_refl).
Qed.

End NewGroup.

(** ** Further properties of group_state.go *)

(** A cut of [a ++ t] falls behind [a], or strictly inside it. *)
Lemma cut_cases {A : Type} (p extra a t : list A) :
  p ++ extra = a ++ t ->
  (exists l, p = a ++ l /\ t = l ++ extra) \/
  (exists l, l <> [] /\ a = p ++ l).
Proof.
  intros H. apply app_eq_app in H. destruct H as (l & [[-> ->] | [-> ->]]).
  - left. exists l. split; reflexivity.
  - destruct l as [|x l].
    + left. exists []. rewrite !app_nil_r. split; reflexivity.
    + right. exists (x :: l). split; [discriminate | reflexivity].
Qed.

(** No proper prefix of a length-prefixed byte string is read as one. *)
Lemma readOpaqueVec_truncated (v p l : bytes) :
  fits v -> opaque_bytes v = p ++ l -> l <> [] -> readOpaqueVec p = None.
Proof.
  intros Hv E Hl. destruct (readOpaqueVec p) as [[v' r]|] eqn:R; [|reflexivity].
  exfalso. apply readOpaqueVec_canon in R. destruct R as [Hv' ->].
  pose proof (readOpaqueVec_bytes v [] Hv) as R1.
  rewrite app_nil_r, E, <- app_assoc in R1.
  rewrite (readOpaqueVec_bytes v' (r ++ l) Hv') in R1.
  injection R1 as _ R1. apply app_eq_nil in R1. destruct R1 as [_ R1].
  exact (Hl R1).
Qed.

Lemma ReadUint32_truncated (v : Z) (p l : bytes) :
  uint32_bytes v = p ++ l -> l <> [] -> ReadUint32 p = None.
Proof.
  intros E Hl.
  assert (H : (length p < 4)%nat).
  { apply (f_equal (@length byte)) in E. rewrite length_app in E.
    cbn [uint32_bytes length] in E. destruct l; [congruence | cbn in E; lia]. }
  destruct p as [|b0 [|b1 [|b2 [|b3 p]]]]; cbn in H |- *; try reflexivity; lia.
Qed.

(** [readVector] starts as [readOpaqueVec] does. *)
Lemma readVector_short {St : Type}
    (f : St -> String -> outcome (St * String)) (st : St) (s : bytes) :
  readOpaqueVec s = None -> readVector f st s = Fail ErrUnexpectedEOF.
Proof.
  unfold readOpaqueVec, readVector, CopyBytes, ReadBytes.
  destruct (readVarint s) as [[n s1]|]; cbn [orEOF bindO fst snd];
    [|reflexivity].
  intros ->. reflexivity.
Qed.

Lemma readVector_truncated {St : Type}
    (f : St -> String -> outcome (St * String)) (st : St)
    (elems : list (option bytes)) (bs p l : bytes) :
  vector_enc elems = Some bs -> bs = p ++ l -> l <> [] ->
  readVector f st p = Fail ErrUnexpectedEOF.
Proof.
  unfold vector_enc. destruct (oconcat elems) as [raw|]; [|discriminate].
  intros H E Hl. apply opaque_enc_Some in H. destruct H as [Hfit ->].
  apply readVector_short. exact (readOpaqueVec_truncated raw p l Hfit E Hl).
Qed.

(** Where a failure of the loop comes from: the callback. *)
Lemma readVector_loop_Fail {St : Type}
    (f : St -> String -> outcome (St * String)) (e : error) :
  forall fuel st vec,
    readVector_loop fuel f st vec = Fail e ->
    exists st' s', f st' s' = Fail e.
Proof.
  induction fuel as [|fuel IH]; intros st vec H; cbn [readVector_loop] in H.
  - destruct (Empty vec); discriminate.
  - destruct (Empty vec); [discriminate|].
    destruct (f st vec) as [[st1 s1]|e1|] eqn:F; cbn [bindO fst snd] in H.
    + exact (IH _ _ H).
    + injection H as ->. exists st, vec. exact F.
    + discriminate.
Qed.

Lemma readVector_Fail {St : Type}
    (f : St -> String -> outcome (St * String)) (st : St) (s : bytes)
    (e : error) :
  readVector f st s = Fail e ->
  e = ErrUnexpectedEOF \/ exists st' s', f st' s' = Fail e.
Proof.
  unfold readVector.
  destruct (readVarint s) as [[n s1]|]; cbn [orEOF bindO fst snd];
    [|intros [= <-]; left; reflexivity].
  destruct (ReadBytes (Z.to_nat n) s1) as [[vec s2]|];
    cbn [orEOF bindO fst snd]; [|intros [= <-]; left; reflexivity].
  destruct (readVector_loop (length vec) f st vec) as [st'|e'|] eqn:L;
    cbn [bindO]; try discriminate.
  intros [= <-]. right. exact (readVector_loop_Fail f e' _ _ _ L).
Qed.

(** A vector that is read takes at least the byte of its length prefix. *)
Lemma readVector_consumes {St : Type}
    (f : St -> String -> outcome (St * String)) (st st' : St)
    (s rest : bytes) :
  readVector f st s = Done (st', rest) -> (length rest < length s)%nat.
Proof.
  unfold readVector.
  destruct (readVarint s) as [[n s1]|] eqn:E; cbn [orEOF bindO fst snd];
    [|discriminate].
  apply readVarint_canon in E. destruct E as [_ ->].
  unfold ReadBytes. destruct (read (Z.to_nat n) s1) as [[vec s2]|] eqn:Er;
    cbn [orEOF bindO fst snd]; [|discriminate].
  apply read_canon in Er. destruct Er as [-> _].
  destruct (readVector_loop (length vec) f st vec); cbn [bindO];
    try discriminate.
  intros [= _ <-]. rewrite !length_app.
  pose proof (varint_bytes_nonempty n).
  destruct (varint_bytes n); [congruence | cbn [length]; lia].
Qed.

Lemma readOpaqueVec_consumes (s v rest : bytes) :
  readOpaqueVec s = Some (v, rest) -> (length rest < length s)%nat.
Proof.
  intros H. apply readOpaqueVec_canon in H. destruct H as [_ ->].
  rewrite length_app. pose proof (opaque_bytes_nonempty v).
  destruct (opaque_bytes v); [congruence | cbn [length]; lia].
Qed.

Lemma ReadUint32_consumes (s : bytes) (v : Z) (rest : bytes) :
  ReadUint32 s = Some (v, rest) -> length s = (4 + length rest)%nat.
Proof.
  destruct s as [|b0 [|b1 [|b2 [|b3 s]]]]; cbn [ReadUint32]; try discriminate.
  intros [= _ <-]. reflexivity.
Qed.

(** What every element read by the loop satisfies, the whole result does. *)
Lemma readVector_loop_Forall {T : Type} (dec : String -> outcome (T * String))
    (P : T -> Prop) :
  (forall s x rest, dec s = Done (x, rest) -> P x) ->
  forall fuel acc vec acc',
    readVector_loop fuel (push dec) acc vec = Done acc' ->
    Forall P acc -> Forall P acc'.
Proof.
  intros HP. induction fuel as [|fuel IH]; intros acc vec acc' H Hacc;
    cbn [readVector_loop] in H.
  - destruct (Empty vec); [|discriminate]. injection H as <-. exact Hacc.
  - destruct (Empty vec); [injection H as <-; exact Hacc|].
    unfold push at 1 in H.
    destruct (dec vec) as [[x rest]| |] eqn:D; cbn [bindO fst snd] in H;
      try discriminate.
    apply (IH _ _ _ H). apply Forall_app. split; [exact Hacc|].
    constructor; [exact (HP _ _ _ D) | constructor].
Qed.

Lemma readVector_Forall {T : Type} (dec : String -> outcome (T * String))
    (P : T -> Prop) (s : bytes) (xs : list T) (rest : bytes) :
  (forall s x rest, dec s = Done (x, rest) -> P x) ->
  readVector (push dec) [] s = Done (xs, rest) -> Forall P xs.
Proof.
  intros HP. unfold readVector.
  destruct (readVarint s) as [[n s1]|]; cbn [orEOF bindO fst snd];
    [|discriminate].
  destruct (ReadBytes (Z.to_nat n) s1) as [[vec s2]|];
    cbn [orEOF bindO fst snd]; [|discriminate].
  destruct (readVector_loop (length vec) (push dec) [] vec) as [acc| |] eqn:L;
    cbn [bindO]; try discriminate.
  intros [= <- _].
  exact (readVector_loop_Forall dec P HP _ _ _ _ L (Forall_nil P)).
Qed.

Lemma privKey_dec_Fail (s : bytes) (e : error) :
  privKey_dec s = Fail e -> e = ErrUnexpectedEOF.
Proof.
  unfold privKey_dec.
  destruct (readOptional s) as [[[|] s1]|]; cbn [orEOF bindO fst snd].
  - destruct (readOpaqueVec s1) as [[k s2]|]; cbn [orEOF bindO fst snd];
      [discriminate | intros [= <-]; reflexivity].
  - discriminate.
  - intros [= <-]. reflexivity.
Qed.

Lemma push_Fail {T : Type} (dec : String -> outcome (T * String))
    (acc : list T) (s : bytes) (e : error) :
  push dec acc s = Fail e -> dec s = Fail e.
Proof.
  unfold push. destruct (dec s) as [[x r]|e'|]; cbn [bindO];
    [discriminate | intros [= <-]; reflexivity | discriminate].
Qed.

(** A key that announces more bytes than are left. *)
Lemma privKey_dec_overrun (n : Z) (k : bytes) :
  0 <= n < 2 ^ 30 -> Z.of_nat (length k) < n ->
  privKey_dec (x01 :: varint_bytes n ++ k) = Fail ErrUnexpectedEOF.
Proof.
  intros Hn Hk. unfold privKey_dec.
  change (readOptional (x01 :: varint_bytes n ++ k))
    with (Some (true, varint_bytes n ++ k)).
  cbn [orEOF bindO fst snd]. unfold readOpaqueVec.
  rewrite readVarint_bytes by exact Hn. unfold CopyBytes, read.
  destruct (length k <? Z.to_nat n)%nat eqn:E; [reflexivity|].
  apply Nat.ltb_ge in E. lia.
Qed.

(** A presence flag that is neither 0 nor 1. *)
Lemma privKey_dec_bad_flag (flag : byte) (after : bytes) :
  flag <> x00 -> flag <> x01 ->
  privKey_dec (flag :: after) = Fail ErrUnexpectedEOF.
Proof.
  intros H0 H1. unfold privKey_dec, readOptional, ReadUint8.
  destruct (byte_to_Z flag =? 0) eqn:E0.
  { apply Z.eqb_eq in E0. exfalso. apply H0.
    apply byte_to_Z_inj. rewrite E0. reflexivity. }
  destruct (byte_to_Z flag =? 1) eqn:E1.
  { apply Z.eqb_eq in E1. exfalso. apply H1.
    apply byte_to_Z_inj. rewrite E1. reflexivity. }
  reflexivity.
Qed.

Lemma privKey_dec_fits (s : bytes) (key : hpkePrivateKey) (rest : bytes) :
  privKey_dec s = Done (key, rest) ->
  match key with Some k => fits k | None => True end.
Proof.
  unfold privKey_dec.
  destruct (readOptional s) as [[[|] s1]|]; cbn [orEOF bindO fst snd];
    try discriminate.
  - destruct (readOpaqueVec s1) as [[k s2]|] eqn:E; cbn [orEOF bindO fst snd];
      [|discriminate].
    intros [= <- _]. exact (proj1 (readOpaqueVec_canon _ _ _ E)).
  - intros [= <- _]. exact I.
Qed.

(** The helpers never report an index out of range. *)
Lemma add_no_index_error (b : Builder) (bs : bytes) :
  err b <> Some ErrIndexOutOfRange -> err (add b bs) <> Some ErrIndexOutOfRange.
Proof. rewrite err_add. auto. Qed.

Lemma writeVarint_no_index_error (b : Builder) (n : Z) :
  err b <> Some ErrIndexOutOfRange ->
  err (writeVarint b n) <> Some ErrIndexOutOfRange.
Proof.
  intros H. unfold writeVarint, AddUint8, AddUint16, AddUint32.
  destruct (n <? Z.shiftl 1 6); [apply add_no_index_error; exact H|].
  destruct (n <? Z.shiftl 1 14); [apply add_no_index_error; exact H|].
  destruct (n <? Z.shiftl 1 30); [apply add_no_index_error; exact H|].
  cbn. discriminate.
Qed.

Lemma writeOpaqueVec_no_index_error (b : Builder) (v : bytes) :
  err b <> Some ErrIndexOutOfRange ->
  err (writeOpaqueVec b v) <> Some ErrIndexOutOfRange.
Proof.
  intros H. unfold writeOpaqueVec, AddBytes.
  destruct (2 ^ 32 <=? Z.of_nat (length v)); [cbn; discriminate|].
  apply add_no_index_error, writeVarint_no_index_error. exact H.
Qed.

Lemma writeVector_no_index_error (b : Builder) (n : nat)
    (f : Builder -> nat -> Builder) :
  err b <> Some ErrIndexOutOfRange ->
  err (fold_left f (seq 0 n) newBuilder) <> Some ErrIndexOutOfRange ->
  err (writeVector b n f) <> Some ErrIndexOutOfRange.
Proof.
  intros H Hc. unfold writeVector, Bytes.
  destruct (err (fold_left f (seq 0 n) newBuilder)) as [e|].
  - cbn. congruence.
  - apply writeOpaqueVec_no_index_error. exact H.
Qed.

(** A loop over indices within the slice keeps the builder free of the
    index error. *)
Lemma fold_no_index_error {A : Type} (xs : list A)
    (f : Builder -> nat -> Builder) :
  (forall b i x, nth_error xs i = Some x ->
     err b <> Some ErrIndexOutOfRange ->
     err (f b i) <> Some ErrIndexOutOfRange) ->
  forall (l : list nat) (b : Builder),
    Forall (fun i => (i < length xs)%nat) l ->
    err b <> Some ErrIndexOutOfRange ->
    err (fold_left f l b) <> Some ErrIndexOutOfRange.
Proof.
  intros Hf. induction l as [|i l IH]; intros b Hl Hb; cbn [fold_left].
  - exact Hb.
  - inversion Hl as [|? ? Hi Hl']; subst. apply IH; [exact Hl'|].
    destruct (nth_error xs i) as [x|] eqn:E.
    + exact (Hf b i x E Hb).
    + apply nth_error_None in E. lia.
Qed.

Lemma seq_within (n : nat) : Forall (fun i => (i < n)%nat) (seq 0 n).
Proof. apply Forall_forall. intros i Hi. apply in_seq in Hi. lia. Qed.

Lemma privTree_write_no_index_error (privTree : list hpkePrivateKey) :
  err (fold_left (privTree_write privTree) (seq 0 (length privTree)) newBuilder)
  <> Some ErrIndexOutOfRange.
Proof.
  apply (fold_no_index_error privTree); [|apply seq_within|discriminate].
  intros b i key E Hb. unfold privTree_write. rewrite E.
  assert (Ho : err (writeOptional b (key_present key))
               <> Some ErrIndexOutOfRange).
  { unfold writeOptional, AddUint8. apply add_no_index_error. exact Hb. }
  destruct key as [k|]; [|exact Ho].
  apply writeOpaqueVec_no_index_error. exact Ho.
Qed.

Lemma opaque_bytes_length (v : bytes) : (1 <= length (opaque_bytes v))%nat.
Proof.
  pose proof (opaque_bytes_nonempty v).
  destruct (opaque_bytes v); [congruence | cbn [length]; lia].
Qed.

Section Further.

Context {groupContext ratchetTree proposal : Type}.
Context {groupContext_marshal : marshaler groupContext}
        {groupContext_unmarshal : unmarshaler groupContext}
        {ratchetTree_marshal : marshaler ratchetTree}
        {ratchetTree_unmarshal : unmarshaler ratchetTree}
        {proposal_marshal : marshaler proposal}
        {proposal_unmarshal : unmarshaler proposal}.

#[local] Set Warnings "-notation-for-abbreviation".
Local Notation pendingProposal' := (pendingProposal proposal).
Local Notation groupState' := (groupState groupContext ratchetTree proposal).
Local Notation Group' := (Group groupContext ratchetTree proposal).
Local Notation groupState_unmarshal' :=
  (@groupState_unmarshal groupContext ratchetTree proposal _ _ _).
Local Notation UnmarshalGroupState' :=
  (@UnmarshalGroupState groupContext ratchetTree proposal _ _ _).

(** *** One pending proposal *)

(** X1: a pending proposal written by [pendingProposal.marshal] is read by
    [pendingProposal.unmarshal] as the same reference, proposal and sender,
    and the bytes behind it are left for the next reader. *)
Theorem pendingProposal_marshal_unmarshal
    (proposal_valid : proposal -> Prop)
    (pp : pendingProposal') (bs rest : bytes) :
  writer_law proposal ->
  exact_law proposal proposal_valid ->
  proposal_valid (pp_proposal pp) ->
  is_uint32 (pp_sender pp) ->
  Bytes (pendingProposal_marshal pp newBuilder) = inr bs ->
  pendingProposal_unmarshal (bs ++ rest) = Done (pp, rest).
Proof.
  intros Hw Hx Hv Hs H.
  pose proof (emits_output _ _ (emits_pendingProposal Hw pp)) as O.
  unfold output in O. rewrite H in O. symmetry in O.
  destruct (pendingProposal_roundtrip proposal_valid eq
              (fun x b r V E => ex_intro _ x (conj (Hx x b r V E) eq_refl))
              pp bs rest Hv O) as (_ & pp' & Hd & Hr & Hp & Hsd).
  rewrite Hd. destruct pp as [r p sd], pp' as [r' p' sd'].
  cbn [pp_ref pp_proposal pp_sender] in *.
  rewrite Hr, <- Hp, Hsd, (uint32_id sd Hs). reflexivity.
Qed.

(** X2: whatever [pendingProposal.unmarshal] accepts is, up to the bytes it
    leaves, what [pendingProposal.marshal] writes for the value read; the
    sender read is a 32-bit value and the reference is short enough to be
    written again. *)
Theorem pendingProposal_unmarshal_canonical
    (s : bytes) (pp : pendingProposal') (rest : bytes) :
  writer_law proposal ->
  canonical_law proposal ->
  pendingProposal_unmarshal s = Done (pp, rest) ->
  is_uint32 (pp_sender pp) /\ fits (pp_ref pp) /\
  exists bs, Bytes (pendingProposal_marshal pp newBuilder) = inr bs /\
             s = bs ++ rest.
Proof.
  intros Hw Hc H.
  assert (Hb : is_uint32 (pp_sender pp) /\ fits (pp_ref pp)).
  { unfold pendingProposal_unmarshal in H.
    destruct (readOpaqueVec s) as [[ref s1]|] eqn:E1; cbn [orEOF bindO] in H;
      [|discriminate].
    destruct (@unmarshal_of proposal _ s1) as [[prop s2]| |];
      cbn [bindO] in H; try discriminate.
    destruct (ReadUint32 s2) as [[sender s3]|] eqn:E3; cbn [orEOF bindO] in H;
      [|discriminate].
    injection H as <- _. cbn [pp_sender pp_ref].
    apply readOpaqueVec_canon in E1. apply ReadUint32_canon in E3.
    split; [exact (proj1 E3) | exact (proj1 E1)]. }
  destruct Hb as [Hs Hr]. split; [exact Hs | split; [exact Hr|]].
  destruct (pendingProposal_canon Hc s pp rest H) as (bs & He & ->).
  exists bs. split; [|reflexivity].
  pose proof (emits_output _ _ (emits_pendingProposal Hw pp)) as O.
  unfold output in O. rewrite He in O.
  destruct (Bytes (pendingProposal_marshal pp newBuilder)) as [e|bs'];
    [discriminate | injection O as ->; reflexivity].
Qed.

(** *** Writing and reading in a larger stream *)

Section Streams.

Hypothesis groupContext_writer : writer_law groupContext.
Hypothesis ratchetTree_writer : writer_law ratchetTree.
Hypothesis proposal_writer : writer_law proposal.

(** X3: [groupState.marshal] is itself a writer in the style of
    [cryptobyte]: on a builder that already holds bytes it appends exactly
    the bytes that [Marshal] returns, and on a builder in error it leaves
    the error standing. *)
Theorem groupState_marshal_composes (g : Group') (data pre : bytes) :
  Marshal g = inr data ->
  Bytes (groupState_marshal (state_of g) (mkBuilder None pre))
    = inr (pre ++ data) /\
  (forall b, err b <> None ->
     err (groupState_marshal (state_of g) b) <> None).
Proof.
  intros H.
  apply (Marshal_enc groupContext_writer ratchetTree_writer proposal_writer)
    in H.
  pose proof (emits_groupState groupContext_writer ratchetTree_writer
                proposal_writer (state_of g)) as [K W].
  rewrite H in W. split.
  - rewrite (W (mkBuilder None pre) eq_refl). reflexivity.
  - exact K.
Qed.

(** X18: what [Marshal] returns is never empty: behind the context and
    the tree it holds at least eleven bytes, the prefixes of four byte
    strings, the leaf index, and the prefixes of two vectors and of the
    signature key. *)
Theorem Marshal_output_nonempty (g : Group') (data : bytes) :
  Marshal g = inr data -> data <> [] /\ (11 <= length data)%nat.
Proof.
  intros H.
  apply (Marshal_layout groupContext_writer ratchetTree_writer
           proposal_writer) in H.
  destruct H as (b1 & b2 & b8 & b10 & _ & _ & _ & _ & _ & _ & H8 & _ & H10 & ->).
  apply vector_enc_chunks in H8, H10.
  destruct H8 as (keys & _ & ->), H10 as (props & _ & ->).
  assert (L : (11 <= length
                 (b1 ++ b2 ++ opaque_bytes (g_interimTranscriptHash g)
                  ++ opaque_bytes (g_pskSecret g)
                  ++ opaque_bytes (g_epochSecret g)
                  ++ opaque_bytes (g_initSecret g)
                  ++ uint32_bytes (uint32 (g_myLeafIndex g))
                  ++ opaque_bytes (concat keys)
                  ++ opaque_bytes (g_signaturePriv g)
                  ++ opaque_bytes (concat props)))%nat).
  { rewrite !length_app, uint32_bytes_length.
    pose proof (opaque_bytes_length (g_interimTranscriptHash g)).
    pose proof (opaque_bytes_length (g_pskSecret g)).
    pose proof (opaque_bytes_length (g_epochSecret g)).
    pose proof (opaque_bytes_length (g_initSecret g)).
    pose proof (opaque_bytes_length (concat keys)).
    pose proof (opaque_bytes_length (g_signaturePriv g)).
    pose proof (opaque_bytes_length (concat props)).
    lia. }
  split; [|exact L].
  intros E. rewrite E in L. cbn [length] in L. lia.
Qed.

Section ExactStreams.

Variable groupContext_valid : groupContext -> Prop.
Variable ratchetTree_valid : ratchetTree -> Prop.
Variable proposal_valid : proposal -> Prop.

Hypothesis groupContext_exact : exact_law groupContext groupContext_valid.
Hypothesis ratchetTree_exact : exact_law ratchetTree ratchetTree_valid.
Hypothesis proposal_exact : exact_law proposal proposal_valid.

Local Notation Group_valid' :=
  (Group_valid groupContext_valid ratchetTree_valid proposal_valid).

(** [groupState.unmarshal] reads what [Marshal] wrote and stops there. *)
Lemma exact_groupState (g : Group') (data rest : bytes) :
  Group_valid' g -> Marshal g = inr data ->
  groupState_unmarshal' (data ++ rest) = Done (state_of g, rest).
Proof.
  intros (V1 & V2 & V3 & Hl & Hs) H.
  apply (Marshal_enc groupContext_writer ratchetTree_writer proposal_writer)
    in H.
  destruct (groupState_roundtrip groupContext_valid eq ratchetTree_valid eq
              proposal_valid eq
              (fun x bs r V E => ex_intro _ x
                 (conj (groupContext_exact x bs r V E) eq_refl))
              (fun x bs r V E => ex_intro _ x
                 (conj (ratchetTree_exact x bs r V E) eq_refl))
              (fun x bs r V E => ex_intro _ x
                 (conj (proposal_exact x bs r V E) eq_refl))
              (state_of g) data rest V1 V2 V3 H)
    as (gs' & Hd & Hr).
  apply restored_eq in Hr; [|exact Hl|exact Hs]. subst gs'. exact Hd.
Qed.

(** X4: group states written one behind the other are read one behind the
    other: [groupState.unmarshal] takes exactly the bytes of the first and
    leaves those of the second, which it then reads in turn. *)
Theorem groupState_unmarshal_sequence (g1 g2 : Group')
    (d1 d2 rest : bytes) :
  Group_valid' g1 -> Group_valid' g2 ->
  Marshal g1 = inr d1 -> Marshal g2 = inr d2 ->
  groupState_unmarshal' (d1 ++ d2 ++ rest) = Done (state_of g1, d2 ++ rest) /\
  groupState_unmarshal' (d2 ++ rest) = Done (state_of g2, rest).
Proof.
  intros V1 V2 H1 H2. split.
  - exact (exact_groupState g1 d1 (d2 ++ rest) V1 H1).
  - exact (exact_groupState g2 d2 rest V2 H2).
Qed.

(** X5: [Marshal] is injective on well-formed groups: two groups with the
    same bytes are the same group, field by field. *)
Theorem Marshal_injective (g1 g2 : Group') (data : bytes) :
  Group_valid' g1 -> Group_valid' g2 ->
  Marshal g1 = inr data -> Marshal g2 = inr data -> g1 = g2.
Proof.
  intros V1 V2 H1 H2.
  pose proof (exact_groupState g1 data [] V1 H1) as D1.
  pose proof (exact_groupState g2 data [] V2 H2) as D2.
  rewrite D1 in D2.
  pose proof (f_equal (fun o => match o with
                                | Done r => group_of (fst r)
                                | _ => g1
                                end) D2) as E.
  cbv beta iota in E. cbn [fst] in E. rewrite !group_of_state_of in E.
  exact E.
Qed.

End ExactStreams.

Section RereadFields.

Hypothesis groupContext_reread : reread_law groupContext.
Hypothesis ratchetTree_reread : reread_law ratchetTree.

Ltac fails_with R :=
  apply UnmarshalGroupState_Fail; unfold groupState_unmarshal;
  repeat first
    [ rewrite R
    | rewrite readOpaqueVec_bytes by assumption
    | rewrite ReadUint32_bytes by apply uint32_range
    | match goal with
      | D : unmarshal_of _ = Done _ |- _ => rewrite D
      end
    | match goal with
      | V : vector_enc (map privKey_enc _) = Some _ |- _ =>
          rewrite (privTree_reread _ _ _ V)
      end
    | progress cbn [orEOF wrapO bindO] ];
  reflexivity.

(** The cut falls in the field [f = q ++ l]: how long the parts are. *)
Ltac cut_lengths C N :=
  apply (f_equal (@length byte)) in C; rewrite length_app in C;
  match type of N with
  | ?l <> [] =>
      assert (0 < length l)%nat
        by (destruct l; [congruence | cbn [length]; lia])
  end.

(** Where the cut falls decides the error. *)
Ltac located :=
  rewrite ?length_app;
  repeat match goal with
         | |- context [(?a <? ?b)%nat] =>
             destruct (Nat.ltb_spec a b); try (exfalso; lia)
         end.

(** X6: an encoding cut anywhere behind the ratchet tree is refused with
    [io.ErrUnexpectedEOF], and where the cut falls decides how the error
    is labelled: bare when it falls in the interim transcript hash, in
    one of the three secrets or in the leaf index, under "unmarshal priv
    tree" when it falls in the vector of the private-key column, bare
    again in the signature key, and under "unmarshal pending proposals"
    in the vector of the pending proposals. *)
Theorem truncated_fields_unexpected_EOF (g : Group')
    (b1 b2 b8 tail p extra : bytes) :
  marshal (g_groupContext g) = inr b1 ->
  marshal (g_tree g) = inr b2 ->
  vector_enc (map privKey_enc (g_privTree g)) = Some b8 ->
  Marshal g = inr (b1 ++ b2 ++ tail) ->
  tail = p ++ extra -> extra <> [] ->
  let front := opaque_bytes (g_interimTranscriptHash g)
               ++ opaque_bytes (g_pskSecret g)
               ++ opaque_bytes (g_epochSecret g)
               ++ opaque_bytes (g_initSecret g)
               ++ uint32_bytes (uint32 (g_myLeafIndex g)) in
  UnmarshalGroupState' (b1 ++ b2 ++ p)
  = Fail (ErrWrap "unmarshal group state"
      (if (length p <? length front)%nat then ErrUnexpectedEOF
       else if (length p <? length front + length b8)%nat
       then ErrWrap "unmarshal priv tree" ErrUnexpectedEOF
       else if (length p <? length front + length b8
                            + length (opaque_bytes (g_signaturePriv g)))%nat
       then ErrUnexpectedEOF
       else ErrWrap "unmarshal pending proposals" ErrUnexpectedEOF)).
Proof.
  intros H1 H2 H8 H -> Hx. cbv zeta.
  apply (Marshal_layout groupContext_writer ratchetTree_writer
           proposal_writer) in H.
  destruct H as (c1 & c2 & c8 & b10 & E1 & E2 & F3 & F4 & F5 & F6 & K8 & F9 &
                 H10 & E).
  rewrite H1 in E1. injection E1 as <-.
  rewrite H2 in E2. injection E2 as <-.
  rewrite H8 in K8. injection K8 as <-.
  apply app_inv_head in E. apply app_inv_head in E.
  rewrite <- (app_nil_r b10) in E.
  pose proof (fun r => groupContext_reread (g_groupContext g) b1 r H1) as Rgc.
  pose proof (fun r => ratchetTree_reread (g_tree g) b2 r H2) as Rt.
  destruct (cut_cases _ _ _ _ E) as [(l3 & -> & E3) | (l3 & N3 & C3)].
  2: { destruct (Rgc (b2 ++ p)) as (gc' & Dgc & _).
       destruct (Rt p) as (t' & Dt & _).
       pose proof (readOpaqueVec_truncated _ _ _ F3 C3 N3) as R.
       cut_lengths C3 N3. located. fails_with R. }
  symmetry in E3.
  destruct (cut_cases _ _ _ _ E3) as [(l4 & -> & E4) | (l4 & N4 & C4)].
  2: { match goal with
       | |- context [UnmarshalGroupState (b1 ++ b2 ++ ?q)] =>
           destruct (Rgc (b2 ++ q)) as (gc' & Dgc & _);
           destruct (Rt q) as (t' & Dt & _)
       end.
       pose proof (readOpaqueVec_truncated _ _ _ F4 C4 N4) as R.
       cut_lengths C4 N4. located. fails_with R. }
  symmetry in E4.
  destruct (cut_cases _ _ _ _ E4) as [(l5 & -> & E5) | (l5 & N5 & C5)].
  2: { match goal with
       | |- context [UnmarshalGroupState (b1 ++ b2 ++ ?q)] =>
           destruct (Rgc (b2 ++ q)) as (gc' & Dgc & _);
           destruct (Rt q) as (t' & Dt & _)
       end.
       pose proof (readOpaqueVec_truncated _ _ _ F5 C5 N5) as R.
       cut_lengths C5 N5. located. fails_with R. }
  symmetry in E5.
  destruct (cut_cases _ _ _ _ E5) as [(l6 & -> & E6) | (l6 & N6 & C6)].
  2: { match goal with
       | |- context [UnmarshalGroupState (b1 ++ b2 ++ ?q)] =>
           destruct (Rgc (b2 ++ q)) as (gc' & Dgc & _);
           destruct (Rt q) as (t' & Dt & _)
       end.
       pose proof (readOpaqueVec_truncated _ _ _ F6 C6 N6) as R.
       cut_lengths C6 N6. located. fails_with R. }
  symmetry in E6.
  destruct (cut_cases _ _ _ _ E6) as [(l7 & -> & E7) | (l7 & N7 & C7)].
  2: { match goal with
       | |- context [UnmarshalGroupState (b1 ++ b2 ++ ?q)] =>
           destruct (Rgc (b2 ++ q)) as (gc' & Dgc & _);
           destruct (Rt q) as (t' & Dt & _)
       end.
       pose proof (ReadUint32_truncated _ _ _ C7 N7) as R.
       cut_lengths C7 N7. located. fails_with R. }
  symmetry in E7.
  destruct (cut_cases _ _ _ _ E7) as [(l8 & -> & E8) | (l8 & N8 & C8)].
  2: { match goal with
       | |- context [UnmarshalGroupState (b1 ++ b2 ++ ?q)] =>
           destruct (Rgc (b2 ++ q)) as (gc' & Dgc & _);
           destruct (Rt q) as (t' & Dt & _)
       end.
       pose proof (readVector_truncated
                     (@privTree_read) [] _ _ _ _ H8 C8 N8) as R.
       cut_lengths C8 N8. located. fails_with R. }
  symmetry in E8.
  destruct (cut_cases _ _ _ _ E8) as [(l9 & -> & E9) | (l9 & N9 & C9)].
  2: { match goal with
       | |- context [UnmarshalGroupState (b1 ++ b2 ++ ?q)] =>
           destruct (Rgc (b2 ++ q)) as (gc' & Dgc & _);
           destruct (Rt q) as (t' & Dt & _)
       end.
       pose proof (readOpaqueVec_truncated _ _ _ F9 C9 N9) as R.
       cut_lengths C9 N9. located. fails_with R. }
  symmetry in E9.
  destruct (cut_cases _ _ _ _ E9) as [(l10 & -> & E10) | (l10 & N10 & C10)].
  2: { match goal with
       | |- context [UnmarshalGroupState (b1 ++ b2 ++ ?q)] =>
           destruct (Rgc (b2 ++ q)) as (gc' & Dgc & _);
           destruct (Rt q) as (t' & Dt & _)
       end.
       pose proof (readVector_truncated
                     (@pendingProposals_read proposal _) [] _ _ _ _
                     H10 C10 N10) as R.
       cut_lengths C10 N10. located. fails_with R. }
  symmetry in E10. apply app_eq_nil in E10. destruct E10 as [_ E10].
  exfalso. exact (Hx E10).
Qed.

(** X7: a private key whose length prefix announces more bytes than the
    vector of the column holds is refused as an unexpected end of input,
    whatever follows the vector: an entry never reads past the vector it
    is in. *)
Theorem key_overrun_rejected (g : Group') (chunks : list bytes)
    (keys : list hpkePrivateKey) (kb : bytes) (n : Z) (k tail : bytes) :
  Forall2 (fun o b => o = Some b) (groupState_fields (state_of g)) chunks ->
  oconcat (map privKey_enc keys) = Some kb ->
  0 <= n < 2 ^ 30 -> Z.of_nat (length k) < n ->
  fits (kb ++ x01 :: varint_bytes n ++ k) ->
  UnmarshalGroupState'
    (concat (firstn 7 chunks)
     ++ opaque_bytes (kb ++ x01 :: varint_bytes n ++ k) ++ tail)
  = Fail (ErrWrap "unmarshal group state"
            (ErrWrap "unmarshal priv tree" ErrUnexpectedEOF)).
Proof.
  intros HF Hkb Hn Hk Hfit. apply fields_chunks in HF.
  destruct HF as (b1 & b2 & b8 & b10 & -> & H1 & H2 & F3 & F4 & F5 & F6 &
                  H8 & F9 & H10).
  cbn [firstn concat]. rewrite <- ?app_assoc. cbn [app].
  apply UnmarshalGroupState_Fail. unfold groupState_unmarshal.
  match goal with
  | |- context [unmarshal_of (b1 ++ ?r)] =>
      destruct (groupContext_reread _ b1 r H1) as (gc' & Dgc & _)
  end.
  rewrite Dgc. cbn [wrapO bindO].
  match goal with
  | |- context [unmarshal_of (b2 ++ ?r)] =>
      destruct (ratchetTree_reread _ b2 r H2) as (t' & Dt & _)
  end.
  rewrite Dt. cbn [wrapO bindO].
  do 4 (rewrite readOpaqueVec_bytes by assumption; cbn [orEOF bindO]).
  rewrite ReadUint32_bytes by apply uint32_range. cbn [orEOF bindO].
  rewrite (readVector_ext _ _ privTree_read_push).
  rewrite (readVector_fail privKey_enc privKey_dec keys ErrUnexpectedEOF
             kb (x01 :: varint_bytes n ++ k)).
  - reflexivity.
  - intros key bs _ Hb. split; [exact (privKey_enc_nonempty key bs Hb)|].
    intros r. exists key. apply privKey_enc_dec. exact Hb.
  - exact Hkb.
  - discriminate.
  - apply privKey_dec_overrun; assumption.
  - exact Hfit.
Qed.

(** X8: an entry of the private-key column whose presence flag is
    neither 0 nor 1 is refused, as an unexpected end of input of the
    column, whatever follows. *)
Theorem invalid_flag_rejected (g : Group') (chunks : list bytes)
    (keys : list hpkePrivateKey) (kb : bytes) (flag : byte)
    (after tail : bytes) :
  Forall2 (fun o b => o = Some b) (groupState_fields (state_of g)) chunks ->
  oconcat (map privKey_enc keys) = Some kb ->
  flag <> x00 -> flag <> x01 ->
  fits (kb ++ flag :: after) ->
  UnmarshalGroupState'
    (concat (firstn 7 chunks) ++ opaque_bytes (kb ++ flag :: after) ++ tail)
  = Fail (ErrWrap "unmarshal group state"
            (ErrWrap "unmarshal priv tree" ErrUnexpectedEOF)).
Proof.
  intros HF Hkb Hf0 Hf1 Hfit. apply fields_chunks in HF.
  destruct HF as (b1 & b2 & b8 & b10 & -> & H1 & H2 & F3 & F4 & F5 & F6 &
                  H8 & F9 & H10).
  cbn [firstn concat]. rewrite <- ?app_assoc. cbn [app].
  apply UnmarshalGroupState_Fail. unfold groupState_unmarshal.
  match goal with
  | |- context [unmarshal_of (b1 ++ ?r)] =>
      destruct (groupContext_reread _ b1 r H1) as (gc' & Dgc & _)
  end.
  rewrite Dgc. cbn [wrapO bindO].
  match goal with
  | |- context [unmarshal_of (b2 ++ ?r)] =>
      destruct (ratchetTree_reread _ b2 r H2) as (t' & Dt & _)
  end.
  rewrite Dt. cbn [wrapO bindO].
  do 4 (rewrite readOpaqueVec_bytes by assumption; cbn [orEOF bindO]).
  rewrite ReadUint32_bytes by apply uint32_range. cbn [orEOF bindO].
  rewrite (readVector_ext _ _ privTree_read_push).
  rewrite (readVector_fail privKey_enc privKey_dec keys ErrUnexpectedEOF
             kb (flag :: after)).
  - reflexivity.
  - intros key bs _ Hb. split; [exact (privKey_enc_nonempty key bs Hb)|].
    intros r. exists key. apply privKey_enc_dec. exact Hb.
  - exact Hkb.
  - discriminate.
  - apply privKey_dec_bad_flag; assumption.
  - exact Hfit.
Qed.

Section RereadAll.

Hypothesis proposal_reread : reread_law proposal.

(** X9: no output of [Marshal] is the start of a longer one: where one
    persisted group ends is decided by its own bytes. *)
Theorem Marshal_prefix_free (g1 g2 : Group') (d1 extra : bytes) :
  Marshal g1 = inr d1 -> Marshal g2 = inr (d1 ++ extra) -> extra = [].
Proof.
  intros H1 H2.
  destruct (reread_groupState groupContext_writer ratchetTree_writer
              proposal_writer groupContext_reread ratchetTree_reread
              proposal_reread g1 d1 extra H1) as (gs1 & D1 & _).
  destruct (reread_groupState groupContext_writer ratchetTree_writer
              proposal_writer groupContext_reread ratchetTree_reread
              proposal_reread g2 (d1 ++ extra) [] H2) as (gs2 & D2 & _).
  rewrite app_nil_r, D1 in D2. injection D2 as _ E. exact E.
Qed.

(** X10: the fields that group_state.go encodes itself come back byte for
    byte, whatever the codecs of the three components do to their values:
    the four secrets, the interim transcript hash, the signature key, and
    the references of the pending proposals, in their order. *)
Theorem byte_fields_restored (g : Group') (data : bytes) :
  Marshal g = inr data ->
  exists g',
    UnmarshalGroupState' data = Done g' /\
    g_interimTranscriptHash g' = g_interimTranscriptHash g /\
    g_pskSecret g' = g_pskSecret g /\
    g_epochSecret g' = g_epochSecret g /\
    g_initSecret g' = g_initSecret g /\
    g_signaturePriv g' = g_signaturePriv g /\
    map pp_ref (g_pendingProposals g') = map pp_ref (g_pendingProposals g).
Proof.
  intros H.
  destruct (reread_groupState groupContext_writer ratchetTree_writer
              proposal_writer groupContext_reread ratchetTree_reread
              proposal_reread g data [] H) as (gs' & Hd & Hr).
  rewrite app_nil_r in Hd. exists (group_of gs').
  destruct Hr as (_ & _ & H3 & H4 & H5 & H6 & _ & _ & H9 & H10).
  cbn [state_of gs_interimTranscriptHash gs_pskSecret gs_epochSecret
       gs_initSecret gs_signaturePriv gs_pendingProposals] in *.
  cbn [group_of g_interimTranscriptHash g_pskSecret g_epochSecret
       g_initSecret g_signaturePriv g_pendingProposals].
  split; [|repeat split; try assumption].
  - apply UnmarshalGroupState_Done. exists gs'. split; [exact Hd | reflexivity].
  - induction H10 as [|pp pp' pps pps' (Hr & _) _ IH]; [reflexivity|].
    cbn [map]. rewrite Hr, IH. reflexivity.
Qed.

(** X11: the loop over the pending proposals stops at the first one that
    is refused and hands up its error unchanged, under the two labels
    "unmarshal group state" and "unmarshal pending proposals"; what comes
    behind in the vector and behind the vector is not looked at. *)
Theorem proposal_error_surfaces (g : Group') (chunks : list bytes)
    (pps : list pendingProposal') (pb bad tail : bytes) (e : error) :
  Forall2 (fun o b => o = Some b) (groupState_fields (state_of g)) chunks ->
  oconcat (map pendingProposal_enc pps) = Some pb ->
  bad <> [] ->
  pendingProposal_unmarshal bad = @Fail (pendingProposal' * String) e ->
  fits (pb ++ bad) ->
  UnmarshalGroupState'
    (concat (firstn 9 chunks) ++ opaque_bytes (pb ++ bad) ++ tail)
  = Fail (ErrWrap "unmarshal group state"
            (ErrWrap "unmarshal pending proposals" e)).
Proof.
  intros HF Hpb Hne Hbad Hfit. apply fields_chunks in HF.
  destruct HF as (b1 & b2 & b8 & b10 & -> & H1 & H2 & F3 & F4 & F5 & F6 &
                  H8 & F9 & H10).
  cbn [firstn concat]. rewrite <- ?app_assoc. cbn [app].
  apply UnmarshalGroupState_Fail. unfold groupState_unmarshal.
  match goal with
  | |- context [unmarshal_of (b1 ++ ?r)] =>
      destruct (groupContext_reread _ b1 r H1) as (gc' & Dgc & _)
  end.
  rewrite Dgc. cbn [wrapO bindO].
  match goal with
  | |- context [unmarshal_of (b2 ++ ?r)] =>
      destruct (ratchetTree_reread _ b2 r H2) as (t' & Dt & _)
  end.
  rewrite Dt. cbn [wrapO bindO].
  do 4 (rewrite readOpaqueVec_bytes by assumption; cbn [orEOF bindO]).
  rewrite ReadUint32_bytes by apply uint32_range. cbn [orEOF bindO].
  rewrite (privTree_reread _ _ _ H8). cbn [wrapO bindO].
  rewrite readOpaqueVec_bytes by assumption. cbn [orEOF bindO].
  rewrite (readVector_ext _ _ pendingProposals_read_push).
  rewrite (readVector_fail pendingProposal_enc pendingProposal_unmarshal pps
             e pb bad).
  - reflexivity.
  - intros pp bs _ Hb.
    pose proof (fun r => pendingProposal_roundtrip (fun _ => True) same_wire
                  (fun x bs r _ => proposal_reread x bs r) pp bs r I Hb) as P.
    split; [exact (proj1 (P [])) | intros r].
    destruct (proj2 (P r)) as (pp' & Hd & _). exists pp'. exact Hd.
  - exact Hpb.
  - exact Hne.
  - exact Hbad.
  - exact Hfit.
Qed.

End RereadAll.

End RereadFields.

Section CanonicalStreams.

Hypothesis groupContext_canonical : canonical_law groupContext.
Hypothesis ratchetTree_canonical : canonical_law ratchetTree.
Hypothesis proposal_canonical : canonical_law proposal.

(** X12: [UnmarshalGroupState] is injective: two different inputs are
    never restored to the same group. *)
Theorem UnmarshalGroupState_injective (d1 d2 : bytes) (g : Group') :
  UnmarshalGroupState' d1 = Done g -> UnmarshalGroupState' d2 = Done g ->
  d1 = d2.
Proof.
  intros H1 H2.
  apply UnmarshalGroupState_Done in H1, H2.
  destruct H1 as (gs1 & D1 & E1), H2 as (gs2 & D2 & E2).
  assert (E : gs1 = gs2).
  { rewrite <- (state_of_group_of gs1), <- (state_of_group_of gs2).
    rewrite <- E1, <- E2. reflexivity. }
  subst gs2.
  apply (groupState_canon groupContext_canonical ratchetTree_canonical
           proposal_canonical) in D1, D2.
  destruct D1 as (x1 & K1 & ->), D2 as (x2 & K2 & ->).
  rewrite K1 in K2. injection K2 as <-. reflexivity.
Qed.

End CanonicalStreams.

End Streams.

(** *** Errors *)

Lemma pendingProposal_unmarshal_Fail (s : bytes) (e : error) :
  @pendingProposal_unmarshal proposal _ s = Fail e ->
  e = ErrUnexpectedEOF \/ exists s', @unmarshal_of proposal _ s' = Fail e.
Proof.
  unfold pendingProposal_unmarshal.
  destruct (readOpaqueVec s) as [[ref s1]|]; cbn [orEOF bindO];
    [|intros [= <-]; left; reflexivity].
  destruct (@unmarshal_of proposal _ s1) as [[prop s2]|e1|] eqn:E;
    cbn [bindO]; [|intros [= <-]; right; exists s1; exact E|discriminate].
  destruct (ReadUint32 s2) as [[sd s3]|]; cbn [orEOF bindO];
    [discriminate | intros [= <-]; left; reflexivity].
Qed.

(** X13: every error of [UnmarshalGroupState] is wrapped as
    "unmarshal group state" and is one of: the error of the group context
    or of the ratchet tree under its own label, a bare
    [io.ErrUnexpectedEOF] (a byte string or the leaf index), the same under
    "unmarshal priv tree" - the private-key column fails in no other way -,
    under "unmarshal pending proposals" that or the error of a proposal,
    or the count of bytes left over, which is then not zero. *)
Theorem UnmarshalGroupState_errors (data : bytes) (e : error) :
  UnmarshalGroupState' data = Fail e ->
  exists e', e = ErrWrap "unmarshal group state" e' /\
    ((exists e0 s, e' = ErrWrap "unmarshal group context" e0 /\
                   @unmarshal_of groupContext _ s = Fail e0) \/
     (exists e0 s, e' = ErrWrap "unmarshal ratchet tree" e0 /\
                   @unmarshal_of ratchetTree _ s = Fail e0) \/
     e' = ErrUnexpectedEOF \/
     e' = ErrWrap "unmarshal priv tree" ErrUnexpectedEOF \/
     e' = ErrWrap "unmarshal pending proposals" ErrUnexpectedEOF \/
     (exists e0 s, e' = ErrWrap "unmarshal pending proposals" e0 /\
                   @unmarshal_of proposal _ s = Fail e0) \/
     (exists n, e' = ErrExcessBytes (S n))).
Proof.
  unfold UnmarshalGroupState, unmarshal, unmarshal_of.
  destruct (groupState_unmarshal' data) as [[gs rest]|e'|] eqn:G;
    cbn [bindO wrapO fst snd]; [| |discriminate].
  { destruct rest as [|b0 rest]; cbn [Empty bindO wrapO]; [discriminate|].
    intros [= <-]. eexists. split; [reflexivity|].
    do 6 right. exists (length rest). reflexivity. }
  intros [= <-]. exists e'. split; [reflexivity|].
  revert G. unfold groupState_unmarshal.
  destruct (@unmarshal_of groupContext _ data) as [[gc s1]|e1|] eqn:E1;
    cbn [wrapO bindO]; [| |discriminate].
  2: { intros [= <-]. left. exists e1, data. split; [reflexivity | exact E1]. }
  destruct (@unmarshal_of ratchetTree _ s1) as [[tree s2]|e2|] eqn:E2;
    cbn [wrapO bindO]; [| |discriminate].
  2: { intros [= <-]. right. left. exists e2, s1.
       split; [reflexivity | exact E2]. }
  destruct (readOpaqueVec s2) as [[ith s3]|]; cbn [orEOF bindO];
    [|intros [= <-]; auto].
  destruct (readOpaqueVec s3) as [[psk s4]|]; cbn [orEOF bindO];
    [|intros [= <-]; auto].
  destruct (readOpaqueVec s4) as [[eps s5]|]; cbn [orEOF bindO];
    [|intros [= <-]; auto].
  destruct (readOpaqueVec s5) as [[ins s6]|]; cbn [orEOF bindO];
    [|intros [= <-]; auto].
  destruct (ReadUint32 s6) as [[leaf s7]|]; cbn [orEOF bindO];
    [|intros [= <-]; auto].
  destruct (readVector privTree_read [] s7) as [[pt s8]|e8|] eqn:E8;
    cbn [wrapO bindO]; [| |discriminate].
  2: { intros [= <-]. do 3 right. left. f_equal.
       apply readVector_Fail in E8. destruct E8 as [->|(st & s0 & E8)];
         [reflexivity|].
       rewrite privTree_read_push in E8. apply push_Fail in E8.
       exact (privKey_dec_Fail _ _ E8). }
  destruct (readOpaqueVec s8) as [[sig s9]|]; cbn [orEOF bindO];
    [|intros [= <-]; auto].
  destruct (readVector pendingProposals_read [] s9) as [[pps s10]|e10|] eqn:E10;
    cbn [wrapO bindO]; [discriminate| |discriminate].
  intros [= <-].
  apply readVector_Fail in E10. destruct E10 as [->|(st & s0 & E10)].
  { do 4 right. left. reflexivity. }
  rewrite pendingProposals_read_push in E10. apply push_Fail in E10.
  apply pendingProposal_unmarshal_Fail in E10.
  destruct E10 as [->|(s' & E10)].
  - do 4 right. left. reflexivity.
  - do 5 right. left. exists e10, s'. split; [reflexivity | exact E10].
Qed.

(** *** Bounds *)

(** X14: an input of fewer than eleven bytes is never accepted - so not
    the empty one: behind the context and the tree come four byte
    strings, the leaf index, two vectors and the signature key, of one,
    four and one byte at least. *)
Theorem short_input_rejected (data : bytes) (g : Group') :
  (forall s x rest, @unmarshal_of groupContext _ s = Done (x, rest) ->
     (length rest <= length s)%nat) ->
  (forall s x rest, @unmarshal_of ratchetTree _ s = Done (x, rest) ->
     (length rest <= length s)%nat) ->
  (length data < 11)%nat ->
  UnmarshalGroupState' data <> Done g.
Proof.
  intros L1 L2 Hlen H. apply UnmarshalGroupState_Done in H.
  destruct H as (gs & H & _). revert H. unfold groupState_unmarshal.
  destruct (@unmarshal_of groupContext _ data) as [[gc s1]| |] eqn:E1;
    cbn [wrapO bindO]; try discriminate.
  destruct (@unmarshal_of ratchetTree _ s1) as [[tree s2]| |] eqn:E2;
    cbn [wrapO bindO]; try discriminate.
  destruct (readOpaqueVec s2) as [[ith s3]|] eqn:E3; cbn [orEOF bindO];
    [|discriminate].
  destruct (readOpaqueVec s3) as [[psk s4]|] eqn:E4; cbn [orEOF bindO];
    [|discriminate].
  destruct (readOpaqueVec s4) as [[eps s5]|] eqn:E5; cbn [orEOF bindO];
    [|discriminate].
  destruct (readOpaqueVec s5) as [[ins s6]|] eqn:E6; cbn [orEOF bindO];
    [|discriminate].
  destruct (ReadUint32 s6) as [[leaf s7]|] eqn:E7; cbn [orEOF bindO];
    [|discriminate].
  destruct (readVector privTree_read [] s7) as [[pt s8]| |] eqn:E8;
    cbn [wrapO bindO]; try discriminate.
  destruct (readOpaqueVec s8) as [[sig s9]|] eqn:E9; cbn [orEOF bindO];
    [|discriminate].
  destruct (readVector pendingProposals_read [] s9) as [[pps s10]| |] eqn:E10;
    cbn [wrapO bindO]; try discriminate.
  intros _.
  apply L1 in E1. apply L2 in E2.
  apply readOpaqueVec_consumes in E3, E4, E5, E6, E9.
  apply ReadUint32_consumes in E7.
  apply readVector_consumes in E8, E10. lia.
Qed.

(** X15: what [UnmarshalGroupState] returns can be written again as far as
    group_state.go is concerned: the leaf index and every sender are
    32-bit values, and every byte string - the secrets, the keys of the
    column, the references of the proposals - is shorter than 2^30
    bytes. *)
Theorem restored_group_in_bounds (data : bytes) (g : Group') :
  UnmarshalGroupState' data = Done g ->
  is_uint32 (g_myLeafIndex g) /\
  Forall (fun pp => is_uint32 (pp_sender pp)) (g_pendingProposals g) /\
  fits (g_interimTranscriptHash g) /\ fits (g_pskSecret g) /\
  fits (g_epochSecret g) /\ fits (g_initSecret g) /\
  fits (g_signaturePriv g) /\
  Forall (fun key => match key with Some k => fits k | None => True end)
    (g_privTree g) /\
  Forall (fun pp => fits (pp_ref pp)) (g_pendingProposals g).
Proof.
  intros H. apply UnmarshalGroupState_Done in H.
  destruct H as (gs & H & ->). revert H. unfold groupState_unmarshal.
  destruct (@unmarshal_of groupContext _ data) as [[gc s1]| |];
    cbn [wrapO bindO]; try discriminate.
  destruct (@unmarshal_of ratchetTree _ s1) as [[tree s2]| |];
    cbn [wrapO bindO]; try discriminate.
  destruct (readOpaqueVec s2) as [[ith s3]|] eqn:E3; cbn [orEOF bindO];
    [|discriminate].
  destruct (readOpaqueVec s3) as [[psk s4]|] eqn:E4; cbn [orEOF bindO];
    [|discriminate].
  destruct (readOpaqueVec s4) as [[eps s5]|] eqn:E5; cbn [orEOF bindO];
    [|discriminate].
  destruct (readOpaqueVec s5) as [[ins s6]|] eqn:E6; cbn [orEOF bindO];
    [|discriminate].
  destruct (ReadUint32 s6) as [[leaf s7]|] eqn:E7; cbn [orEOF bindO];
    [|discriminate].
  rewrite (readVector_ext _ _ privTree_read_push).
  destruct (readVector (push privKey_dec) [] s7) as [[pt s8]| |] eqn:E8;
    cbn [wrapO bindO]; try discriminate.
  destruct (readOpaqueVec s8) as [[sig s9]|] eqn:E9; cbn [orEOF bindO];
    [|discriminate].
  rewrite (readVector_ext _ _ pendingProposals_read_push).
  destruct (readVector (push pendingProposal_unmarshal) [] s9)
    as [[pps s10]| |] eqn:E10; cbn [wrapO bindO]; try discriminate.
  intros [= <-].
  cbn [group_of g_myLeafIndex g_pendingProposals g_interimTranscriptHash
       g_pskSecret g_epochSecret g_initSecret g_signaturePriv g_privTree
       gs_myLeafIndex gs_pendingProposals gs_interimTranscriptHash
       gs_pskSecret gs_epochSecret gs_initSecret gs_signaturePriv gs_privTree].
  apply readOpaqueVec_canon in E3, E4, E5, E6, E9.
  apply ReadUint32_canon in E7.
  assert (Hpp : Forall (fun pp : pendingProposal' =>
                          is_uint32 (pp_sender pp) /\ fits (pp_ref pp)) pps).
  { apply (readVector_Forall pendingProposal_unmarshal _ s9 pps s10);
      [|exact E10].
    intros s pp rest. unfold pendingProposal_unmarshal.
    destruct (readOpaqueVec s) as [[ref r1]|] eqn:R1; cbn [orEOF bindO];
      [|discriminate].
    destruct (@unmarshal_of proposal _ r1) as [[prop r2]| |];
      cbn [bindO]; try discriminate.
    destruct (ReadUint32 r2) as [[sd r3]|] eqn:R3; cbn [orEOF bindO];
      [|discriminate].
    intros [= <- _]. cbn [pp_sender pp_ref].
    apply readOpaqueVec_canon in R1. apply ReadUint32_canon in R3.
    split; [exact (proj1 R3) | exact (proj1 R1)]. }
  repeat split; try (apply E3 || apply E4 || apply E5 || apply E6 ||
                     apply E7 || apply E9).
  - apply (Forall_impl _ (fun pp H => proj1 H) Hpp).
  - exact (readVector_Forall privKey_dec _ s7 pt s8 privKey_dec_fits E8).
  - apply (Forall_impl _ (fun pp H => proj2 H) Hpp).
Qed.

(** *** The two loops *)

(** X16: [UnmarshalGroupState] returns on every input, a group or an
    error: each round of the two loops [for !vec.Empty()] takes at least
    one byte off the vector - the flag of a key, the length prefix of a
    reference - so neither runs on, provided the readers of the components
    return and the reader of a proposal hands on no more than it got. *)
Theorem UnmarshalGroupState_returns (data : bytes) :
  total_law groupContext -> total_law ratchetTree -> total_law proposal ->
  (forall s x rest, @unmarshal_of proposal _ s = Done (x, rest) ->
     (length rest <= length s)%nat) ->
  (exists g, UnmarshalGroupState' data = Done g) \/
  (exists e, UnmarshalGroupState' data = Fail e).
Proof.
  intros T1 T2 T3 L3.
  assert (T : groupState_unmarshal' data <> OutOfFuel).
  { unfold groupState_unmarshal. specialize (T1 data).
    destruct (@unmarshal_of groupContext _ data) as [[gc s1]| |];
      cbn [wrapO bindO]; [|discriminate|congruence].
    specialize (T2 s1).
    destruct (@unmarshal_of ratchetTree _ s1) as [[tree s2]| |];
      cbn [wrapO bindO]; [|discriminate|congruence].
    destruct (readOpaqueVec s2) as [[ith s3]|]; cbn [orEOF bindO];
      [|discriminate].
    destruct (readOpaqueVec s3) as [[psk s4]|]; cbn [orEOF bindO];
      [|discriminate].
    destruct (readOpaqueVec s4) as [[eps s5]|]; cbn [orEOF bindO];
      [|discriminate].
    destruct (readOpaqueVec s5) as [[ins s6]|]; cbn [orEOF bindO];
      [|discriminate].
    destruct (ReadUint32 s6) as [[leaf s7]|]; cbn [orEOF bindO];
      [|discriminate].
    rewrite (readVector_ext _ _ privTree_read_push).
    assert (V1 : readVector (push privKey_dec) [] s7 <> OutOfFuel).
    { apply readVector_total; [exact privKey_dec_total|].
      intros s0 key r D. apply privKey_dec_canon in D.
      destruct D as (bs & Hk & ->). apply privKey_enc_nonempty in Hk.
      rewrite length_app. destruct bs; [congruence | cbn [length]; lia]. }
    destruct (readVector (push privKey_dec) [] s7) as [[pt s8]| |];
      cbn [wrapO bindO]; [|discriminate|congruence].
    destruct (readOpaqueVec s8) as [[sig s9]|]; cbn [orEOF bindO];
      [|discriminate].
    rewrite (readVector_ext _ _ pendingProposals_read_push).
    assert (V2 : readVector (push pendingProposal_unmarshal) [] s9
                 <> OutOfFuel).
    { apply readVector_total.
      - intros s0. unfold pendingProposal_unmarshal.
        destruct (readOpaqueVec s0) as [[ref r1]|]; cbn [orEOF bindO];
          [|discriminate].
        specialize (T3 r1).
        destruct (@unmarshal_of proposal _ r1) as [[prop r2]| |];
          cbn [bindO]; [|discriminate|congruence].
        destruct (ReadUint32 r2) as [[sd r3]|]; cbn; discriminate.
      - intros s0 pp r. unfold pendingProposal_unmarshal.
        destruct (readOpaqueVec s0) as [[ref r1]|] eqn:R1; cbn [orEOF bindO];
          [|discriminate].
        destruct (@unmarshal_of proposal _ r1) as [[prop r2]| |] eqn:R2;
          cbn [bindO]; try discriminate.
        destruct (ReadUint32 r2) as [[sd r3]|] eqn:R3; cbn [orEOF bindO];
          [|discriminate].
        intros [= _ <-].
        apply readOpaqueVec_consumes in R1. apply L3 in R2.
        apply ReadUint32_consumes in R3. lia. }
    destruct (readVector (push pendingProposal_unmarshal) [] s9)
      as [[pps s10]| |]; cbn [wrapO bindO]; [|discriminate|congruence].
    discriminate. }
  unfold UnmarshalGroupState, unmarshal, unmarshal_of.
  destruct (groupState_unmarshal' data) as [[gs rest]|e|];
    cbn [bindO wrapO fst snd]; [| |congruence].
  - destruct (Empty rest); cbn [bindO wrapO]; [left | right]; eexists;
      reflexivity.
  - right. eexists. reflexivity.
Qed.

(** X17: [Marshal] never indexes a slice out of range: the callbacks of
    both vectors are run for the indices of the slice they read, so the
    error that stands for the run-time panic of [gs.privTree[i]] and of
    [gs.pendingProposals[i]] is never returned, given that the writers of
    the components do not raise it. *)
Theorem Marshal_index_in_range (g : Group') :
  (forall (x : groupContext) b, err b <> Some ErrIndexOutOfRange ->
     err (marshal_of x b) <> Some ErrIndexOutOfRange) ->
  (forall (x : ratchetTree) b, err b <> Some ErrIndexOutOfRange ->
     err (marshal_of x b) <> Some ErrIndexOutOfRange) ->
  (forall (x : proposal) b, err b <> Some ErrIndexOutOfRange ->
     err (marshal_of x b) <> Some ErrIndexOutOfRange) ->
  Marshal g <> inl ErrIndexOutOfRange.
Proof.
  intros W1 W2 W3.
  assert (H : err (groupState_marshal (state_of g) newBuilder)
              <> Some ErrIndexOutOfRange).
  { unfold groupState_marshal.
    apply writeVector_no_index_error.
    - apply writeOpaqueVec_no_index_error.
      apply writeVector_no_index_error.
      + unfold AddUint32. apply add_no_index_error.
        do 4 apply writeOpaqueVec_no_index_error.
        apply W2, W1. discriminate.
      + apply privTree_write_no_index_error.
    - apply (fold_no_index_error (gs_pendingProposals (state_of g)));
        [|apply seq_within|discriminate].
      intros b i pp E Hb. unfold pendingProposals_write. rewrite E.
      unfold pendingProposal_marshal, AddUint32.
      apply add_no_index_error, W3, writeOpaqueVec_no_index_error. exact Hb. }
  unfold Marshal, Group_Marshal, marshal, marshal_of, Bytes. cbn [snd].
  fold (state_of g).
  destruct (err (groupState_marshal (state_of g) newBuilder)) as [e|];
    [congruence | discriminate].
Qed.

End Further.

(** ** [Marshal] and the memory of the group *)

Section Frame.

Context {groupContext ratchetTree proposal : Type}.

#[local] Set Warnings "-notation-for-abbreviation".
Local Notation St' := (@St groupContext ratchetTree proposal).
Local Notation Heap' := (Heap groupContext ratchetTree proposal).

Lemma reads_ret {A : Type} (a : A) : reads (ret a : St' A).
Proof. intros h. reflexivity. Qed.

Lemma reads_bind {A B : Type} (m : St' A) (k : A -> St' B) :
  reads m -> (forall a, reads (k a)) -> reads (bind m k).
Proof.
  intros Hm Hk h. unfold bind. specialize (Hm h).
  destruct (m h) as [a h1]. cbn [snd] in Hm. subst h1. apply Hk.
Qed.

Lemma reads_load_bytes (s : slice) : reads (load_bytes s : St' bytes).
Proof. intros h. reflexivity. Qed.

Lemma reads_load_keys (s : slice) : reads (load_keys s : St' (list slice)).
Proof. intros h. reflexivity. Qed.

Lemma reads_load_proposals (s : slice) :
  reads (load_proposals s : St' (list pendingProposal_mem)).
Proof. intros h. reflexivity. Qed.

Lemma reads_writeOpaqueVec_at (b : Builder) (value : slice) :
  reads (writeOpaqueVec_at b value : St' Builder).
Proof.
  apply reads_bind; [apply reads_load_bytes | intros v; apply reads_ret].
Qed.

(** A loop of callbacks that only read only reads. *)
Lemma reads_writeVector_loop (f : Builder -> nat -> St' Builder)
    (l : list nat) :
  (forall b i, In i l -> reads (f b i)) ->
  forall child, reads (writeVector_loop f l child).
Proof.
  induction l as [|i l IH]; intros Hf child; cbn [writeVector_loop].
  - apply reads_ret.
  - apply reads_bind.
    + apply Hf. left. reflexivity.
    + intros child'. apply IH. intros b j Hj. apply Hf. right. exact Hj.
Qed.

Lemma reads_writeVector_at (b : Builder) (n : nat)
    (f : Builder -> nat -> St' Builder) :
  (forall b i, (i < n)%nat -> reads (f b i)) ->
  reads (writeVector_at b n f).
Proof.
  intros Hf. apply reads_bind.
  - apply reads_writeVector_loop. intros c i Hi. apply Hf.
    apply in_seq in Hi. lia.
  - intros child. apply reads_ret.
Qed.

Lemma reads_privTree_write_at (privTree : slice) (b : Builder) (i : nat) :
  reads (privTree_write_at privTree b i : St' Builder).
Proof.
  apply reads_bind; [apply reads_load_keys|]. intros arr.
  destruct (nth_error arr i) as [key|]; [|apply reads_ret].
  destruct (slice_present key);
    [apply reads_writeOpaqueVec_at | apply reads_ret].
Qed.

Section Methods.

Variable groupContext_marshal_at : groupContext -> Builder -> St' Builder.
Variable ratchetTree_marshal_at : ratchetTree -> Builder -> St' Builder.
Variable proposal_marshal_at : addr -> Builder -> St' Builder.

(** The [marshal] methods of the three components leave the memory as
    they find it. *)
Hypothesis groupContext_reads :
  forall x b, reads (groupContext_marshal_at x b).
Hypothesis ratchetTree_reads :
  forall x b, reads (ratchetTree_marshal_at x b).
Hypothesis proposal_reads :
  forall p b, reads (proposal_marshal_at p b).

Lemma reads_pendingProposal_marshal_at (pps : slice) (i : nat) (b : Builder) :
  reads (pendingProposal_marshal_at proposal_marshal_at pps i b).
Proof.
  unfold pendingProposal_marshal_at.
  apply reads_bind; [apply reads_load_proposals|]. intros arr1.
  destruct (nth_error arr1 i) as [pp1|]; [|apply reads_ret].
  apply reads_bind; [apply reads_writeOpaqueVec_at|]. intros b1.
  apply reads_bind; [apply reads_load_proposals|]. intros arr2.
  destruct (nth_error arr2 i) as [pp2|]; [|apply reads_ret].
  apply reads_bind; [apply proposal_reads|]. intros b2.
  apply reads_bind; [apply reads_load_proposals|]. intros arr3.
  destruct (nth_error arr3 i) as [pp3|]; apply reads_ret.
Qed.

Lemma reads_groupState_marshal_at
    (gs : groupState_mem groupContext ratchetTree) (b : Builder) :
  reads (groupState_marshal_at groupContext_marshal_at ratchetTree_marshal_at
           proposal_marshal_at gs b).
Proof.
  unfold groupState_marshal_at.
  apply reads_bind; [apply groupContext_reads|]. intros b1.
  apply reads_bind; [apply ratchetTree_reads|]. intros b2.
  apply reads_bind; [apply reads_writeOpaqueVec_at|]. intros b3.
  apply reads_bind; [apply reads_writeOpaqueVec_at|]. intros b4.
  apply reads_bind; [apply reads_writeOpaqueVec_at|]. intros b5.
  apply reads_bind; [apply reads_writeOpaqueVec_at|]. intros b6.
  apply reads_bind; [apply reads_load_keys|]. intros keys.
  apply reads_bind.
  { apply reads_writeVector_at. intros c i _. apply reads_privTree_write_at. }
  intros b8.
  apply reads_bind; [apply reads_writeOpaqueVec_at|]. intros b9.
  apply reads_bind; [apply reads_load_proposals|]. intros pps.
  apply reads_writeVector_at. intros c i _.
  apply reads_pendingProposal_marshal_at.
Qed.


End Methods.

(** *** The bytes are those of [Marshal] on the value of the group *)

Section Refines.

Context {groupContext_marshal : marshaler groupContext}
        {ratchetTree_marshal : marshaler ratchetTree}
        {proposal_marshal : marshaler proposal}.

Variable groupContext_marshal_at : groupContext -> Builder -> St' Builder.
Variable ratchetTree_marshal_at : ratchetTree -> Builder -> St' Builder.
Variable proposal_marshal_at : addr -> Builder -> St' Builder.

(** The methods of the components write what [marshal_of] writes, of the
    value they are handed or pointed to, and leave the memory as it is. *)
Hypothesis groupContext_at : forall x b h,
  groupContext_marshal_at x b h = (marshal_of x b, h).
Hypothesis ratchetTree_at : forall x b h,
  ratchetTree_marshal_at x b h = (marshal_of x b, h).
Hypothesis proposal_at : forall p x b h,
  nth_error (proposal_objects h) p = Some x ->
  proposal_marshal_at p b h = (marshal_of x b, h).

Lemma bind_pure {A B : Type} (m : St' A) (k : A -> St' B) (h : Heap') (a : A) :
  m h = (a, h) -> bind m k h = k a h.
Proof. intros H. unfold bind. rewrite H. reflexivity. Qed.

Lemma writeOpaqueVec_at_pure (b : Builder) (value : slice) (h : Heap') :
  writeOpaqueVec_at b value h = (writeOpaqueVec b (bytes_at h value), h).
Proof. reflexivity. Qed.

Lemma writeVector_loop_pure (f_at : Builder -> nat -> St' Builder)
    (f : Builder -> nat -> Builder) (h : Heap') (l : list nat) :
  (forall b i, In i l -> f_at b i h = (f b i, h)) ->
  forall child, writeVector_loop f_at l child h = (fold_left f l child, h).
Proof.
  induction l as [|i l IH]; intros Hf child; cbn [writeVector_loop fold_left].
  - reflexivity.
  - rewrite (bind_pure _ _ h (f child i)) by (apply Hf; left; reflexivity).
    apply IH. intros b j Hj. apply Hf. right. exact Hj.
Qed.

Lemma writeVector_at_pure (f_at : Builder -> nat -> St' Builder)
    (f : Builder -> nat -> Builder) (b : Builder) (n : nat) (h : Heap') :
  (forall b i, (i < n)%nat -> f_at b i h = (f b i, h)) ->
  writeVector_at b n f_at h = (writeVector b n f, h).
Proof.
  intros Hf. unfold writeVector_at.
  rewrite (bind_pure _ _ h (fold_left f (seq 0 n) newBuilder)).
  - reflexivity.
  - apply writeVector_loop_pure. intros c i Hi. apply Hf.
    apply in_seq in Hi. lia.
Qed.

Lemma privTree_write_at_pure (privTree : slice) (b : Builder) (i : nat)
    (h : Heap') :
  privTree_write_at privTree b i h
  = (privTree_write (map (key_at h) (keys_at h privTree)) b i, h).
Proof.
  unfold privTree_write_at, privTree_write.
  rewrite (bind_pure _ _ h (keys_at h privTree)) by reflexivity.
  rewrite nth_error_map.
  destruct (nth_error (keys_at h privTree) i) as [key|]; cbn [option_map];
    [|reflexivity].
  unfold key_at. destruct key as [|a]; cbn [slice_present key_present];
    reflexivity.
Qed.

Lemma pendingProposals_write_at_pure (pps : slice)
    (values : list (pendingProposal proposal)) (b : Builder) (i : nat)
    (h : Heap') :
  map (pendingProposal_at h) (proposals_at h pps)
    = map pendingProposal_pointed values ->
  pendingProposals_write_at proposal_marshal_at pps b i h
  = (pendingProposals_write values b i, h).
Proof.
  intros E. apply (f_equal (fun l => nth_error l i)) in E.
  rewrite !nth_error_map in E.
  unfold pendingProposals_write_at, pendingProposal_marshal_at,
    pendingProposals_write.
  rewrite (bind_pure _ _ h (proposals_at h pps)) by reflexivity.
  destruct (nth_error (proposals_at h pps) i) as [ppm|] eqn:Em,
           (nth_error values i) as [pp|]; cbn [option_map] in E;
    try discriminate; [|reflexivity].
  injection E as Eref Eprop Esender.
  rewrite (bind_pure _ _ h _ (writeOpaqueVec_at_pure b (ppm_ref ppm) h)).
  rewrite (bind_pure _ _ h (proposals_at h pps)) by reflexivity.
  rewrite Em.
  rewrite (bind_pure _ _ h _ (proposal_at _ _ _ h Eprop)).
  rewrite (bind_pure _ _ h (proposals_at h pps)) by reflexivity.
  rewrite Em. unfold ret, pendingProposal_marshal.
  rewrite Eref, Esender. reflexivity.
Qed.

(** Run on the memory, [Marshal] returns what [Marshal] returns on the
    value of the group. *)
Lemma Group_Marshal_at_refines (g : addr) (h : Heap')
    (G : Group groupContext ratchetTree proposal) :
  Group_at h g = Some (Group_pointed G) ->
  Group_Marshal_at groupContext_marshal_at ratchetTree_marshal_at
    proposal_marshal_at g h = (Some (Marshal G), h).
Proof.
  unfold Group_at, Group_Marshal_at.
  destruct (nth_error (group_objects h) g) as [Gm|]; [|discriminate].
  unfold Group_pointed. intros [= E1 E2 E3 E4 E5 E6 E7 E8 E9 E10].
  rewrite (bind_pure _ _ h (groupState_marshal (state_of G) newBuilder));
    [reflexivity|].
  unfold groupState_marshal_at, groupState_marshal.
  cbn [gsm_groupContext gsm_tree gsm_interimTranscriptHash gsm_pskSecret
       gsm_epochSecret gsm_initSecret gsm_myLeafIndex gsm_privTree
       gsm_signaturePriv gsm_pendingProposals
       state_of gs_groupContext gs_tree gs_interimTranscriptHash gs_pskSecret
       gs_epochSecret gs_initSecret gs_myLeafIndex gs_privTree
       gs_signaturePriv gs_pendingProposals].
  rewrite (bind_pure _ _ h _ (groupContext_at _ _ h)).
  rewrite (bind_pure _ _ h _ (ratchetTree_at _ _ h)).
  do 4 rewrite (bind_pure _ _ h _ (writeOpaqueVec_at_pure _ _ h)).
  rewrite (bind_pure _ _ h (keys_at h (gm_privTree Gm))) by reflexivity.
  rewrite (bind_pure _ _ h _
             (writeVector_at_pure _ _ _ _ h
                (fun b i _ => privTree_write_at_pure (gm_privTree Gm) b i h))).
  rewrite (bind_pure _ _ h _ (writeOpaqueVec_at_pure _ _ h)).
  rewrite (bind_pure _ _ h (proposals_at h (gm_pendingProposals Gm)))
    by reflexivity.
  rewrite (writeVector_at_pure _ _ _ _ h
             (fun b i _ => pendingProposals_write_at_pure
                             (gm_pendingProposals Gm)
                             (g_pendingProposals G) b i h E10)).
  rewrite <- (length_map (key_at h) (keys_at h (gm_privTree Gm))), E8.
  rewrite <- (length_map (pendingProposal_at h)
                (proposals_at h (gm_pendingProposals Gm))), E10.
  rewrite (length_map pendingProposal_pointed).
  rewrite E1, E2, E3, E4, E5, E6, E7, E9. reflexivity.
Qed.

End Refines.

End Frame.

(** ** The sample components satisfy what is asked of a codec *)

Import Sample.

Lemma marshal_emits {T : Type} {M : marshaler T} (x : T) (o : option bytes)
    (bs : bytes) :
  emits (marshal_of x) o -> (marshal x = inr bs <-> o = Some bs).
Proof.
  intros H. rewrite marshal_output, (emits_output _ _ H). reflexivity.
Qed.

Lemma same_wire_inr {T : Type} {M : marshaler T} (x x' : T) (bs : bytes) :
  marshal x = inr bs -> marshal x' = inr bs -> same_wire x x'.
Proof. unfold same_wire. congruence. Qed.

(** *** The context *)

Lemma sample_context_emits (c : Sample.context) :
  emits (Sample.context_marshal c) (Sample.context_enc c).
Proof.
  apply (emits_ext (fun b => fold_left (fun b w => w b)
    [ (fun b => writeOpaqueVec b (Sample.c_groupID c));
      (fun b => AddUint32 b (uint32 (Sample.c_epoch c)));
      (fun b => writeOpaqueVec b (Sample.c_treeHash c)) ] b)).
  - intros b. reflexivity.
  - unfold Sample.context_enc. apply emits_run.
    repeat apply Forall2_cons; try apply Forall2_nil.
    + apply emits_opaque.
    + apply emits_AddUint32.
    + apply emits_opaque.
Qed.

Lemma sample_context_writer : writer_law Sample.context.
Proof.
  intros c. exact (emits_appends _ _ (sample_context_emits c)).
Qed.

Lemma sample_context_read (c : Sample.context) (bs rest : bytes) :
  Sample.context_enc c = Some bs ->
  Sample.context_unmarshal (bs ++ rest) =
  Done (Sample.mkContext (Sample.c_groupID c) (uint32 (Sample.c_epoch c))
          (Sample.c_treeHash c), rest).
Proof.
  intros H. unfold Sample.context_enc in H. apply oconcat_3 in H.
  destruct H as (b1 & b2 & b3 & E1 & E2 & E3 & ->).
  apply opaque_enc_Some in E1, E3. destruct E1 as [F1 ->], E3 as [F3 ->].
  injection E2 as <-. rewrite <- !app_assoc.
  unfold Sample.context_unmarshal.
  rewrite readOpaqueVec_bytes by exact F1. cbn [orEOF bindO].
  rewrite ReadUint32_bytes by apply uint32_range. cbn [orEOF bindO].
  rewrite readOpaqueVec_bytes by exact F3. reflexivity.
Qed.

Lemma sample_context_reread : reread_law Sample.context.
Proof.
  intros c bs rest H.
  pose proof (proj1 (marshal_emits c _ bs (sample_context_emits c)) H) as E.
  exists (Sample.mkContext (Sample.c_groupID c) (uint32 (Sample.c_epoch c))
            (Sample.c_treeHash c)).
  split; [exact (sample_context_read c bs rest E)|].
  apply (same_wire_inr _ _ bs H).
  apply (marshal_emits _ _ bs (sample_context_emits _)).
  unfold Sample.context_enc in *. cbn [Sample.c_groupID Sample.c_epoch
    Sample.c_treeHash]. rewrite uint32_idem. exact E.
Qed.

Lemma sample_context_exact : exact_law Sample.context Sample.context_valid.
Proof.
  intros c bs rest V H.
  pose proof (proj1 (marshal_emits c _ bs (sample_context_emits c)) H) as E.
  change (@unmarshal_of Sample.context _ (bs ++ rest))
    with (Sample.context_unmarshal (bs ++ rest)).
  rewrite (sample_context_read c bs rest E).
  unfold Sample.context_valid in V. rewrite (uint32_id _ V).
  destruct c; reflexivity.
Qed.

Lemma sample_context_canonical : canonical_law Sample.context.
Proof.
  intros s c rest H.
  change (Sample.context_unmarshal s = Done (c, rest)) in H.
  unfold Sample.context_unmarshal in H.
  destruct (readOpaqueVec s) as [[id s1]|] eqn:E1; cbn [orEOF bindO] in H;
    [|discriminate].
  destruct (ReadUint32 s1) as [[ep s2]|] eqn:E2; cbn [orEOF bindO] in H;
    [|discriminate].
  destruct (readOpaqueVec s2) as [[th s3]|] eqn:E3; cbn [orEOF bindO] in H;
    [|discriminate].
  injection H as <- <-.
  apply readOpaqueVec_canon in E1, E3. destruct E1 as [F1 ->], E3 as [F3 ->].
  apply ReadUint32_canon in E2. destruct E2 as [F2 ->].
  exists (opaque_bytes id ++ uint32_bytes ep ++ opaque_bytes th). split.
  - apply (marshal_emits _ _ _ (sample_context_emits _)).
    unfold Sample.context_enc.
    cbn [Sample.c_groupID Sample.c_epoch Sample.c_treeHash].
    rewrite (proj2 (opaque_enc_Some id _) (conj F1 eq_refl)).
    rewrite (proj2 (opaque_enc_Some th _) (conj F3 eq_refl)).
    rewrite (uint32_id ep F2). cbn [oconcat fold_right oapp].
    rewrite app_nil_r. reflexivity.
  - rewrite <- !app_assoc. reflexivity.
Qed.

Lemma sample_context_total : total_law Sample.context.
Proof.
  intros s. change (Sample.context_unmarshal s <> OutOfFuel).
  unfold Sample.context_unmarshal.
  destruct (readOpaqueVec s) as [[id s1]|]; cbn [orEOF bindO]; [|discriminate].
  destruct (ReadUint32 s1) as [[ep s2]|]; cbn [orEOF bindO]; [|discriminate].
  destruct (readOpaqueVec s2) as [[th s3]|]; cbn; discriminate.
Qed.

(** *** The tree *)

Lemma sample_tree_emits (t : Sample.tree) :
  emits (Sample.tree_marshal t) (vector_enc (map privKey_enc t)).
Proof. exact (emits_privTree t). Qed.

Lemma sample_tree_writer : writer_law Sample.tree.
Proof.
  intros t. exact (emits_appends _ _ (sample_tree_emits t)).
Qed.

Lemma sample_tree_exact : exact_law Sample.tree Sample.tree_valid.
Proof.
  intros t bs rest _ H.
  apply (marshal_emits t _ bs (sample_tree_emits t)) in H.
  exact (privTree_reread t bs rest H).
Qed.

Lemma sample_tree_reread : reread_law Sample.tree.
Proof.
  intros t bs rest H. exists t. split.
  - exact (sample_tree_exact t bs rest I H).
  - reflexivity.
Qed.

Lemma sample_tree_canonical : canonical_law Sample.tree.
Proof.
  intros s t rest H.
  change (readVector privTree_read [] s = Done (t, rest)) in H.
  rewrite (readVector_ext _ _ privTree_read_push) in H.
  apply (readVector_canon _ privKey_enc) in H; [|exact privKey_dec_canon].
  destruct H as (data & Hv & ->). exists data. split; [|reflexivity].
  apply (marshal_emits t _ data (sample_tree_emits t)). exact Hv.
Qed.

Lemma privKey_dec_consumes (s : bytes) (key : hpkePrivateKey) (rest : bytes) :
  privKey_dec s = Done (key, rest) -> (length rest < length s)%nat.
Proof.
  intros H. apply privKey_dec_canon in H. destruct H as (bs & Hk & ->).
  apply privKey_enc_nonempty in Hk. rewrite length_app.
  destruct bs; [congruence | cbn; lia].
Qed.

Lemma sample_tree_total : total_law Sample.tree.
Proof.
  intros s. change (readVector privTree_read [] s <> OutOfFuel).
  rewrite (readVector_ext _ _ privTree_read_push).
  apply readVector_total; [exact privKey_dec_total | exact privKey_dec_consumes].
Qed.

(** *** The proposals *)

Lemma sample_proposal_emits (p : Sample.proposal) :
  emits (Sample.proposal_marshal p) (Sample.proposal_enc p).
Proof.
  destruct p as [kp|kp|l]; cbn [Sample.proposal_marshal Sample.proposal_enc].
  - apply (emits_seq (fun b => AddUint8 b 1) (fun b => writeOpaqueVec b kp)
             (Some [x01])); [apply emits_add | apply emits_opaque].
  - apply (emits_seq (fun b => AddUint8 b 2) (fun b => writeOpaqueVec b kp)
             (Some [x02])); [apply emits_add | apply emits_opaque].
  - apply (emits_seq (fun b => AddUint8 b 3) (fun b => AddUint32 b (uint32 l))
             (Some [x03]) (Some (uint32_bytes (uint32 l))));
      [apply emits_add | apply emits_AddUint32].
Qed.

Lemma sample_proposal_writer : writer_law Sample.proposal.
Proof.
  intros p. exact (emits_appends _ _ (sample_proposal_emits p)).
Qed.

Lemma sample_proposal_read (p : Sample.proposal) (bs rest : bytes) :
  Sample.proposal_enc p = Some bs ->
  Sample.proposal_unmarshal (bs ++ rest) = Done (Sample.proposal_norm p, rest).
Proof.
  destruct p as [kp|kp|l]; cbn [Sample.proposal_enc Sample.proposal_norm];
    intros H.
  - apply oapp_Some in H. destruct H as (a & c & [= <-] & Hc & ->).
    apply opaque_enc_Some in Hc. destruct Hc as [F ->].
    unfold Sample.proposal_unmarshal. cbn [app ReadUint8 orEOF bindO].
    change (byte_to_Z x01 =? 1) with true. cbv iota.
    rewrite readOpaqueVec_bytes by exact F. reflexivity.
  - apply oapp_Some in H. destruct H as (a & c & [= <-] & Hc & ->).
    apply opaque_enc_Some in Hc. destruct Hc as [F ->].
    unfold Sample.proposal_unmarshal. cbn [app ReadUint8 orEOF bindO].
    change (byte_to_Z x02 =? 1) with false.
    change (byte_to_Z x02 =? 2) with true. cbv iota.
    rewrite readOpaqueVec_bytes by exact F. reflexivity.
  - injection H as <-.
    unfold Sample.proposal_unmarshal.
    change ((x03 :: uint32_bytes (uint32 l)) ++ rest)
      with (x03 :: (uint32_bytes (uint32 l) ++ rest)).
    cbn [ReadUint8 orEOF bindO].
    change (byte_to_Z x03 =? 1) with false.
    change (byte_to_Z x03 =? 2) with false.
    change (byte_to_Z x03 =? 3) with true. cbv iota.
    rewrite ReadUint32_bytes by apply uint32_range. reflexivity.
Qed.

Lemma sample_proposal_norm_enc (p : Sample.proposal) :
  Sample.proposal_enc (Sample.proposal_norm p) = Sample.proposal_enc p.
Proof.
  destruct p as [kp|kp|l]; cbn; [reflexivity | reflexivity |].
  rewrite uint32_idem. reflexivity.
Qed.

Lemma sample_proposal_reread : reread_law Sample.proposal.
Proof.
  intros p bs rest H.
  pose proof (proj1 (marshal_emits p _ bs (sample_proposal_emits p)) H) as E.
  exists (Sample.proposal_norm p).
  split; [exact (sample_proposal_read p bs rest E)|].
  apply (same_wire_inr _ _ bs H).
  apply (marshal_emits _ _ bs (sample_proposal_emits _)).
  rewrite sample_proposal_norm_enc. exact E.
Qed.

Lemma sample_proposal_exact : exact_law Sample.proposal Sample.proposal_valid.
Proof.
  intros p bs rest V H.
  pose proof (proj1 (marshal_emits p _ bs (sample_proposal_emits p)) H) as E.
  change (@unmarshal_of Sample.proposal _ (bs ++ rest))
    with (Sample.proposal_unmarshal (bs ++ rest)).
  rewrite (sample_proposal_read p bs rest E).
  destruct p as [kp|kp|l]; cbn [Sample.proposal_norm]; try reflexivity.
  cbn in V. rewrite (uint32_id l V). reflexivity.
Qed.

Lemma byte_of_value (b : byte) (v : Z) (c : byte) :
  byte_to_Z b = v -> byte_to_Z c = v -> b = c.
Proof. intros H1 H2. apply byte_to_Z_inj. congruence. Qed.

Lemma sample_proposal_canonical : canonical_law Sample.proposal.
Proof.
  intros s p rest H.
  change (Sample.proposal_unmarshal s = Done (p, rest)) in H.
  unfold Sample.proposal_unmarshal in H.
  destruct s as [|b0 s]; [discriminate|]. cbn [ReadUint8 orEOF bindO] in H.
  destruct (byte_to_Z b0 =? 1) eqn:T1.
  { apply Z.eqb_eq in T1.
    destruct (readOpaqueVec s) as [[kp s1]|] eqn:E; cbn [orEOF bindO] in H;
      [|discriminate].
    injection H as <- <-. apply readOpaqueVec_canon in E. destruct E as [F ->].
    exists (x01 :: opaque_bytes kp). split.
    - apply (marshal_emits _ _ _ (sample_proposal_emits _)).
      cbn [Sample.proposal_enc].
      rewrite (proj2 (opaque_enc_Some kp _) (conj F eq_refl)). reflexivity.
    - cbn [app]. f_equal. exact (byte_of_value b0 1 x01 T1 eq_refl). }
  destruct (byte_to_Z b0 =? 2) eqn:T2.
  { apply Z.eqb_eq in T2.
    destruct (readOpaqueVec s) as [[kp s1]|] eqn:E; cbn [orEOF bindO] in H;
      [|discriminate].
    injection H as <- <-. apply readOpaqueVec_canon in E. destruct E as [F ->].
    exists (x02 :: opaque_bytes kp). split.
    - apply (marshal_emits _ _ _ (sample_proposal_emits _)).
      cbn [Sample.proposal_enc].
      rewrite (proj2 (opaque_enc_Some kp _) (conj F eq_refl)). reflexivity.
    - cbn [app]. f_equal. exact (byte_of_value b0 2 x02 T2 eq_refl). }
  destruct (byte_to_Z b0 =? 3) eqn:T3; [|discriminate].
  apply Z.eqb_eq in T3.
  destruct (ReadUint32 s) as [[l s1]|] eqn:E; cbn [orEOF bindO] in H;
    [|discriminate].
  injection H as <- <-. apply ReadUint32_canon in E. destruct E as [F ->].
  exists (x03 :: uint32_bytes l). split.
  - apply (marshal_emits _ _ _ (sample_proposal_emits _)).
    cbn [Sample.proposal_enc]. rewrite (uint32_id l F). reflexivity.
  - cbn [app]. f_equal. exact (byte_of_value b0 3 x03 T3 eq_refl).
Qed.

Lemma sample_proposal_total : total_law Sample.proposal.
Proof.
  intros s. change (Sample.proposal_unmarshal s <> OutOfFuel).
  unfold Sample.proposal_unmarshal.
  destruct s as [|b0 s]; cbn [ReadUint8 orEOF bindO]; [discriminate|].
  destruct (byte_to_Z b0 =? 1).
  { destruct (readOpaqueVec s) as [[kp s1]|]; cbn; discriminate. }
  destruct (byte_to_Z b0 =? 2).
  { destruct (readOpaqueVec s) as [[kp s1]|]; cbn; discriminate. }
  destruct (byte_to_Z b0 =? 3); [|discriminate].
  destruct (ReadUint32 s) as [[l s1]|]; cbn; discriminate.
Qed.

(** ** The theorems on the sample groups *)

Lemma sample_suite_opens : aead_law Sample.suite.
Proof. intros key nonce aad pt. reflexivity. Qed.

Lemma marshal_unmarshal_marshal_witness :
  Marshal group1 = inr data1 /\
  exists g' : Group context tree proposal,
    UnmarshalGroupState data1 = Done g' /\ Marshal g' = inr data1.
Proof.
  split; [vm_compute; reflexivity|].
  apply (marshal_unmarshal_marshal
           sample_context_writer sample_tree_writer sample_proposal_writer
           sample_context_reread sample_tree_reread sample_proposal_reread
           group1 data1).
  vm_compute. reflexivity.
Defined.

Lemma unmarshal_marshal_canonical_witness :
  UnmarshalGroupState data1 = Done group1 /\ Marshal group1 = inr data1.
Proof.
  split; [vm_compute; reflexivity|].
  apply (unmarshal_marshal_canonical
           sample_context_writer sample_tree_writer sample_proposal_writer
           sample_context_canonical sample_tree_canonical
           sample_proposal_canonical data1 group1).
  vm_compute. reflexivity.
Defined.

Lemma decoding_rejects_malformed_witness :
  (exists e, @UnmarshalGroupState context tree proposal _ _ _
               (removelast data1) = Fail e) /\
  (exists e, @UnmarshalGroupState context tree proposal _ _ _
               (data1 ++ [x00]) = Fail e) /\
  (exists e, @UnmarshalGroupState context tree proposal _ _ _
               (concat (firstn 2 chunks1) ++ [xc0]) = Fail e) /\
  (exists e, @UnmarshalGroupState context tree proposal _ _ _
               (concat (firstn 7 chunks1)
                ++ opaque_bytes ([x00] ++ x01 :: [x40; x01]) ++ []) = Fail e) /\
  (exists e, @UnmarshalGroupState context tree proposal _ _ _
               (concat (firstn 9 chunks1)
                ++ opaque_bytes ([] ++ [xff]) ++ []) = Fail e).
Proof.
  destruct (decoding_rejects_malformed
              sample_context_writer sample_tree_writer sample_proposal_writer
              sample_context_reread sample_tree_reread sample_proposal_reread
              sample_context_canonical sample_tree_canonical
              sample_proposal_canonical
              sample_context_total sample_tree_total sample_proposal_total)
    as (Ha & Hb & Hc & Hd & He & _).
  assert (HF : Forall2 (fun o b => o = Some b)
                 (groupState_fields (state_of group1)) chunks1).
  { vm_compute. repeat constructor. }
  split; [|split; [|split; [|split]]].
  - apply (Ha data1 group1 (removelast data1) [x01]).
    + vm_compute. reflexivity.
    + vm_compute. reflexivity.
    + discriminate.
  - apply (Hb data1 group1 [x00]).
    + vm_compute. reflexivity.
    + discriminate.
  - apply (Hc group1 chunks1 2%nat [xc0] HF).
    + cbn. auto.
    + vm_compute. reflexivity.
  - apply (Hd group1 chunks1 [None] [x00] [x40; x01] [] HF).
    + vm_compute. reflexivity.
    + vm_compute. reflexivity.
    + vm_compute. reflexivity.
  - apply (He group1 chunks1 [] [] [xff] [] HF).
    + vm_compute. reflexivity.
    + vm_compute. reflexivity.
    + vm_compute. reflexivity.
Defined.

Lemma persisted_fields_witness :
  Marshal group1 = inr data1 /\ UnmarshalGroupState data1 = Done group1.
Proof.
  split; [vm_compute; reflexivity|].
  apply (proj2 (persisted_fields context_valid tree_valid proposal_valid
                  sample_context_writer sample_tree_writer
                  sample_proposal_writer
                  sample_context_exact sample_tree_exact sample_proposal_exact)
           group1 data1).
  - unfold context_valid, is_uint32. cbn. lia.
  - exact I.
  - repeat constructor; unfold is_uint32; cbn; lia.
  - split; [unfold is_uint32; cbn; lia|].
    repeat constructor; unfold is_uint32; cbn; lia.
  - vm_compute. reflexivity.
Defined.

Lemma restored_group_decrypts_witness :
  exists restored : Group context tree proposal,
    UnmarshalGroupState data0 = Done restored /\
    snd (UnmarshalAndProcessMessage suite (open_session restored) ciphertext0)
      = Done (list_byte_of_string "hello world") /\
    snd (UnmarshalAndProcessMessage suite (fst sent0) ciphertext0)
      = Done (list_byte_of_string "hello world").
Proof.
  apply (restored_group_decrypts suite single_leaf_tree initial_context
           sample_context_writer sample_tree_writer sample_proposal_writer
           sample_context_reread sample_tree_reread sample_suite_opens
           alice [x2a] (fst sent0) ciphertext0 data0).
  - reflexivity.
  - vm_compute. reflexivity.
  - vm_compute. reflexivity.
Defined.

Lemma marshal_deterministic_ordered_witness :
  exists head mid keys props,
    Forall2 (fun key c => privKey_enc key = Some c) (g_privTree group1) keys /\
    Forall2 (fun pp c => pendingProposal_enc pp = Some c)
      (g_pendingProposals group1) props /\
    data1 = head ++ opaque_bytes (concat keys) ++ mid
                 ++ opaque_bytes (concat props).
Proof.
  apply (proj2 (marshal_deterministic_ordered
                  sample_context_writer sample_tree_writer
                  sample_proposal_writer) group1 data1).
  vm_compute. reflexivity.
Defined.

Lemma privTree_presence_flags_witness :
  exists g' : Group context tree proposal,
    UnmarshalGroupState data1 = Done g' /\
    g_privTree g' = [None; Some [x41]; Some []] /\
    length (g_privTree g') = 3%nat /\
    (forall i, nth_error (g_privTree g') i = Some None <->
               nth_error [None; Some [x41]; Some []] i = Some None).
Proof.
  apply (proj2 (privTree_presence_flags
                  sample_context_writer sample_tree_writer
                  sample_proposal_writer
                  sample_context_reread sample_tree_reread
                  sample_proposal_reread) group1 data1).
  vm_compute. reflexivity.
Defined.

Lemma indices_fixed_width_witness :
  (exists g' : Group context tree proposal,
     UnmarshalGroupState data1 = Done g' /\
     g_myLeafIndex g' = 1 /\
     map pp_sender (g_pendingProposals g') = [0; 1]) /\
  (exists b1 b2 b8 b10,
     marshal (g_groupContext group1) = inr b1 /\
     marshal (g_tree group1) = inr b2 /\
     vector_enc (map privKey_enc (g_privTree group1)) = Some b8 /\
     vector_enc (map pendingProposal_enc (g_pendingProposals group1))
       = Some b10 /\
     data1 = (b1 ++ b2 ++ opaque_bytes (g_interimTranscriptHash group1)
                 ++ opaque_bytes (g_pskSecret group1)
                 ++ opaque_bytes (g_epochSecret group1)
                 ++ opaque_bytes (g_initSecret group1))
             ++ uint32_bytes (uint32 (g_myLeafIndex group1))
             ++ (b8 ++ opaque_bytes (g_signaturePriv group1) ++ b10) /\
     length data1 =
       (length b1 + length b2
        + length (opaque_bytes (g_interimTranscriptHash group1))
        + length (opaque_bytes (g_pskSecret group1))
        + length (opaque_bytes (g_epochSecret group1))
        + length (opaque_bytes (g_initSecret group1))
        + 4
        + length b8 + length (opaque_bytes (g_signaturePriv group1))
        + length b10)%nat).
Proof.
  destruct (indices_fixed_width
              sample_context_writer sample_tree_writer sample_proposal_writer
              sample_context_reread sample_tree_reread sample_proposal_reread)
    as (_ & L & _ & H).
  split.
  - apply (H group1 data1).
    + split; [unfold is_uint32; cbn; lia|].
      repeat constructor; unfold is_uint32; cbn; lia.
    + vm_compute. reflexivity.
  - apply (L group1 data1). vm_compute. reflexivity.
Defined.

Lemma empty_pending_proposals_witness :
  length (g_pendingProposals group0) = 0%nat /\
  exists g' : Group context tree proposal,
    UnmarshalGroupState data0 = Done g' /\
    length (g_pendingProposals g') = 0%nat.
Proof.
  destruct (empty_pending_proposals suite single_leaf_tree initial_context
              sample_context_writer sample_tree_writer sample_proposal_writer
              sample_context_reread sample_tree_reread)
    as (Hnew & Hkept).
  split.
  - exact (Hnew (list_byte_of_string "test-group") alice [x2a]).
  - apply (Hkept group0 data0).
    + reflexivity.
    + vm_compute. reflexivity.
Defined.

(** ** The further properties on the sample groups *)

Lemma sample_context_shrinks (s : bytes) (x : context) (rest : bytes) :
  unmarshal_of s = Done (x, rest) -> (length rest <= length s)%nat.
Proof.
  intros H. destruct (sample_context_canonical s x rest H) as (bs & _ & ->).
  rewrite length_app. lia.
Qed.

Lemma sample_tree_shrinks (s : bytes) (x : tree) (rest : bytes) :
  unmarshal_of s = Done (x, rest) -> (length rest <= length s)%nat.
Proof.
  intros H. destruct (sample_tree_canonical s x rest H) as (bs & _ & ->).
  rewrite length_app. lia.
Qed.

Lemma sample_proposal_shrinks (s : bytes) (x : proposal) (rest : bytes) :
  unmarshal_of s = Done (x, rest) -> (length rest <= length s)%nat.
Proof.
  intros H. destruct (sample_proposal_canonical s x rest H) as (bs & _ & ->).
  rewrite length_app. lia.
Qed.

Lemma sample_context_no_index_error (x : context) (b : Builder) :
  err b <> Some ErrIndexOutOfRange ->
  err (marshal_of x b) <> Some ErrIndexOutOfRange.
Proof.
  intros H. unfold marshal_of, context_marshaler, context_marshal, AddUint32.
  apply writeOpaqueVec_no_index_error, add_no_index_error,
    writeOpaqueVec_no_index_error.
  exact H.
Qed.

Lemma sample_tree_no_index_error (x : tree) (b : Builder) :
  err b <> Some ErrIndexOutOfRange ->
  err (marshal_of x b) <> Some ErrIndexOutOfRange.
Proof.
  intros H. unfold marshal_of, tree_marshaler, tree_marshal.
  apply writeVector_no_index_error; [exact H|].
  apply privTree_write_no_index_error.
Qed.

Lemma sample_proposal_no_index_error (x : proposal) (b : Builder) :
  err b <> Some ErrIndexOutOfRange ->
  err (marshal_of x b) <> Some ErrIndexOutOfRange.
Proof.
  intros H. unfold marshal_of, proposal_marshaler, proposal_marshal.
  destruct x as [kp|kp|l]; unfold AddUint32, AddUint8.
  - apply writeOpaqueVec_no_index_error, add_no_index_error. exact H.
  - apply writeOpaqueVec_no_index_error, add_no_index_error. exact H.
  - do 2 apply add_no_index_error. exact H.
Qed.

Lemma sample_group1_valid :
  Group_valid context_valid tree_valid proposal_valid group1.
Proof.
  unfold Group_valid, context_valid, tree_valid, is_uint32.
  repeat split; try (cbn; lia);
    repeat constructor; unfold is_uint32; cbn; lia.
Qed.

Lemma sample_group0_valid :
  Group_valid context_valid tree_valid proposal_valid group0.
Proof.
  unfold Group_valid, context_valid, tree_valid, is_uint32.
  repeat split; try (cbn; lia); constructor.
Qed.

Lemma pendingProposal_marshal_unmarshal_witness :
  pendingProposal_unmarshal
    (bytes_of (Bytes (pendingProposal_marshal
                        (mkPendingProposal [x62] (Remove 1) 1) newBuilder))
     ++ [xff])
  = Done (mkPendingProposal [x62] (Remove 1) 1, [xff]).
Proof.
  apply (pendingProposal_marshal_unmarshal proposal_valid
           (mkPendingProposal [x62] (Remove 1) 1) _ [xff]
           sample_proposal_writer sample_proposal_exact).
  - cbn. unfold is_uint32. lia.
  - cbn. unfold is_uint32. lia.
  - vm_compute. reflexivity.
Defined.

Lemma pendingProposal_unmarshal_canonical_witness :
  is_uint32 1 /\ fits [x62] /\
  exists bs,
    Bytes (pendingProposal_marshal
             (mkPendingProposal [x62] (Remove 1) 1) newBuilder) = inr bs /\
    [x01; x62; x03; x00; x00; x00; x01; x00; x00; x00; x01; xff] = bs ++ [xff].
Proof.
  apply (pendingProposal_unmarshal_canonical
           [x01; x62; x03; x00; x00; x00; x01; x00; x00; x00; x01; xff]
           (mkPendingProposal [x62] (Remove 1) 1) [xff]
           sample_proposal_writer sample_proposal_canonical).
  vm_compute. reflexivity.
Defined.

Lemma groupState_marshal_composes_witness :
  Bytes (groupState_marshal (state_of group1) (mkBuilder None [xde; xad]))
    = inr ([xde; xad] ++ data1) /\
  (forall b, err b <> None ->
     err (groupState_marshal (state_of group1) b) <> None).
Proof.
  apply (groupState_marshal_composes
           sample_context_writer sample_tree_writer sample_proposal_writer
           group1 data1 [xde; xad]).
  vm_compute. reflexivity.
Defined.

Lemma groupState_unmarshal_sequence_witness :
  groupState_unmarshal (data1 ++ data0 ++ [xff])
    = Done (state_of group1, data0 ++ [xff]) /\
  groupState_unmarshal (data0 ++ [xff]) = Done (state_of group0, [xff]).
Proof.
  apply (groupState_unmarshal_sequence
           sample_context_writer sample_tree_writer sample_proposal_writer
           context_valid tree_valid proposal_valid
           sample_context_exact sample_tree_exact sample_proposal_exact
           group1 group0 data1 data0 [xff]
           sample_group1_valid sample_group0_valid).
  - vm_compute. reflexivity.
  - vm_compute. reflexivity.
Defined.

Lemma Marshal_injective_witness : group1 = group_of (state_of group1).
Proof.
  apply (Marshal_injective
           sample_context_writer sample_tree_writer sample_proposal_writer
           context_valid tree_valid proposal_valid
           sample_context_exact sample_tree_exact sample_proposal_exact
           group1 (group_of (state_of group1)) data1
           sample_group1_valid sample_group1_valid).
  - vm_compute. reflexivity.
  - vm_compute. reflexivity.
Defined.

Lemma truncated_fields_unexpected_EOF_witness :
  @UnmarshalGroupState context tree proposal _ _ _
    (nth 0 chunks1 [] ++ nth 1 chunks1 []
     ++ firstn 5 (concat (skipn 2 chunks1)))
  = Fail (ErrWrap "unmarshal group state" ErrUnexpectedEOF) /\
  @UnmarshalGroupState context tree proposal _ _ _
    (nth 0 chunks1 [] ++ nth 1 chunks1 []
     ++ firstn 15 (concat (skipn 2 chunks1)))
  = Fail (ErrWrap "unmarshal group state"
            (ErrWrap "unmarshal priv tree" ErrUnexpectedEOF)) /\
  @UnmarshalGroupState context tree proposal _ _ _
    (nth 0 chunks1 [] ++ nth 1 chunks1 []
     ++ firstn 30 (concat (skipn 2 chunks1)))
  = Fail (ErrWrap "unmarshal group state"
            (ErrWrap "unmarshal pending proposals" ErrUnexpectedEOF)).
Proof.
  pose proof (fun n =>
    truncated_fields_unexpected_EOF
      sample_context_writer sample_tree_writer sample_proposal_writer
      sample_context_reread sample_tree_reread
      group1 (nth 0 chunks1 []) (nth 1 chunks1 []) (nth 7 chunks1 [])
      (concat (skipn 2 chunks1))
      (firstn n (concat (skipn 2 chunks1)))
      (skipn n (concat (skipn 2 chunks1)))) as T.
  split; [|split].
  - etransitivity.
    + apply (T 5%nat).
      * vm_compute. reflexivity.
      * vm_compute. reflexivity.
      * vm_compute. reflexivity.
      * vm_compute. reflexivity.
      * vm_compute. reflexivity.
      * vm_compute. discriminate.
    + vm_compute. reflexivity.
  - etransitivity.
    + apply (T 15%nat).
      * vm_compute. reflexivity.
      * vm_compute. reflexivity.
      * vm_compute. reflexivity.
      * vm_compute. reflexivity.
      * vm_compute. reflexivity.
      * vm_compute. discriminate.
    + vm_compute. reflexivity.
  - etransitivity.
    + apply (T 30%nat).
      * vm_compute. reflexivity.
      * vm_compute. reflexivity.
      * vm_compute. reflexivity.
      * vm_compute. reflexivity.
      * vm_compute. reflexivity.
      * vm_compute. discriminate.
    + vm_compute. reflexivity.
Defined.

Lemma key_overrun_rejected_witness :
  @UnmarshalGroupState context tree proposal _ _ _
    (concat (firstn 7 chunks1)
     ++ opaque_bytes ([x00] ++ x01 :: varint_bytes 5 ++ [xaa])
     ++ [x01; x02; x03; x04; x05; x06])
  = Fail (ErrWrap "unmarshal group state"
            (ErrWrap "unmarshal priv tree" ErrUnexpectedEOF)).
Proof.
  apply (key_overrun_rejected
           sample_context_reread sample_tree_reread
           group1 chunks1 [None] [x00] 5 [xaa]
           [x01; x02; x03; x04; x05; x06]).
  - vm_compute. repeat constructor.
  - vm_compute. reflexivity.
  - lia.
  - cbn. lia.
  - vm_compute. reflexivity.
Defined.

Lemma Marshal_prefix_free_witness : @nil byte = [].
Proof.
  apply (Marshal_prefix_free
           sample_context_writer sample_tree_writer sample_proposal_writer
           sample_context_reread sample_tree_reread sample_proposal_reread
           group1 group1 data1 []).
  - vm_compute. reflexivity.
  - vm_compute. reflexivity.
Defined.

Lemma byte_fields_restored_witness :
  exists g' : Group context tree proposal,
    UnmarshalGroupState data1 = Done g' /\
    g_interimTranscriptHash g' = [x11; x12] /\
    g_pskSecret g' = [] /\
    g_epochSecret g' = [x21] /\
    g_initSecret g' = [x31] /\
    g_signaturePriv g' = [x51] /\
    map pp_ref (g_pendingProposals g') = [[x61]; [x62]].
Proof.
  apply (byte_fields_restored
           sample_context_writer sample_tree_writer sample_proposal_writer
           sample_context_reread sample_tree_reread sample_proposal_reread
           group1 data1).
  vm_compute. reflexivity.
Defined.

Lemma UnmarshalGroupState_injective_witness : data1 = data1 ++ [].
Proof.
  apply (UnmarshalGroupState_injective
           sample_context_canonical sample_tree_canonical
           sample_proposal_canonical
           data1 (data1 ++ []) group1).
  - vm_compute. reflexivity.
  - vm_compute. reflexivity.
Defined.

Lemma UnmarshalGroupState_errors_witness :
  exists e',
    ErrWrap "unmarshal group state" (ErrExcessBytes 1)
      = ErrWrap "unmarshal group state" e' /\
    ((exists e0 s, e' = ErrWrap "unmarshal group context" e0 /\
                   @unmarshal_of context _ s = Fail e0) \/
     (exists e0 s, e' = ErrWrap "unmarshal ratchet tree" e0 /\
                   @unmarshal_of tree _ s = Fail e0) \/
     e' = ErrUnexpectedEOF \/
     e' = ErrWrap "unmarshal priv tree" ErrUnexpectedEOF \/
     e' = ErrWrap "unmarshal pending proposals" ErrUnexpectedEOF \/
     (exists e0 s, e' = ErrWrap "unmarshal pending proposals" e0 /\
                   @unmarshal_of proposal _ s = Fail e0) \/
     (exists n, e' = ErrExcessBytes (S n))).
Proof.
  apply (@UnmarshalGroupState_errors context tree proposal _ _ _
           (data1 ++ [x00])
           (ErrWrap "unmarshal group state" (ErrExcessBytes 1))).
  vm_compute. reflexivity.
Defined.

Lemma short_input_rejected_witness :
  @UnmarshalGroupState context tree proposal _ _ _ (firstn 10 data0)
  <> Done group0.
Proof.
  apply (short_input_rejected (firstn 10 data0) group0
           sample_context_shrinks sample_tree_shrinks).
  cbn. lia.
Defined.

Lemma restored_group_in_bounds_witness :
  is_uint32 (g_myLeafIndex group1) /\
  Forall (fun pp => is_uint32 (pp_sender pp)) (g_pendingProposals group1) /\
  fits (g_interimTranscriptHash group1) /\ fits (g_pskSecret group1) /\
  fits (g_epochSecret group1) /\ fits (g_initSecret group1) /\
  fits (g_signaturePriv group1) /\
  Forall (fun key => match key with Some k => fits k | None => True end)
    (g_privTree group1) /\
  Forall (fun pp => fits (pp_ref pp)) (g_pendingProposals group1).
Proof.
  apply (restored_group_in_bounds data1 group1).
  vm_compute. reflexivity.
Defined.

Lemma UnmarshalGroupState_returns_witness :
  (exists g, @UnmarshalGroupState context tree proposal _ _ _
               (removelast data1) = Done g) \/
  (exists e, @UnmarshalGroupState context tree proposal _ _ _
               (removelast data1) = Fail e).
Proof.
  apply (UnmarshalGroupState_returns (removelast data1)
           sample_context_total sample_tree_total sample_proposal_total
           sample_proposal_shrinks).
Defined.

Lemma Marshal_index_in_range_witness :
  Marshal group1 <> inl ErrIndexOutOfRange.
Proof.
  apply (Marshal_index_in_range group1
           sample_context_no_index_error sample_tree_no_index_error
           sample_proposal_no_index_error).
Defined.

Lemma invalid_flag_rejected_witness :
  @UnmarshalGroupState context tree proposal _ _ _
    (concat (firstn 7 chunks1)
     ++ opaque_bytes ([x00] ++ x02 :: [x00]) ++ nth 8 chunks1 []
     ++ nth 9 chunks1 [])
  = Fail (ErrWrap "unmarshal group state"
            (ErrWrap "unmarshal priv tree" ErrUnexpectedEOF)).
Proof.
  apply (invalid_flag_rejected
           sample_context_reread sample_tree_reread
           group1 chunks1 [None] [x00] x02 [x00]
           (nth 8 chunks1 [] ++ nth 9 chunks1 [])).
  - vm_compute. repeat constructor.
  - vm_compute. reflexivity.
  - discriminate.
  - discriminate.
  - vm_compute. reflexivity.
Defined.

Lemma proposal_error_surfaces_witness :
  @UnmarshalGroupState context tree proposal _ _ _
    (concat (firstn 9 chunks1)
     ++ opaque_bytes ([x01; x61; x03; x00; x00; x00; x07; x00; x00; x00; x00]
                      ++ [x01; x62; x09; x00])
     ++ [])
  = Fail (ErrWrap "unmarshal group state"
            (ErrWrap "unmarshal pending proposals"
               (ErrOther "unknown proposal type"))).
Proof.
  apply (proposal_error_surfaces
           sample_context_reread sample_tree_reread sample_proposal_reread
           group1 chunks1 [mkPendingProposal [x61] (Remove 7) 0]
           [x01; x61; x03; x00; x00; x00; x07; x00; x00; x00; x00]
           [x01; x62; x09; x00] []
           (ErrOther "unknown proposal type")).
  - vm_compute. repeat constructor.
  - vm_compute. reflexivity.
  - discriminate.
  - vm_compute. reflexivity.
  - vm_compute. reflexivity.
Defined.

Lemma Marshal_output_nonempty_witness :
  data0 <> [] /\ (11 <= length data0)%nat.
Proof.
  apply (Marshal_output_nonempty
           sample_context_writer sample_tree_writer sample_proposal_writer
           group0 data0).
  vm_compute. reflexivity.
Defined.

(** ** The group in memory: the sample *)

Lemma sample_context_marshal_at_reads (c : context) (b : Builder) :
  reads (SampleMemory.context_marshal_at c b).
Proof. intros h. reflexivity. Qed.

Lemma sample_tree_marshal_at_reads (t : tree) (b : Builder) :
  reads (SampleMemory.tree_marshal_at t b).
Proof. intros h. reflexivity. Qed.

Lemma sample_proposal_marshal_at_reads (p : addr) (b : Builder) :
  reads (SampleMemory.proposal_marshal_at p b).
Proof.
  intros h. unfold SampleMemory.proposal_marshal_at.
  destruct (nth_error (proposal_objects h) p); reflexivity.
Qed.

(** On the sample the bytes are those of [Marshal] on [group1]. *)
Lemma sample_Group_Marshal_at :
  Group_Marshal_at SampleMemory.context_marshal_at
    SampleMemory.tree_marshal_at SampleMemory.proposal_marshal_at
    0%nat SampleMemory.heap1
  = (Some (Marshal group1), SampleMemory.heap1).
Proof. vm_compute. reflexivity. Qed.

(** With a callee that writes to the memory, [Marshal] does not leave the
    group as it was: the hypotheses on the components are needed. *)
Lemma Marshal_with_writing_callee :
  Group_at
    (snd (Group_Marshal_at SampleMemory.context_marshal_at
            SampleMemory.tree_marshal_at SampleMemory.wiping_marshal_at
            0%nat SampleMemory.heap1)) 0%nat
  <> Group_at SampleMemory.heap1 0%nat.
Proof. vm_compute. discriminate. Qed.

